(** * Edge AI Translator: scheduler, retry, cache, batch splitter, orchestrator

    A shallow embedding of the JavaScript sources
      - scheduler.js  (token bucket, backoff, retry, concurrency scheduler),
      - cache.js      (LRU cache with TTL, FNV-1a hash, cache keys),
      - prompt.js     (token estimate, budget splitter, skippable segments),
      - background.js (translation orchestrator, batch fallback),
    followed by the properties established about them.

    Conventions of the embedding:
      - a JavaScript string is the list of its UTF-16 code units;
      - integer quantities (milliseconds, counts, HTTP statuses) are [Z];
        the token bucket's fractional quantities and the draws of
        [Math.random] are exact rationals [Q] (doubles are idealised);
      - the wall clock, timer overshoot, random draws and the network are
        explicit inputs (oracles) of the functions that consult them;
      - [await]-sequenced code is modelled by explicit state passing; one
        task, one [take] and one orchestrator call are followed at a time
        (no interleaving with other tasks of the event loop);
      - in the orchestrator, [scheduler.enqueue(doFetch)] is the request
        itself after an arbitrary delay: the scheduler is open, and
        [scheduledFetch] passes it no cancellation signal. *)

From Stdlib Require Import ZArith QArith Qround Qminmax Lia Lqa List Bool.
From Stdlib Require String Ascii DecimalString.
Import ListNotations String.StringSyntax.
Delimit Scope string_scope with string.

Open Scope Z_scope.

(* ================================================================= *)
(** ** JavaScript values shared by all modules *)

Module Js.

(** Strings are sequences of UTF-16 code units. *)
Definition jsstring := list Z.

(** An ASCII literal as a JavaScript string. *)
Definition str (s : String.string) : jsstring :=
  map (fun a => Z.of_N (Ascii.N_of_ascii a)) (String.list_ascii_of_string s).
Arguments str s%_string.

Definition jslength (s : jsstring) : Z := Z.of_nat (length s).

Definition jsstring_eqb (a b : jsstring) : bool :=
  if list_eq_dec Z.eq_dec a b then true else false.

(** [const clamp = (v, lo, hi) => Math.min(hi, Math.max(lo, v))] *)
Definition clamp (v lo hi : Z) : Z := Z.min hi (Z.max lo v).
Definition clampQ (v lo hi : Q) : Q := Qmin hi (Qmax lo v).

(** [x | 0]: ToInt32 of an integer-valued number. *)
Definition toInt32 (x : Z) : Z := (x + 2147483648) mod 4294967296 - 2147483648.

(** [Math.ceil(a / b)] for integers [a] and positive [b]. *)
Definition ceilDiv (a b : Z) : Z := - ((- a) / b).

(** White space and line terminators, as [trim] and [\s] see them. *)
Definition isJsSpace (c : Z) : bool :=
  ((9 <=? c) && (c <=? 13)) || (c =? 32) || (c =? 0xA0) || (c =? 0x1680) ||
  ((0x2000 <=? c) && (c <=? 0x200A)) || (c =? 0x2028) || (c =? 0x2029) ||
  (c =? 0x202F) || (c =? 0x205F) || (c =? 0x3000) || (c =? 0xFEFF).

Fixpoint trimStart (s : jsstring) : jsstring :=
  match s with
  | c :: s' => if isJsSpace c then trimStart s' else s
  | [] => []
  end.

(** [s.trim()] *)
Definition trim (s : jsstring) : jsstring := rev (trimStart (rev (trimStart s))).

(** A string of ASCII code units, as language tags and provider names are. *)
Definition isAscii (s : jsstring) : bool :=
  forallb (fun c => (0 <=? c) && (c <? 128)) s.

(** [s.toLowerCase()] for a string of ASCII code units: the letters A to Z
    are mapped, everything else is kept. The built-in also maps letters
    outside ASCII, some of them by their context; this definition leaves
    them alone, so it is the built-in on [isAscii] strings only. *)
Definition toLowerCase (s : jsstring) : jsstring :=
  map (fun c => if (65 <=? c) && (c <=? 90) then c + 32 else c) s.

(** [a.startsWith(b)] *)
Fixpoint startsWith (a b : jsstring) : bool :=
  match b, a with
  | [], _ => true
  | y :: b', x :: a' => (x =? y) && startsWith a' b'
  | _ :: _, [] => false
  end.

(** [a || b] on strings: the empty string is falsy. *)
Definition orElse (a b : jsstring) : jsstring :=
  match a with [] => b | _ :: _ => a end.

(** The decimal digits of a non-negative integer, as in a template literal. *)
Definition decimal (n : Z) : jsstring :=
  str (DecimalString.NilZero.string_of_uint (N.to_uint (Z.to_N n))).

End Js.
Import Js.

(* ================================================================= *)
(** ** prompt.js: token estimate and budget splitter *)

Module Prompt.

(** The three code-unit ranges counted as one token each. *)
Definition isCjk (ch : Z) : bool :=
  ((0x4E00 <=? ch) && (ch <=? 0x9FFF)) ||
  ((0x3040 <=? ch) && (ch <=? 0x30FF)) ||
  ((0xAC00 <=? ch) && (ch <=? 0xD7AF)).

(** [estimateTokens]: the loop counts [cjk]; the rest costs a quarter each. *)
Definition estimateTokens (s : jsstring) : Z :=
  let cjk := fold_left (fun cjk ch => if isCjk ch then cjk + 1 else cjk) s 0 in
  let nonCjk := Z.max 0 (jslength s - cjk) in
  cjk + ceilDiv nonCjk 4.

Record Budget := mkBudget {
  maxItems : Z;
  maxChars : Z;
  tokenBudget : Z
}.

(** The local variables of [splitInputsByBudget]. *)
Record SplitState := mkSplit {
  out : list (list jsstring);
  cur : list jsstring;
  curChars : Z;
  curTokens : Z
}.

Definition splitInit : SplitState := mkSplit [] [] 0 0.

(** [flush]: emit the open chunk when it is not empty, then reset. *)
Definition flush (st : SplitState) : SplitState :=
  mkSplit (match cur st with [] => out st | _ :: _ => out st ++ [cur st] end)
          [] 0 0.

(** First test of the loop body: close the open chunk when it is not empty
    and the next input would push it over a ceiling. *)
Definition preCheck (b : Budget) (st : SplitState) (txt : jsstring) : SplitState :=
  let tChars := jslength txt in
  let tTokens := estimateTokens txt in
  let wouldItems := Z.of_nat (length (cur st)) + 1 in
  let wouldChars := curChars st + tChars in
  let wouldTokens := curTokens st + tTokens in
  if (0 <? Z.of_nat (length (cur st))) &&
     ((maxItems b <? wouldItems) || (maxChars b <? wouldChars) ||
      (tokenBudget b <? wouldTokens))
  then flush st else st.

(** [cur.push(txt); curChars += tChars; curTokens += tTokens] *)
Definition append (st : SplitState) (txt : jsstring) : SplitState :=
  mkSplit (out st) (cur st ++ [txt])
          (curChars st + jslength txt) (curTokens st + estimateTokens txt).

(** Second test: close the chunk as soon as a ceiling is met or exceeded. *)
Definition postCheck (b : Budget) (st : SplitState) : SplitState :=
  if (maxItems b <=? Z.of_nat (length (cur st))) ||
     (maxChars b <=? curChars st) || (tokenBudget b <=? curTokens st)
  then flush st else st.

(** One iteration of the [for (const t of inputs)] loop. *)
Definition splitStep (b : Budget) (st : SplitState) (txt : jsstring) : SplitState :=
  postCheck b (append (preCheck b st txt) txt).

(** The loop state after the inputs [pre] have been processed. *)
Definition splitLoop (b : Budget) (pre : list jsstring) : SplitState :=
  fold_left (splitStep b) pre splitInit.

Definition splitInputsByBudget (inputs : list jsstring) (b : Budget)
  : list (list jsstring) :=
  out (flush (splitLoop b inputs)).

(** The class [[A-Za-z0-9\u4E00-\u9FFF\u3040-\u30FF\uAC00-\uD7AF]]. *)
Definition isLetterLike (c : Z) : bool :=
  ((65 <=? c) && (c <=? 90)) || ((97 <=? c) && (c <=? 122)) ||
  ((48 <=? c) && (c <=? 57)) || isCjk c.

(** [isSkippableSegment(text, minLen)] *)
Definition isSkippableSegment (text : jsstring) (minLen : Z) : bool :=
  let s := trim text in
  if jslength s <? Z.max 0 (toInt32 minLen) then true
  else
    let letters := Z.of_nat (length (filter isLetterLike s)) in
    letters <=? 0.

(** Totals of a chunk, as the ceilings measure them. *)
Definition chunkChars (c : list jsstring) : Z :=
  fold_right (fun t acc => jslength t + acc) 0 c.
Definition chunkTokens (c : list jsstring) : Z :=
  fold_right (fun t acc => estimateTokens t + acc) 0 c.

(** A chunk within all three ceilings. *)
Definition fits (b : Budget) (c : list jsstring) : Prop :=
  Z.of_nat (length c) <= maxItems b /\
  chunkChars c <= maxChars b /\
  chunkTokens c <= tokenBudget b.

(** A chunk strictly below all three ceilings. *)
Definition under (b : Budget) (c : list jsstring) : Prop :=
  Z.of_nat (length c) < maxItems b /\
  chunkChars c < maxChars b /\
  chunkTokens c < tokenBudget b.

(** What every emitted chunk satisfies: it is not empty, it respects the
    ceilings unless it is a singleton, and none of its proper prefixes had
    already met a ceiling. *)
Definition chunk_ok (b : Budget) (c : list jsstring) : Prop :=
  c <> [] /\
  ((1 < length c)%nat -> fits b c) /\
  (forall p q, c = p ++ q -> q <> [] -> under b p).

(** The loop invariant of [splitInputsByBudget] after the inputs [pre]. *)
Record SplitInv (b : Budget) (pre : list jsstring) (st : SplitState) : Prop := {
  inv_flat : concat (out st) ++ cur st = pre;
  inv_out : Forall (chunk_ok b) (out st);
  inv_chars : curChars st = chunkChars (cur st);
  inv_tokens : curTokens st = chunkTokens (cur st);
  inv_under : under b (cur st)
}.

End Prompt.

(* ================================================================= *)
(** ** scheduler.js: token bucket, backoff, retry, scheduler *)

Module Scheduler.

(** *** The runtime: wall clock, timers and [Math.random]

    [overshoot k] is how many milliseconds late the [k]-th timer fires
    (timers never fire early); [random k] is the [k]-th draw of
    [Math.random], a number of the interval [0, 1). *)
Record Env := mkEnv {
  overshoot : nat -> N;
  random : nat -> Q
}.

Record Rt := mkRt {
  now : Z;        (* [Date.now()] *)
  timers : nat;   (* timers elapsed so far *)
  draws : nat     (* random numbers drawn so far *)
}.

(** [ms | 0] on a fractional number truncates toward zero before wrapping. *)
Definition truncQ (q : Q) : Z := if Qle_bool 0 q then Qfloor q else Qceiling q.

(** [sleep(ms)] for an integer [ms]: a timer of [Math.max(0, ms | 0)]. *)
Definition sleepMs (env : Env) (ms : Z) (rt : Rt) : Rt :=
  mkRt (now rt + Z.max 0 (toInt32 ms) + Z.of_N (overshoot env (timers rt)))
       (S (timers rt)) (draws rt).

Definition sleep (env : Env) (ms : Q) (rt : Rt) : Rt := sleepMs env (truncQ ms) rt.

Definition mathRandom (env : Env) (rt : Rt) : Q * Rt :=
  (random env (draws rt), mkRt (now rt) (timers rt) (S (draws rt))).

(** *** class TokenBucket *)
Record TokenBucket := mkBucket {
  rps : Q;
  capacity : Z;
  tokens : Q;
  lastRefill : Z
}.

(** [setRate(rps, burst)]; [old] is [this.tokens], absent in the constructor. *)
Definition setRate (r burst : Q) (old : option Q) (lastRefill0 : Z) : TokenBucket :=
  let cap := Z.max 1 (Qfloor burst) in
  mkBucket (Qmax (1 # 1000) r) cap
           (Qmin (match old with Some t => t | None => inject_Z cap end) (inject_Z cap))
           lastRefill0.

(** [new TokenBucket({ rps, burst })] at time [t]. *)
Definition newTokenBucket (r burst : Q) (t : Z) : TokenBucket :=
  let b := setRate r burst None t in
  mkBucket (rps b) (capacity b) (inject_Z (capacity b)) t.

Definition Qltb (a b : Q) : bool := negb (Qle_bool b a).

(** [_refill()] *)
Definition refill (t : Z) (b : TokenBucket) : TokenBucket :=
  let elapsed := (inject_Z (t - lastRefill b) / 1000)%Q in
  if Qltb 0 elapsed
  then mkBucket (rps b) (capacity b)
                (clampQ (tokens b + elapsed * rps b)%Q 0 (inject_Z (capacity b))) t
  else b.

(** The [for (;;)] loop of [take]; [fuel] bounds the number of iterations. *)
Fixpoint takeLoop (fuel : nat) (env : Env) (n : Q) (b : TokenBucket) (rt : Rt)
  : option (TokenBucket * Rt) :=
  match fuel with
  | O => None
  | S fuel' =>
      let b1 := refill (now rt) b in
      if Qle_bool n (tokens b1)
      then Some (mkBucket (rps b1) (capacity b1) (tokens b1 - n)%Q (lastRefill b1), rt)
      else
        let deficit := (n - tokens b1)%Q in
        let waitSec := (deficit / rps b1)%Q in
        let waitMs := clampQ (waitSec * 1000)%Q 10 2000 in
        takeLoop fuel' env n b1 (sleep env waitMs rt)
  end.

(** [take(n)]: [None] when the loop has not resolved within [fuel] rounds. *)
Definition take (fuel : nat) (env : Env) (n : Q) (b : TokenBucket) (rt : Rt)
  : option (TokenBucket * Rt) :=
  takeLoop fuel env (Qmax (1 # 1000) n) b rt.

(** *** Backoff *)

(** [x | 0] on a number that may have a fractional part. *)
Definition toInt32Q (x : Q) : Z := toInt32 (truncQ x).

(** [randBetween(a, b)] with the draw [u] of [Math.random]; the bounds are
    numbers, whole or not. *)
Definition randBetween (u : Q) (a b : Q) : Z :=
  let lo := toInt32Q (Qmin a b) in
  let hi := toInt32Q (Qmax a b) in
  lo + Qfloor (u * inject_Z (hi - lo + 1))%Q.

(** [computeBackoffDelay(attempt, baseMs, maxMs, jitter)] for an attempt
    counter and two numbers of milliseconds, whole or not; [u1] and [u2] are
    the two draws it makes when [jitter] is set. Numbers are exact here:
    the power of two is finite in the code up to exponent 1023. *)
Definition computeBackoffDelay (attempt : Z) (baseMs maxMs : Q) (jitter : bool)
           (u1 u2 : Q) : Q :=
  let expo := (baseMs * inject_Z (2 ^ (Z.max 0 (attempt - 1))))%Q in
  let d := Qmin expo maxMs in
  if jitter then
    let jitterPct := randBetween u1 10 30 in
    let delta := Qfloor (d * inject_Z jitterPct / 100)%Q in
    inject_Z (randBetween u2 (d - inject_Z delta)%Q (d + inject_Z delta)%Q)
  else d.

(** *** Errors and the default retriable classifier *)

(** A thrown error object: [status] is [Some] when [typeof e.status] is
    ['number']; an absent [message] is the empty string. *)
Record JsError := mkError {
  name : jsstring;
  message : jsstring;
  status : option Z
}.

(** [new AbortError()] *)
Definition AbortError : JsError := mkError (str "AbortError") (str "Aborted") None.

Inductive Outcome (A : Type) : Type :=
| Returned (a : A)
| Thrown (e : JsError).
Arguments Returned {A} a.
Arguments Thrown {A} e.

(** Character classes of the regular expressions: [\w], [\d], [\s]. *)
Definition isWordChar (c : Z) : bool :=
  ((65 <=? c) && (c <=? 90)) || ((97 <=? c) && (c <=? 122)) ||
  ((48 <=? c) && (c <=? 57)) || (c =? 95).

Definition isDigit (c : Z) : bool := (48 <=? c) && (c <=? 57).

Definition isSpace (c : Z) : bool := isJsSpace c.

(** [\b] next to a word character: the neighbour [c] is absent or not [\w]. *)
Definition boundary (c : option Z) : bool :=
  match c with None => true | Some x => negb (isWordChar x) end.

Fixpoint skipSpaces (s : jsstring) : jsstring :=
  match s with
  | c :: s' => if isSpace c then skipSpaces s' else s
  | [] => []
  end.

(** One attempt of [/\bHTTP\s+(\d{3})\b/] at the position whose preceding
    code unit is [prev] and whose remaining input is [s]: [Number(m[1])]. *)
Definition matchHttpAt (prev : option Z) (s : jsstring) : option Z :=
  match s with
  | 72 :: 84 :: 84 :: 80 :: sp :: rest =>
      if boundary prev && isSpace sp then
        match skipSpaces rest with
        | d1 :: d2 :: d3 :: post =>
            if isDigit d1 && isDigit d2 && isDigit d3 && boundary (hd_error post)
            then Some (100 * (d1 - 48) + 10 * (d2 - 48) + (d3 - 48))
            else None
        | _ => None
        end
      else None
  | _ => None
  end.

(** [String.prototype.match]: the leftmost position where the attempt succeeds. *)
Fixpoint searchHttp (prev : option Z) (s : jsstring) : option Z :=
  match matchHttpAt prev s with
  | Some code => Some code
  | None =>
      match s with
      | [] => None
      | c :: s' => searchHttp (Some c) s'
      end
  end.

(** [extractStatus(e)] for an error object [e]. *)
Definition extractStatus (e : JsError) : Z :=
  match status e with
  | Some st => st
  | None =>
      match searchHttp None (message e) with
      | Some code => code
      | None => 0
      end
  end.

(** Case folding of the [i] flag: only ASCII letters fold onto ASCII letters. *)
Definition foldCase (c : Z) : Z := if (65 <=? c) && (c <=? 90) then c + 32 else c.

Fixpoint prefixCI (pat s : jsstring) : bool :=
  match pat, s with
  | [], _ => true
  | p :: pat', c :: s' => (foldCase p =? foldCase c) && prefixCI pat' s'
  | _ :: _, [] => false
  end.

Fixpoint containsCI (pat s : jsstring) : bool :=
  prefixCI pat s ||
  match s with
  | [] => false
  | _ :: s' => containsCI pat s'
  end.

(** [String(e.message || e)]: with an empty message, [Error.prototype.toString]
    yields the name. *)
Definition messageOrString (e : JsError) : jsstring :=
  match message e with
  | [] => name e
  | _ :: _ => message e
  end.

(** [isNetworkError(e)] *)
Definition isNetworkError (e : JsError) : bool :=
  jsstring_eqb (name e) (str "TypeError") ||
  (containsCI (str "NetworkError") (messageOrString e) ||
   containsCI (str "Failed to fetch") (messageOrString e) ||
   containsCI (str "net::ERR") (messageOrString e)).

(** The code unit before a position: the last one of the text to its left. *)
Definition lastOpt (pre : jsstring) : option Z := hd_error (rev pre).

(** The code unit before the position reached after the text [p], when the
    one before [p] is [prev]. *)
Definition lastFrom (prev : option Z) (p : jsstring) : option Z :=
  match lastOpt p with Some c => Some c | None => prev end.

(** What a match of [/\bHTTP\s+(\d{3})\b/] at offset [i] of [msg] is: the
    word [HTTP] at a word boundary, one or more white-space code units,
    exactly three digits, and a word boundary after them. *)
Definition HttpCodeAt (msg : jsstring) (i : nat) (code : Z) : Prop :=
  exists pre ws d1 d2 d3 post,
    msg = pre ++ str "HTTP" ++ ws ++ [d1; d2; d3] ++ post /\
    length pre = i /\
    boundary (lastOpt pre) = true /\
    ws <> [] /\ Forall (fun c => isSpace c = true) ws /\
    isDigit d1 = true /\ isDigit d2 = true /\ isDigit d3 = true /\
    boundary (hd_error post) = true /\
    code = 100 * (d1 - 48) + 10 * (d2 - 48) + (d3 - 48).

(** [retryOn.includes(status)] *)
Definition includes (x : Z) (l : list Z) : bool := existsb (Z.eqb x) l.

(** The classifier [withRetry] applies when no [isRetriable] option is given. *)
Definition defaultRetriable (retryOn : list Z) (e : JsError) : bool :=
  isNetworkError e || includes (extractStatus e) retryOn.

Definition defaultRetryOn : list Z := [429; 500; 502; 503; 504].

(** *** withRetry *)

Record RetryOpts := mkRetryOpts {
  maxRetries : nat;
  baseDelayMs : Q;
  maxDelayMs : Q;
  jitter : bool;
  retryOn : list Z;
  isRetriable : option (JsError -> nat -> bool)
}.

(** The argument of the [onRetry] hook. *)
Record RetryInfo := mkRetryInfo {
  ri_attempt : nat;
  ri_delay : Q;
  ri_status : Z;
  ri_error : JsError
}.

(** [computeBackoffDelay] with its draws taken from the runtime. *)
Definition backoffDelay (env : Env) (attempt : nat) (opts : RetryOpts) (rt : Rt)
  : Q * Rt :=
  if jitter opts then
    let (u1, rt1) := mathRandom env rt in
    let (u2, rt2) := mathRandom env rt1 in
    (computeBackoffDelay (Z.of_nat attempt) (baseDelayMs opts) (maxDelayMs opts)
                         true u1 u2, rt2)
  else
    (computeBackoffDelay (Z.of_nat attempt) (baseDelayMs opts) (maxDelayMs opts)
                         false 0 0, rt).

Section WithRetry.
(** The operation runs on the runtime and on a caller's state [X]. *)
Context {X A : Type}.
Variable env : Env.
Variable fn : nat -> Rt * X -> Outcome A * (Rt * X).
Variable opts : RetryOpts.
Variable onRetry : RetryInfo -> Rt * X -> Rt * X.

(** The [for (;;)] loop; [left] is [maxRetries - attempt], so that
    [attempt >= maxRetries] reads [left = 0]. *)
Fixpoint retryLoop (left attempt : nat) (st : Rt * X) : Outcome A * (Rt * X) :=
  match fn attempt st with
  | (Returned v, st1) => (Returned v, st1)
  | (Thrown e, st1) =>
      let code := extractStatus e in
      let retriable :=
        match isRetriable opts with
        | Some f => f e attempt
        | None => isNetworkError e || includes code (retryOn opts)
        end in
      match left with
      | O => (Thrown e, st1)
      | S left' =>
          if negb retriable then (Thrown e, st1)
          else
            let attempt' := S attempt in
            let (delay, rt2) := backoffDelay env attempt' opts (fst st1) in
            let st3 := onRetry (mkRetryInfo attempt' delay code e) (rt2, snd st1) in
            retryLoop left' attempt' (sleep env delay (fst st3), snd st3)
      end
  end.

Definition withRetry (st : Rt * X) : Outcome A * (Rt * X) :=
  retryLoop (maxRetries opts) 0 st.
End WithRetry.

(** [scheduledFetch(scheduler, doFetch, retryOpts)]: [enqueue] stands for
    [scheduler.enqueue(doFetch)] and [throttle] for
    [scheduler.throttleTemporarily]; the window is the default 60000 ms. *)
Definition scheduledFetch {X A : Type} (env : Env)
           (enqueue : Rt * X -> Outcome A * (Rt * X))
           (retryOpts : RetryOpts)
           (throttle : Z -> Rt * X -> Rt * X)
  : Rt * X -> Outcome A * (Rt * X) :=
  withRetry env (fun _ => enqueue) retryOpts
    (fun info st =>
       let st0 := ri_status info in
       if (st0 =? 429) || ((500 <=? st0) && (st0 <=? 504))
       then throttle 60000 st else st).

(** *** createScheduler *)

(** The scheduler's variables; the queue is left out: the tasks below run
    with nothing else queued, so the trailing [pump()] starts nothing. *)
Record Sched := mkSched {
  maxConcurrent : Z;
  jitterMin : Q;
  jitterMax : Q;
  limiter : TokenBucket;
  running : Z;
  tempThrottleUntil : Z;
  closed : bool
}.

Definition withRunning (s : Sched) (r : Z) : Sched :=
  mkSched (maxConcurrent s) (jitterMin s) (jitterMax s) (limiter s) r
          (tempThrottleUntil s) (closed s).

Definition withLimiter (s : Sched) (l : TokenBucket) : Sched :=
  mkSched (maxConcurrent s) (jitterMin s) (jitterMax s) l (running s)
          (tempThrottleUntil s) (closed s).

(** [throttleTemporarily(ms)] *)
Definition throttleTemporarily (ms : Z) (s : Sched) (rt : Rt) : Sched :=
  mkSched (maxConcurrent s) (jitterMin s) (jitterMax s) (limiter s) (running s)
          (now rt + Z.max 0 (toInt32 ms)) (closed s).

(** [getJitterDelay()] *)
Definition getJitterDelay (env : Env) (s : Sched) (rt : Rt) : Z * Rt :=
  if Qle_bool (jitterMax s) 0 then (0, rt)
  else let (u, rt') := mathRandom env rt in
       (randBetween u (jitterMin s) (jitterMax s), rt').

(** The guard of [pump]: a queued task may start. *)
Definition slotFree (s : Sched) : bool := running s <? maxConcurrent s.

(** A queued item: [abortedAt] is the time its signal fires ([None] without
    signal); [task t] is the outcome of the body started at [t] and how long
    it runs. *)
Record Item (A : Type) := mkItem {
  abortedAt : option Z;
  task : Z -> Outcome A * N
}.
Arguments mkItem {A} abortedAt task.
Arguments abortedAt {A} i.
Arguments task {A} i t.

(** [item.signal?.aborted] read at time [t]. *)
Definition signalAborted {A} (item : Item A) (t : Z) : bool :=
  match abortedAt item with
  | Some a => a <=? t
  | None => false
  end.

(** What [runOne] does, in order; [EvSleep] records the value of [running]
    while the task is suspended on a timer. *)
Inductive Event :=
| EvStart (t : Z) (run : Z)
| EvSleep (from to : Z) (run : Z)
| EvToken (t : Z)
| EvBody (t : Z)
| EvResolve (t : Z)
| EvReject (t : Z) (e : JsError)
| EvFinish (t : Z) (run : Z).

(** A suspension on a timer during which [running] is [run]. *)
Definition isSleepEvent (run : Z) (e : Event) : Prop :=
  exists a b, e = EvSleep a b run.

(** The waits at the head of [runOne]: the throttle wait, then the jitter. *)
Definition startDelays (env : Env) (s : Sched) (rt : Rt) : Rt * list Event :=
  let t0 := now rt in
  let '(rt1, ev1) :=
    if t0 <? tempThrottleUntil s then
      let wait := clamp (tempThrottleUntil s - t0) 50 2000 in
      let rt' := sleepMs env wait rt in
      (rt', [EvSleep t0 (now rt') (running s)])
    else (rt, []) in
  let '(jit, rt2) := getJitterDelay env s rt1 in
  if jit =? 0 then (rt2, ev1)
  else let rt3 := sleepMs env jit rt2 in
       (rt3, ev1 ++ [EvSleep (now rt2) (now rt3) (running s)]).

(** [runOne(item)]; [None] when [limiter.take(1)] has not resolved within
    [fuel] rounds. *)
Definition runOne {A} (fuel : nat) (env : Env) (item : Item A) (s : Sched) (rt : Rt)
  : option (Outcome A * Sched * Rt * list Event) :=
  let s1 := withRunning s (running s + 1) in
  let '(rt3, evw) := startDelays env s1 rt in
  let head := EvStart (now rt) (running s1) :: evw in
  if signalAborted item (now rt3) then
    Some (Thrown AbortError, withRunning s1 (running s1 - 1), rt3,
          head ++ [EvReject (now rt3) AbortError;
                   EvFinish (now rt3) (running s1 - 1)])
  else
    match take fuel env 1 (limiter s1) rt3 with
    | None => None
    | Some (lim, rt4) =>
        let s2 := withLimiter s1 lim in
        let '(res, dur) := task item (now rt4) in
        let rt5 := mkRt (now rt4 + Z.of_N dur) (timers rt4) (draws rt4) in
        let settle := match res with
                      | Returned _ => EvResolve (now rt5)
                      | Thrown e => EvReject (now rt5) e
                      end in
        Some (res, withRunning s2 (running s2 - 1), rt5,
              head ++ [EvToken (now rt4); EvBody (now rt4); settle;
                       EvFinish (now rt5) (running s2 - 1)])
    end.

(** The classification [withRetry] applies to the error of an attempt. *)
Definition classify (opts : RetryOpts) (e : JsError) (attempt : nat) : bool :=
  match isRetriable opts with
  | Some f => f e attempt
  | None => isNetworkError e || includes (extractStatus e) (retryOn opts)
  end.

(** The statuses on which [scheduledFetch] throttles the scheduler. *)
Definition throttlesOn (code : Z) : bool :=
  (code =? 429) || ((500 <=? code) && (code <=? 504)).

(** *** Configuration of the scheduler *)

(** [config.jitterMs]: absent, a number, or an array whose first two
    elements may be missing. *)
Inductive JitterMs :=
| JitterAbsent
| JitterNumber (n : Q)
| JitterArray (lo hi : option Q).

(** The argument of [createScheduler] and of [updateConfig]. *)
Record SchedConfig := mkSchedConfig {
  cfgMaxConcurrent : option Z;
  cfgJitterMs : JitterMs;
  cfgRps : option Q;
  cfgBurst : option Q
}.

(** [x ?? d] *)
Definition orDefault {A : Type} (x : option A) (d : A) : A :=
  match x with Some v => v | None => d end.

(** The variables [createScheduler(config)] sets up at time [t]. *)
Definition createScheduler (config : SchedConfig) (t : Z) : Sched :=
  let maxC := Z.max 1 (orDefault (cfgMaxConcurrent config) 2) in
  let jit :=
    match cfgJitterMs config with
    | JitterAbsent => (50, 200)%Q
    | JitterNumber n => (0, Qmax 0 n)%Q
    | JitterArray a b =>
        let jmin := Qmax 0 (orDefault a 0%Q) in
        (jmin, Qmax jmin (orDefault b jmin))
    end in
  mkSched maxC (fst jit) (snd jit)
          (newTokenBucket (orDefault (cfgRps config) 1%Q)
                          (orDefault (cfgBurst config) 2%Q) t)
          0 0 false.

(** [updateConfig(next)] *)
Definition updateConfig (next : SchedConfig) (s : Sched) : Sched :=
  let maxC := Z.max 1 (orDefault (cfgMaxConcurrent next) (maxConcurrent s)) in
  let r := orDefault (cfgRps next) (rps (limiter s)) in
  let burst := orDefault (cfgBurst next) (inject_Z (capacity (limiter s))) in
  let lim := setRate r burst (Some (tokens (limiter s))) (lastRefill (limiter s)) in
  let jit :=
    match cfgJitterMs next with
    | JitterAbsent => (jitterMin s, jitterMax s)
    | JitterNumber n => (0, Qmax 0 n)%Q
    | JitterArray a b =>
        let jmin := Qmax 0 (orDefault a (jitterMin s)) in
        (jmin, Qmax jmin (orDefault b (jitterMax s)))
    end in
  mkSched maxC (fst jit) (snd jit) lim (running s) (tempThrottleUntil s)
          (closed s).

(** What every scheduler configuration satisfies. *)
Definition configOk (s : Sched) : Prop :=
  1 <= maxConcurrent s /\
  (0 <= jitterMin s <= jitterMax s)%Q /\
  (1 # 1000 <= rps (limiter s))%Q /\
  1 <= capacity (limiter s) /\
  (tokens (limiter s) <= inject_Z (capacity (limiter s)))%Q.

(** *** The queue and the concurrency gate

    The synchronous bookkeeping of [enqueue], [pump], [close] and of the
    [finally] block of [runOne]. A task is a number; starting one is the
    synchronous head of [runOne] ([running += 1]), its completion the
    [finally] block ([running -= 1; pump()]). [poolStarted] and
    [poolRejected] log the tasks started and the tasks rejected with
    'Scheduler closed', in order. *)
Record Pool := mkPool {
  poolMax : Z;
  poolRunning : Z;
  poolQueue : list nat;
  poolClosed : bool;
  poolStarted : list nat;
  poolRejected : list nat
}.

(** The [while] loop of [pump]. *)
Fixpoint pumpLoop (maxC run : Z) (q started : list nat)
  : Z * list nat * list nat :=
  match q with
  | [] => (run, [], started)
  | item :: rest =>
      if run <? maxC then pumpLoop maxC (run + 1) rest (started ++ [item])
      else (run, q, started)
  end.

(** [pump()] *)
Definition pump (p : Pool) : Pool :=
  if poolClosed p then p
  else
    let '(run, q, started) :=
      pumpLoop (poolMax p) (poolRunning p) (poolQueue p) (poolStarted p) in
    mkPool (poolMax p) run q (poolClosed p) started (poolRejected p).

(** [enqueue(task)] *)
Definition enqueue (item : nat) (p : Pool) : Pool :=
  if poolClosed p
  then mkPool (poolMax p) (poolRunning p) (poolQueue p) (poolClosed p)
              (poolStarted p) (poolRejected p ++ [item])
  else pump (mkPool (poolMax p) (poolRunning p) (poolQueue p ++ [item])
                    (poolClosed p) (poolStarted p) (poolRejected p)).

(** The [finally] block of [runOne]. *)
Definition finish (p : Pool) : Pool :=
  pump (mkPool (poolMax p) (poolRunning p - 1) (poolQueue p) (poolClosed p)
               (poolStarted p) (poolRejected p)).

(** [close()] *)
Definition close (p : Pool) : Pool :=
  mkPool (poolMax p) (poolRunning p) [] true (poolStarted p)
         (poolRejected p ++ poolQueue p).

(** What happens to a scheduler: a task is submitted, a running task
    completes, the scheduler is closed. *)
Inductive PoolOp :=
| OpEnqueue (item : nat)
| OpFinish
| OpClose.

(** A completion needs a running task. *)
Definition poolStep (p : Pool) (op : PoolOp) : Pool :=
  match op with
  | OpEnqueue item => enqueue item p
  | OpFinish => if 0 <? poolRunning p then finish p else p
  | OpClose => close p
  end.

Definition runPool (ops : list PoolOp) (p : Pool) : Pool :=
  fold_left poolStep ops p.

(** A scheduler just created, with [maxC] slots. *)
Definition newPool (maxC : Z) : Pool := mkPool maxC 0 [] false [] [].

(** The tasks submitted by [ops], in order. *)
Definition submitted (ops : list PoolOp) : list nat :=
  flat_map (fun op => match op with OpEnqueue item => [item] | _ => [] end) ops.

(** What holds of a scheduler after any history. *)
Record PoolInv (maxC : Z) (ops : list PoolOp) (p : Pool) : Prop := {
  pi_max : poolMax p = maxC;
  pi_running : 0 <= poolRunning p <= maxC;
  pi_fate : poolStarted p ++ poolQueue p ++ poolRejected p = submitted ops;
  pi_busy : poolClosed p = false -> poolQueue p <> [] -> poolRunning p = maxC;
  pi_closed : poolClosed p = true -> poolQueue p = [];
  pi_open : poolClosed p = false -> poolRejected p = []
}.

End Scheduler.

(* ================================================================= *)
(** ** cache.js: LRU cache with TTL, FNV-1a hash, cache keys *)

Module Cache.

(** The values the cache is used with: [undefined] and strings. *)
Inductive JsVal :=
| Undefined
| Str (s : jsstring).

Definition isUndefined (x : JsVal) : bool :=
  match x with Undefined => true | Str _ => false end.

(** An entry [{ v, exp }]. *)
Record Entry := mkEntry {
  v : JsVal;
  exp : Z
}.

(** A JavaScript [Map] with string keys: the entries in insertion order. *)
Definition JsMap := list (jsstring * Entry).

Fixpoint mapGet (key : jsstring) (m : JsMap) : option Entry :=
  match m with
  | [] => None
  | (k, e) :: m' => if jsstring_eqb k key then Some e else mapGet key m'
  end.

Fixpoint mapDelete (key : jsstring) (m : JsMap) : JsMap :=
  match m with
  | [] => []
  | (k, e) :: m' => if jsstring_eqb k key then m' else (k, e) :: mapDelete key m'
  end.

(** [map.set]: an existing key keeps its place, a new one goes last. *)
Fixpoint mapSet (key : jsstring) (e : Entry) (m : JsMap) : JsMap :=
  match m with
  | [] => [(key, e)]
  | (k, e0) :: m' =>
      if jsstring_eqb k key then (k, e) :: m' else (k, e0) :: mapSet key e m'
  end.

(** The keys of a map, in insertion order; a [Map] holds each key once. *)
Definition keysOf (m : JsMap) : list jsstring := List.map fst m.

Record LRUCache := mkCache {
  size : Z;
  ttlMs : Z;
  enabled : bool;
  map : JsMap
}.

(** [new LRUCache({ size, ttlMs, enabled })] *)
Definition newLRUCache (size0 ttlMs0 : Z) (enabled0 : bool) : LRUCache :=
  mkCache (Z.max 1 (if size0 =? 0 then 500 else size0)) (Z.max 0 ttlMs0)
          enabled0 [].

(** [_isExpired(entry)] for an entry that exists, at time [t]. *)
Definition isExpired (t : Z) (e : Entry) : bool :=
  if (exp e =? 0) || (exp e <=? 0) then false else exp e <? t.

(** [_touch(key, entry)] *)
Definition touch (key : jsstring) (e : Entry) (m : JsMap) : JsMap :=
  mapSet key e (mapDelete key m).

(** [_evictIfNeeded()]: drop first keys while there are more than [size]. *)
Fixpoint evictIfNeeded (size0 : Z) (m : JsMap) : JsMap :=
  match m with
  | [] => []
  | _ :: rest =>
      if size0 <? Z.of_nat (length m) then evictIfNeeded size0 rest else m
  end.

Definition withMap (c : LRUCache) (m : JsMap) : LRUCache :=
  mkCache (size c) (ttlMs c) (enabled c) m.

(** [get(key)] at time [t]: the value and the cache afterwards. *)
Definition get (key : jsstring) (t : Z) (c : LRUCache) : JsVal * LRUCache :=
  if negb (enabled c) then (Undefined, c)
  else match mapGet key (map c) with
       | None => (Undefined, c)
       | Some e =>
           if isExpired t e then (Undefined, withMap c (mapDelete key (map c)))
           else (v e, withMap c (touch key e (map c)))
       end.

(** [set(key, value, ttlMs)] at time [t]; [ttl] is [None] when omitted. *)
Definition set (key : jsstring) (value : JsVal) (ttl : option Z) (t : Z)
           (c : LRUCache) : LRUCache :=
  if negb (enabled c) then c
  else
    let ttl0 := match ttl with Some x => x | None => ttlMs c end in
    let exp0 := if 0 <? ttl0 then t + ttl0 else 0 in
    let e := mkEntry value exp0 in
    withMap c (evictIfNeeded (size c) (touch key e (mapSet key e (map c)))).

(** [has(key)]: [this.get(key) !== undefined]. *)
Definition has (key : jsstring) (t : Z) (c : LRUCache) : bool * LRUCache :=
  let (x, c') := get key t c in (negb (isUndefined x), c').

(** [delete(key)] *)
Definition delete (key : jsstring) (c : LRUCache) : LRUCache :=
  withMap c (mapDelete key (map c)).

(** [clear()] *)
Definition clear (c : LRUCache) : LRUCache := withMap c [].

(** [updateOptions({ size, ttlMs, enabled })]; a field is [None] when it is
    absent or of another type. The numbers may have a fractional part:
    [size > 0] is tested before [Math.floor], so a size between 0 and 1 is
    accepted and stored as 0. *)
Definition updateOptions (size0 ttlMs0 : option Q) (enabled0 : option bool)
           (c : LRUCache) : LRUCache :=
  let sz := match size0 with
            | Some n => if negb (Qle_bool n 0) then Qfloor n else size c
            | None => size c
            end in
  let ttl := match ttlMs0 with
             | Some n => if Qle_bool 0 n then Qfloor n else ttlMs c
             | None => ttlMs c
             end in
  let en := match enabled0 with Some b => b | None => enabled c end in
  mkCache sz ttl en (evictIfNeeded sz (map c)).

(** The expiry time [set] computes at time [t]. *)
Definition expiryOf (ttl : option Z) (t : Z) (c : LRUCache) : Z :=
  let ttl0 := match ttl with Some x => x | None => ttlMs c end in
  if 0 <? ttl0 then t + ttl0 else 0.

(** A cache as the class keeps it: every key once, room for one entry. *)
Definition cacheOk (c : LRUCache) : Prop :=
  NoDup (keysOf (map c)) /\ 1 <= size c.

(** The calls a client makes on a cache, each with the clock reading it
    sees. *)
Inductive Op :=
| OpGet (key : jsstring) (t : Z)
| OpSet (key : jsstring) (value : JsVal) (ttl : option Z) (t : Z)
| OpHas (key : jsstring) (t : Z)
| OpDelete (key : jsstring)
| OpClear
| OpUpdate (size0 ttlMs0 : option Q) (enabled0 : option bool).

Definition applyOp (c : LRUCache) (o : Op) : LRUCache :=
  match o with
  | OpGet key t => snd (get key t c)
  | OpSet key value ttl t => set key value ttl t c
  | OpHas key t => snd (has key t c)
  | OpDelete key => delete key c
  | OpClear => clear c
  | OpUpdate size0 ttlMs0 enabled0 => updateOptions size0 ttlMs0 enabled0 c
  end.

Definition applyOps (ops : list Op) (c : LRUCache) : LRUCache :=
  fold_left applyOp ops c.

(** Every key once, and no more entries than [size]. *)
Definition cacheFits (c : LRUCache) : Prop :=
  cacheOk c /\ Z.of_nat (length (map c)) <= size c.

(** The same without room for an entry: [size] may be 0. *)
Definition cacheBounded (c : LRUCache) : Prop :=
  NoDup (keysOf (map c)) /\ Z.of_nat (length (map c)) <= size c /\ 0 <= size c.

(** A call that leaves [size] at 1 or more when it was: every call but an
    [updateOptions] whose size lies strictly between 0 and 1. *)
Definition keepsRoom (o : Op) : bool :=
  match o with
  | OpUpdate (Some n) _ _ => Qle_bool n 0 || Qle_bool 1 n
  | _ => true
  end.

(** The characters of [toString(16)]. *)
Definition isLowerHex (ch : Z) : bool :=
  ((48 <=? ch) && (ch <=? 57)) || ((97 <=? ch) && (ch <=? 102)).

(** [Math.imul(a, b)] *)
Definition imul (a b : Z) : Z := toInt32 (toInt32 a * toInt32 b).

(** [x >>> 0] *)
Definition toUint32 (x : Z) : Z := x mod 4294967296.

(** The loop of [fnv1a32]: the 32-bit hash as a number. *)
Definition fnv1a32_hash (s : jsstring) : Z :=
  fold_left
    (fun h ch => toUint32 (imul (Z.lxor (toInt32 h) (toInt32 ch)) 0x01000193))
    s 0x811c9dc5.

Definition hexDigit (d : Z) : Z := if d <? 10 then 48 + d else 87 + d.

(** [(h >>> 0).toString(16).padStart(8, '0')] for [0 <= h < 2^32]. *)
Definition hex8 (h : Z) : jsstring :=
  List.map (fun i => hexDigit ((h / 16 ^ i) mod 16)) [7; 6; 5; 4; 3; 2; 1; 0].

Definition fnv1a32 (s : jsstring) : jsstring := hex8 (toUint32 (fnv1a32_hash s)).

(** The argument of [makeCacheKey], every field present. *)
Record KeyParts := mkKeyParts {
  kp_provider : jsstring;
  kp_model : jsstring;
  kp_sourceLang : jsstring;
  kp_targetLang : jsstring;
  kp_text : jsstring
}.

Definition makeCacheKey (p : KeyParts) : jsstring :=
  str "v1|" ++ toLowerCase (trim (kp_provider p)) ++ str "|" ++
  trim (kp_model p) ++ str "|" ++ trim (kp_sourceLang p) ++ str "|" ++
  trim (kp_targetLang p) ++ str "|" ++ fnv1a32 (kp_text p).

End Cache.

(* ================================================================= *)
(** ** Maps keyed by strings *)

(** A JavaScript [Map] with string keys, in insertion order. *)
Module MapOf.
Section Ops.
Context {V : Type}.

Definition t : Type := list (jsstring * V).

(** [m.get(k)] *)
Fixpoint get (k : jsstring) (m : t) : option V :=
  match m with
  | [] => None
  | (k0, v) :: m' => if jsstring_eqb k0 k then Some v else get k m'
  end.

(** [m.set(k, v)]; also the effect of mutating in place the array stored
    under [k]. *)
Fixpoint put (k : jsstring) (v : V) (m : t) : t :=
  match m with
  | [] => [(k, v)]
  | (k0, v0) :: m' =>
      if jsstring_eqb k0 k then (k0, v) :: m' else (k0, v0) :: put k v m'
  end.

(** [m.delete(k)] *)
Fixpoint delete (k : jsstring) (m : t) : t :=
  match m with
  | [] => []
  | (k0, v0) :: m' =>
      if jsstring_eqb k0 k then m' else (k0, v0) :: delete k m'
  end.

Definition keys (m : t) : list jsstring := List.map fst m.

End Ops.
Arguments t V : clear implicits.
End MapOf.

(* ================================================================= *)
(** ** background.js: the translation orchestrator *)

Module Background.
Import Scheduler Prompt.

(** The merged configuration ([deepMerge(DEFAULT_CONFIG, stored)]), with the
    fields the orchestrator reads. *)
Record Config := mkConfig {
  providerType : jsstring;
  providerModel : jsstring;
  providerEndpoint : jsstring;
  providerApiKey : jsstring;
  retryMaxRetries : nat;
  retryBaseDelayMs : Q;
  retryMaxDelayMs : Q;
  retryJitter : bool;
  retryRetryOn : list Z;
  batchingEnabled : bool;
  batchingBudget : Budget;
  workflowSourceLang : jsstring;
  workflowTargetLang : jsstring;
  skipIfSourceEqualsTarget : bool;
  minTextLength : Z
}.

(** [params]: an absent language is the empty string. *)
Record Params := mkParams {
  paramSourceLang : jsstring;
  paramTargetLang : jsstring
}.

(** *** The network collaborator *)

(** A request handed to [fetch], by the texts it carries. *)
Inductive Request :=
| ReqBatch (texts : list jsstring)
| ReqSingle (text : jsstring).

(** What comes back: [fetch] rejects (transport failure, abort), or the
    status is not ok, or the body is read; [Payload None] is a body without
    the expected content. *)
Inductive Response (A : Type) : Type :=
| NetFail (e : JsError)
| Http (status : Z) (body : jsstring)
| Payload (p : option A).
Arguments NetFail {A} e.
Arguments Http {A} status body.
Arguments Payload {A} p.

(** The collaborator answers the [k]-th request of the run; [latency k] is
    the time from [scheduler.enqueue] to the end of that request. *)
Record Net := mkNet {
  respondBatch : list jsstring -> nat -> Response (list jsstring);
  respondSingle : jsstring -> nat -> Response jsstring;
  latency : nat -> N
}.

(** *** State of a run *)

(** [cacheInstance], the scheduler's throttle deadline, and two logs: the
    requests issued and the calls of [cacheInstance.set]. *)
Record World := mkWorld {
  cache : Cache.LRUCache;
  calls : list Request;
  writes : list (jsstring * Cache.JsVal);
  throttleUntil : Z
}.

Definition State : Type := Rt * World.

(** Asynchronous code that may throw. *)
Definition M (A : Type) : Type := State -> Outcome A * State.

Definition ret {A} (a : A) : M A := fun st => (Returned a, st).

Definition throw {A} (e : JsError) : M A := fun st => (Thrown e, st).

Definition bind {A B} (m : M A) (k : A -> M B) : M B :=
  fun st =>
    match m st with
    | (Returned a, st1) => k a st1
    | (Thrown e, st1) => (Thrown e, st1)
    end.

Notation "x <- m ;; k" := (bind m (fun x => k))
  (at level 61, m at next level, right associativity).

(** [for (const x of l) { out.push(await f(x)) }] *)
Fixpoint forEach {A B} (f : A -> M B) (l : list A) : M (list B) :=
  match l with
  | [] => ret []
  | x :: l' => v <- f x ;; vs <- forEach f l' ;; ret (v :: vs)
  end.

(** [new Error(message)] *)
Definition plainError (msg : jsstring) : JsError := mkError (str "Error") msg None.

(** The error thrown on a status that is not ok. *)
Definition httpError (prefix : jsstring) (st : Z) (body : jsstring) : JsError :=
  mkError (str "Error")
          (prefix ++ str "HTTP " ++ decimal st ++ str ": " ++ firstn 200 body)
          (Some st).

(** Issuing a request: it is logged, and its duration passes. *)
Definition issue (net : Net) (r : Request) (st : State) : nat * State :=
  let (rt, w) := st in
  let k := length (calls w) in
  (k, (mkRt (now rt + Z.of_N (latency net k)) (timers rt) (draws rt),
       mkWorld (cache w) (calls w ++ [r]) (writes w) (throttleUntil w))).

(** The state once the request [r] has been issued. *)
Definition issued (net : Net) (r : Request) (st : State) : State :=
  snd (issue net r st).

(** [parseJsonArrayLike(s, expectedLen)] on a body whose array is [arr]. *)
Definition acceptArray (arr : list jsstring) (expectedLen : nat) : bool :=
  (expectedLen =? 0)%nat || (length arr =? expectedLen)%nat.

(** The task given to [scheduledFetch] by [openaiBatchTranslateArray]. *)
Definition fetchOpenaiBatch (net : Net) (texts : list jsstring)
  : M (list jsstring) :=
  fun st =>
    let (k, st1) := issue net (ReqBatch texts) st in
    match respondBatch net texts k with
    | NetFail e => (Thrown e, st1)
    | Http code body => (Thrown (httpError [] code body), st1)
    | Payload (Some arr) =>
        if acceptArray arr (length texts) then (Returned arr, st1)
        else (Thrown (plainError (str "Invalid JSON array from provider")), st1)
    | Payload None =>
        (Thrown (plainError (str "Invalid JSON array from provider")), st1)
    end.

(** The task given to [scheduledFetch] by [openaiSingle]. *)
Definition fetchOpenaiSingle (net : Net) (text : jsstring) : M jsstring :=
  fun st =>
    let (k, st1) := issue net (ReqSingle text) st in
    match respondSingle net text k with
    | NetFail e => (Thrown e, st1)
    | Http code body => (Thrown (httpError [] code body), st1)
    | Payload (Some content) => (Returned content, st1)
    | Payload None => (Returned [], st1)
    end.

(** The task given to [scheduledFetch] by [customTranslateBatch]. *)
Definition fetchCustomBatch (net : Net) (texts : list jsstring)
  : M (list jsstring) :=
  fun st =>
    let (k, st1) := issue net (ReqBatch texts) st in
    match respondBatch net texts k with
    | NetFail e => (Thrown e, st1)
    | Http code body => (Thrown (httpError (str "Provider ") code body), st1)
    | Payload (Some arr) => (Returned arr, st1)
    | Payload None =>
        (Thrown (plainError
           (str "Invalid provider response format; expected outputs[] or data[]")),
         st1)
    end.

(** [schedulerInstance.throttleTemporarily(ms)] *)
Definition throttle (ms : Z) (st : State) : State :=
  let (rt, w) := st in
  (rt, mkWorld (cache w) (calls w) (writes w) (now rt + Z.max 0 (toInt32 ms))).

(** *** Job controllers *)

(** An [AbortController], known by its identity. *)
Definition Controller : Type := nat.

(** [jobControllers] and the controllers aborted so far, in order. *)
Record Jobs := mkJobs {
  jobControllers : MapOf.t (list Controller);
  aborted : list Controller
}.

(** [arr.splice(arr.indexOf(c), 1)] when [c] is in [arr]. *)
Fixpoint removeFirst (c : Controller) (arr : list Controller) : list Controller :=
  match arr with
  | [] => []
  | x :: rest => if (x =? c)%nat then rest else x :: removeFirst c rest
  end.

(** [registerController(jobId, controller)] *)
Definition registerController (j : jsstring) (c : Controller) (s : Jobs) : Jobs :=
  match j with
  | [] => s
  | _ :: _ =>
      let arr := match MapOf.get j (jobControllers s) with
                 | None => []
                 | Some arr => arr
                 end in
      mkJobs (MapOf.put j (arr ++ [c]) (jobControllers s)) (aborted s)
  end.

(** [unregisterController(jobId, controller)] *)
Definition unregisterController (j : jsstring) (c : Controller) (s : Jobs)
  : Jobs :=
  match j with
  | [] => s
  | _ :: _ =>
      match MapOf.get j (jobControllers s) with
      | None => s
      | Some arr =>
          match removeFirst c arr with
          | [] => mkJobs (MapOf.delete j (jobControllers s)) (aborted s)
          | arr' => mkJobs (MapOf.put j arr' (jobControllers s)) (aborted s)
          end
      end
  end.

(** [abortJob(jobId)]: the controllers are popped, so aborted last first. *)
Definition abortJob (j : jsstring) (s : Jobs) : Jobs :=
  match MapOf.get j (jobControllers s) with
  | None => s
  | Some arr => mkJobs (MapOf.delete j (jobControllers s)) (aborted s ++ rev arr)
  end.

Inductive JobOp :=
| Register (j : jsstring) (c : Controller)
| Unregister (j : jsstring) (c : Controller)
| Abort (j : jsstring).

Definition jobStep (s : Jobs) (op : JobOp) : Jobs :=
  match op with
  | Register j c => registerController j c s
  | Unregister j c => unregisterController j c s
  | Abort j => abortJob j s
  end.

Definition runJobs (ops : list JobOp) (s : Jobs) : Jobs := fold_left jobStep ops s.

(** An operation that neither unregisters [c] from [j] nor aborts [j]. *)
Definition spares (j : jsstring) (c : Controller) (op : JobOp) : bool :=
  match op with
  | Register _ _ => true
  | Unregister j' c' => negb (jsstring_eqb j' j && (c' =? c)%nat)
  | Abort j' => negb (jsstring_eqb j' j)
  end.

(** The registry as the three functions keep it: a job is listed once, under
    a non-empty id, with at least one controller. *)
Definition jobsOk (s : Jobs) : Prop :=
  NoDup (MapOf.keys (jobControllers s)) /\
  Forall (fun kv => fst kv <> [] /\ snd kv <> []) (jobControllers s).

(** *** Orchestrator (v2) *)

(** [langEquals(a, b)] *)
Definition langEquals (a b : jsstring) : bool :=
  let x := toLowerCase a in
  let y := toLowerCase b in
  match x, y with
  | [], _ | _, [] => false
  | _, _ => jsstring_eqb x y || startsWith x y || startsWith y x
  end.

(** [e?.name === 'AbortError' || e?.name === 'SchedulerAbortError'] *)
Definition isAbortName (e : JsError) : bool :=
  jsstring_eqb (name e) (str "AbortError") ||
  jsstring_eqb (name e) (str "SchedulerAbortError").

(** [getRetryOpts(cfg)] *)
Definition getRetryOpts (cfg : Config) : RetryOpts :=
  mkRetryOpts (retryMaxRetries cfg) (retryBaseDelayMs cfg) (retryMaxDelayMs cfg)
    (retryJitter cfg) (retryRetryOn cfg)
    (Some (fun e _ =>
       if isAbortName e then false
       else
         let st := match status e with Some x => x | None => 0 end in
         if st =? 0 then true else includes st (retryRetryOn cfg))).

Definition apiKeyMissing : JsError :=
  plainError (str "openai-compatible provider requires apiKey").

(** [openaiSingle(text, config, ...)] *)
Definition openaiSingle (env : Env) (net : Net) (cfg : Config)
           (retryOpts : RetryOpts) (text : jsstring) : M jsstring :=
  match trim (providerApiKey cfg) with
  | [] => throw apiKeyMissing
  | _ :: _ => scheduledFetch env (fetchOpenaiSingle net text) retryOpts throttle
  end.

(** The [try] block of [openaiBatchTranslateArray]: the retried batch call. *)
Definition batchAttempt (env : Env) (net : Net) (retryOpts : RetryOpts)
           (texts : list jsstring) : M (list jsstring) :=
  scheduledFetch env (fetchOpenaiBatch net texts) retryOpts throttle.

(** Its [catch] block, once the error is no abort: one call per item. *)
Definition perItemFallback (env : Env) (net : Net) (cfg : Config)
           (retryOpts : RetryOpts) (texts : list jsstring) : M (list jsstring) :=
  forEach (openaiSingle env net cfg retryOpts) texts.

(** [openaiBatchTranslateArray(texts, config, ...)] *)
Definition openaiBatchTranslateArray (env : Env) (net : Net) (cfg : Config)
           (retryOpts : RetryOpts) (texts : list jsstring) : M (list jsstring) :=
  match trim (providerApiKey cfg) with
  | [] => throw apiKeyMissing
  | _ :: _ =>
      fun st =>
        match batchAttempt env net retryOpts texts st with
        | (Returned arr, st1) => (Returned arr, st1)
        | (Thrown e, st1) =>
            if isAbortName e then (Thrown e, st1)
            else perItemFallback env net cfg retryOpts texts st1
        end
  end.

(** [customTranslateBatch(texts, config, ...)] *)
Definition customTranslateBatch (env : Env) (net : Net) (cfg : Config)
           (retryOpts : RetryOpts) (texts : list jsstring) : M (list jsstring) :=
  match trim (providerEndpoint cfg) with
  | [] => ret (List.map (fun t => str "[demo] " ++ t) texts)
  | _ :: _ => scheduledFetch env (fetchCustomBatch net texts) retryOpts throttle
  end.

(** An element of [pending]. *)
Record PendingItem := mkPending {
  idx : nat;
  text : jsstring;
  key : jsstring
}.

(** [outs[i] = x] on an array that has the index [i]. *)
Fixpoint setNth (i : nat) (x : Cache.JsVal) (outs : list Cache.JsVal)
  : list Cache.JsVal :=
  match outs, i with
  | [], _ => []
  | _ :: rest, O => x :: rest
  | y :: rest, S i' => y :: setNth i' x rest
  end.

(** What the whole call fixes before its first loop. *)
Record CallCtx := mkCtx {
  ctxProvider : jsstring;
  ctxSourceLang : jsstring;
  ctxTargetLang : jsstring;
  ctxMinLen : Z
}.

Definition callCtx (cfg : Config) (params : Params) : CallCtx :=
  mkCtx (toLowerCase (trim (orElse (providerType cfg) (str "custom"))))
        (orElse (paramSourceLang params)
                (orElse (workflowSourceLang cfg) (str "auto")))
        (orElse (paramTargetLang params)
                (orElse (workflowTargetLang cfg) (str "zh-CN")))
        (minTextLength cfg).

(** The skip test of the first loop. *)
Definition skips (cfg : Config) (ctx : CallCtx) (t : jsstring) : bool :=
  (skipIfSourceEqualsTarget cfg &&
   negb (jsstring_eqb (ctxSourceLang ctx) (str "auto")) &&
   langEquals (ctxSourceLang ctx) (ctxTargetLang ctx)) ||
  isSkippableSegment t (ctxMinLen ctx).

Definition keyOf (cfg : Config) (ctx : CallCtx) (t : jsstring) : jsstring :=
  Cache.makeCacheKey
    (Cache.mkKeyParts (ctxProvider ctx) (providerModel cfg)
                      (ctxSourceLang ctx) (ctxTargetLang ctx) t).

(** The first loop, from index [i] on, at time [t0]: skipped and cached
    texts fill [outs], the others are appended to [pending]. *)
Fixpoint scanTexts (cfg : Config) (ctx : CallCtx) (t0 : Z) (i : nat)
         (texts : list jsstring) (outs : list Cache.JsVal)
         (pending : list PendingItem) (c : Cache.LRUCache)
  : list Cache.JsVal * list PendingItem * Cache.LRUCache :=
  match texts with
  | [] => (outs, pending, c)
  | t :: rest =>
      if skips cfg ctx t
      then scanTexts cfg ctx t0 (S i) rest (setNth i (Cache.Str t) outs) pending c
      else
        let k := keyOf cfg ctx t in
        let (cached, c') := Cache.get k t0 c in
        match cached with
        | Cache.Undefined =>
            scanTexts cfg ctx t0 (S i) rest outs (pending ++ [mkPending i t k]) c'
        | _ =>
            scanTexts cfg ctx t0 (S i) rest (setNth i cached outs) pending c'
        end
  end.

(** [outs[p.idx] = v; cacheInstance.set(p.key, v)] *)
Definition store (p : PendingItem) (v : jsstring) (outs : list Cache.JsVal)
           (st : State) : list Cache.JsVal * State :=
  let (rt, w) := st in
  (setNth (idx p) (Cache.Str v) outs,
   (rt, mkWorld (Cache.set (key p) (Cache.Str v) None (now rt) (cache w))
                (calls w) (writes w ++ [(key p, Cache.Str v)])
                (throttleUntil w))).

(** The map-back loop: [v = results[k] ?? ''] for the [k]-th pending item. *)
Fixpoint mapBack (pending : list PendingItem) (results : list jsstring)
         (outs : list Cache.JsVal) (st : State) : list Cache.JsVal * State :=
  match pending with
  | [] => (outs, st)
  | p :: rest =>
      let v := match results with [] => [] | r :: _ => r end in
      let (outs1, st1) := store p v outs st in
      mapBack rest (tl results) outs1 st1
  end.

(** The per-item loop of the openai-compatible provider. *)
Fixpoint perItemLoop (env : Env) (net : Net) (cfg : Config) (retryOpts : RetryOpts)
         (pending : list PendingItem) (outs : list Cache.JsVal)
  : M (list Cache.JsVal) :=
  match pending with
  | [] => ret outs
  | p :: rest =>
      v <- openaiSingle env net cfg retryOpts (text p) ;;
      fun st =>
        let (outs1, st1) := store p v outs st in
        perItemLoop env net cfg retryOpts rest outs1 st1
  end.

(** [translateTextsV2(texts, config, params, jobId)] *)
Definition translateTextsV2 (env : Env) (net : Net) (cfg : Config)
           (params : Params) (texts : list jsstring) : M (list Cache.JsVal) :=
  fun st =>
    let (rt, w) := st in
    let ctx := callCtx cfg params in
    let '(outs, pending, c) :=
      scanTexts cfg ctx (now rt) 0 texts
                (repeat Cache.Undefined (length texts)) [] (cache w) in
    let st0 := (rt, mkWorld c (calls w) (writes w) (throttleUntil w)) in
    match pending with
    | [] => (Returned outs, st0)
    | _ :: _ =>
        let retryOpts := getRetryOpts cfg in
        if jsstring_eqb (ctxProvider ctx) (str "openai-compatible") then
          if batchingEnabled cfg then
            let seq := List.map text pending in
            let chunks := splitInputsByBudget seq (batchingBudget cfg) in
            match forEach (openaiBatchTranslateArray env net cfg retryOpts)
                          chunks st0 with
            | (Returned parts, st1) =>
                let (outs1, st2) := mapBack pending (concat parts) outs st1 in
                (Returned outs1, st2)
            | (Thrown e, st1) => (Thrown e, st1)
            end
          else perItemLoop env net cfg retryOpts pending outs st0
        else
          let seq := List.map text pending in
          match customTranslateBatch env net cfg retryOpts seq st0 with
          | (Returned arr, st1) =>
              let (outs1, st2) := mapBack pending arr outs st1 in
              (Returned outs1, st2)
          | (Thrown e, st1) => (Thrown e, st1)
          end
    end.

(** The texts a request carries. *)
Definition carried (r : Request) : list jsstring :=
  match r with
  | ReqBatch texts => texts
  | ReqSingle t => [t]
  end.

(** What [openaiSingle] returns for the [k]-th request when it is answered
    with a body. *)
Definition singleValue (net : Net) (t : jsstring) (k : nat) : jsstring :=
  match respondSingle net t k with
  | Payload (Some content) => content
  | _ => []
  end.

(** The translations the collaborator returned to the [k]-th request. *)
Definition replyOf (net : Net) (k : nat) (r : Request) : list jsstring :=
  match r with
  | ReqBatch ts =>
      match respondBatch net ts k with
      | Payload (Some arr) => arr
      | _ => []
      end
  | ReqSingle t => [singleValue net t k]
  end.

(** The translations returned to the requests [reqs], the first of which is
    the [k]-th of the run, in order. *)
Fixpoint repliesFrom (net : Net) (k : nat) (reqs : list Request) : list jsstring :=
  match reqs with
  | [] => []
  | r :: rest => replyOf net k r ++ repliesFrom net (S k) rest
  end.

(** A text that the first loop neither skips nor finds in the cache [c] at
    time [t0]. *)
Definition needsFetch (cfg : Config) (ctx : CallCtx) (t0 : Z)
           (c : Cache.LRUCache) (t : jsstring) : bool :=
  negb (skips cfg ctx t) &&
  Cache.isUndefined (fst (Cache.get (keyOf cfg ctx t) t0 c)).

(** The output array once the [k]-th pending position has received the
    [k]-th of [values], for every [k]. *)
Definition fillOuts (pending : list PendingItem) (values : list jsstring)
           (outs : list Cache.JsVal) : list Cache.JsVal :=
  fold_left (fun o pv => setNth (idx (fst pv)) (Cache.Str (snd pv)) o)
            (combine pending values) outs.

(** The calls of [cacheInstance.set] that store the [k]-th of [values] under
    the key of the [k]-th pending position. *)
Definition writesOf (pending : list PendingItem) (values : list jsstring)
  : list (jsstring * Cache.JsVal) :=
  combine (List.map key pending) (List.map Cache.Str values).

(** [results[k] ?? ''] for the [n] first indices [k]. *)
Fixpoint alignTo (n : nat) (results : list jsstring) : list jsstring :=
  match n with
  | O => []
  | S n' =>
      match results with [] => [] | r :: _ => r end :: alignTo n' (tl results)
  end.

(** The answers of the demo mode of [customTranslateBatch]. *)
Definition demoOf (texts : list jsstring) : list jsstring :=
  List.map (fun t => str "[demo] " ++ t) texts.

(** A computation that leaves the cache and the log of its writes alone. *)
Definition cacheUntouched {A} (m : M A) : Prop :=
  forall st, cache (snd (snd (m st))) = cache (snd st) /\
             writes (snd (snd (m st))) = writes (snd st).

(** A collaborator that answers every request with a body, and every batch
    with an array of the batch's length. *)
Definition reliable (net : Net) : Prop :=
  (forall t k, exists p, respondSingle net t k = Payload p) /\
  (forall ts k, exists arr,
      respondBatch net ts k = Payload (Some arr) /\ length arr = length ts).

End Background.

(* ================================================================= *)
(** ** Sample runs *)

(* ================================================================= *)
(** ** content.js: translation of a page *)

Module Content.

(** The dedup loop of [translatePage] from node index [i] on, over the
    texts of the nodes: [textToIdxs] and [uniqueTexts]. *)
Fixpoint dedupFrom (i : nat) (texts : list jsstring)
         (textToIdxs : MapOf.t (list nat)) (uniqueTexts : list jsstring)
  : MapOf.t (list nat) * list jsstring :=
  match texts with
  | [] => (textToIdxs, uniqueTexts)
  | t :: rest =>
      match MapOf.get t textToIdxs with
      | None =>
          dedupFrom (S i) rest (MapOf.put t [i] textToIdxs) (uniqueTexts ++ [t])
      | Some idxs =>
          dedupFrom (S i) rest (MapOf.put t (idxs ++ [i]) textToIdxs) uniqueTexts
      end
  end.

Definition dedup (texts : list jsstring) : MapOf.t (list nat) * list jsstring :=
  dedupFrom 0 texts [] [].

(** [nodes[i].node.textContent = out], on the contents of the nodes. *)
Fixpoint setContent (i : nat) (out : jsstring) (content : list jsstring)
  : list jsstring :=
  match content, i with
  | [], _ => []
  | _ :: rest, O => out :: rest
  | y :: rest, S i' => y :: setContent i' out rest
  end.

(** The body of [outputs.forEach] for the output [out] of the text [txt];
    an output that is no string is [Cache.Undefined]. *)
Definition applyOutput (textToIdxs : MapOf.t (list nat)) (txt : jsstring)
           (out : Cache.JsVal) (content : list jsstring) : list jsstring :=
  match out with
  | Cache.Str o =>
      fold_left (fun c nodeIdx => setContent nodeIdx o c)
                (match MapOf.get txt textToIdxs with
                 | Some arr => arr
                 | None => []
                 end)
                content
  | Cache.Undefined => content
  end.

(** [outputs.forEach((out, idx) => ...)] for one chunk. *)
Fixpoint backfill (textToIdxs : MapOf.t (list nat)) (chunk : list jsstring)
         (outputs : list Cache.JsVal) (content : list jsstring) : list jsstring :=
  match outputs, chunk with
  | out :: outputs', txt :: chunk' =>
      backfill textToIdxs chunk' outputs'
               (applyOutput textToIdxs txt out content)
  | _, _ => content
  end.

(** [Math.max(10, Math.min(80, Number(behavior.pageInitialBatchSize)))] *)
Definition initialBatchSize (requested : nat) : nat :=
  Nat.max 10 (Nat.min 80 requested).

(** The loop over the chunks of [uniqueTexts], not cancelled; [request] is
    [requestTranslation] and [rest] is [uniqueTexts.slice(i)]. *)
Fixpoint pageLoop (fuel : nat) (request : list jsstring -> list Cache.JsVal)
         (batchSize : nat) (textToIdxs : MapOf.t (list nat))
         (rest : list jsstring) (content : list jsstring) : list jsstring :=
  match fuel with
  | O => content
  | S fuel' =>
      match rest with
      | [] => content
      | _ :: _ =>
          let chunk := firstn batchSize rest in
          pageLoop fuel' request batchSize textToIdxs (skipn batchSize rest)
                   (backfill textToIdxs chunk (request chunk) content)
      end
  end.

(** Dedup, then the chunked requests and their backfill. *)
Definition translatePage (request : list jsstring -> list Cache.JsVal)
           (requested : nat) (texts : list jsstring) (content : list jsstring)
  : list jsstring :=
  let (textToIdxs, uniqueTexts) := dedup texts in
  pageLoop (length uniqueTexts) request (initialBatchSize requested)
           textToIdxs uniqueTexts content.

(** What the dedup loop maintains over the texts [pre] read so far. *)
Record DedupInv (pre : list jsstring) (m : MapOf.t (list nat))
       (uniq : list jsstring) : Prop := {
  dd_keys : uniq = MapOf.keys m;
  dd_nodup : NoDup uniq;
  dd_cover : forall t, In t uniq <-> In t pre;
  dd_idxs : forall t idxs, MapOf.get t m = Some idxs ->
              NoDup idxs /\ forall k, In k idxs <-> nth_error pre k = Some t
}.

End Content.

Module Samples.
Import Scheduler Prompt Background.

(** Punctual timers, and [Math.random] always drawing 0. *)
Definition env0 : Env := mkEnv (fun _ => 0%N) (fun _ => 0%Q).

(** [createScheduler()] with the default limits, at time 0. *)
Definition sched0 : Sched := mkSched 2 50 200 (newTokenBucket 1 2 0) 0 0 false.

(** A scheduler without jitter and with a single slot. *)
Definition sched1 : Sched := mkSched 1 0 0 (newTokenBucket 1 2 0) 0 0 false.

(** A scheduler whose jitter bounds, 50.5 and 200.5, are no whole numbers. *)
Definition schedFrac : Sched :=
  mkSched 2 (101 # 2) (401 # 2) (newTokenBucket 1 2 0) 0 0 false.

(** A task whose signal has fired at time 0. *)
Definition abortedItem : Item Z := mkItem (Some 0) (fun _ => (Returned 7, 100%N)).

(** A task without signal that runs 100 ms. *)
Definition plainItem : Item Z := mkItem None (fun _ => (Returned 7, 100%N)).

Definition rt0 : Rt := mkRt 0 0 0.

(** A collaborator that translates [t] into [T:t], in 5 ms. *)
Definition netEcho : Net :=
  mkNet (fun ts _ => Payload (Some (List.map (fun t => str "T:" ++ t) ts)))
        (fun t _ => Payload (Some (str "T:" ++ t)))
        (fun _ => 5%N).

(** A collaborator whose batch endpoint always answers 500. *)
Definition net500 : Net :=
  mkNet (fun _ _ => Http 500 (str "oops"))
        (fun t _ => Payload (Some (str "T:" ++ t)))
        (fun _ => 5%N).

(** The default configuration with a provider type and a batching switch,
    two retries and no jitter. *)
Definition cfgOf (ty : jsstring) (batch : bool) : Config :=
  mkConfig ty (str "m") (str "https://x") (str "key")
           2 800 20000 false [429; 500; 502; 503; 504]
           batch (mkBudget 20 8000 2000) (str "auto") (str "zh-CN") true 2.

Definition noParams : Params := mkParams [] [].

(** An empty, enabled cache and empty logs. *)
Definition world0 : World := mkWorld (Cache.newLRUCache 500 43200000 true) [] [] 0.

Definition st0 : State := (rt0, world0).

Definition hello : jsstring := str "hello world".

(** The per-item configuration of the openai-compatible provider. *)
Definition cfgPerItem : Config := cfgOf (str "openai-compatible") false.

(** The batching configuration of the openai-compatible provider. *)
Definition cfgBatch : Config := cfgOf (str "openai-compatible") true.

(** The first loop of the orchestrator on two identical texts. *)
Definition scanHello : list Cache.JsVal * list PendingItem * Cache.LRUCache :=
  scanTexts cfgPerItem (callCtx cfgPerItem noParams) 0 0 [hello; hello]
            (repeat Cache.Undefined 2) [] (cache world0).

(** A collaborator whose batch endpoint is cancelled. *)
Definition netAbort : Net :=
  mkNet (fun _ _ => NetFail AbortError)
        (fun t _ => Payload (Some (str "T:" ++ t)))
        (fun _ => 5%N).

(** A collaborator that is rate limited once and translates afterwards. *)
Definition netFlaky : Net :=
  mkNet (fun ts k =>
           match k with
           | O => Http 429 (str "slow")
           | S _ => Payload (Some (List.map (fun t => str "T:" ++ t) ts))
           end)
        (fun t _ => Payload (Some (str "T:" ++ t)))
        (fun _ => 5%N).

(** A collaborator that refuses every batch. *)
Definition net400 : Net :=
  mkNet (fun _ _ => Http 400 (str "bad"))
        (fun t _ => Payload (Some (str "T:" ++ t)))
        (fun _ => 5%N).

(** A collaborator that answers every batch with a single translation. *)
Definition netShort : Net :=
  mkNet (fun _ _ => Payload (Some [str "T"]))
        (fun t _ => Payload (Some (str "T:" ++ t)))
        (fun _ => 5%N).

(** The custom provider, with and without endpoint. *)
Definition cfgCustom : Config := cfgOf (str "custom") true.

Definition cfgDemo : Config :=
  mkConfig (str "custom") (str "m") [] (str "key")
           2 800 20000 false [429; 500; 502; 503; 504]
           true (mkBudget 20 8000 2000) (str "auto") (str "zh-CN") true 2.

(** The openai-compatible provider without API key. *)
Definition cfgNoKey : Config :=
  mkConfig (str "openai-compatible") (str "m") (str "https://x") []
           2 800 20000 false [429; 500; 502; 503; 504]
           true (mkBudget 20 8000 2000) (str "auto") (str "zh-CN") true 2.

(** A workflow from English to English. *)
Definition cfgSameLang : Config :=
  mkConfig (str "custom") (str "m") (str "https://x") (str "key")
           2 800 20000 false [429; 500; 502; 503; 504]
           true (mkBudget 20 8000 2000) (str "en") (str "en-US") true 2.

(** The first loop of the orchestrator on an empty cache at time 0. *)
Definition scanOf (cfg : Config) (texts : list jsstring)
  : list Cache.JsVal * list PendingItem * Cache.LRUCache :=
  scanTexts cfg (callCtx cfg noParams) 0 0 texts
            (repeat Cache.Undefined (length texts)) [] (cache world0).

(** A full cache of two entries that never expire. *)
Definition cacheFull : Cache.LRUCache :=
  Cache.mkCache 2 0 true
    [(str "a", Cache.mkEntry (Cache.Str (str "A")) 0);
     (str "b", Cache.mkEntry (Cache.Str (str "B")) 0)].

End Samples.

(* ================================================================= *)
(** * Properties *)

Section SplitterProofs.
Import Prompt.

Lemma estimateTokens_cjk_bounds (s : jsstring) (acc : Z) :
  acc <= fold_left (fun cjk ch => if isCjk ch then cjk + 1 else cjk) s acc
      <= acc + jslength s.
Proof.
  unfold jslength. revert acc.
  induction s as [|ch s IH]; intros acc; cbn [fold_left length].
  - lia.
  - specialize (IH (if isCjk ch then acc + 1 else acc)).
    destruct (isCjk ch); lia.
Qed.

Lemma ceilDiv_nonneg (a : Z) : 0 <= a -> 0 <= ceilDiv a 4.
Proof.
  intros Ha. unfold ceilDiv.
  assert (- a / 4 <= 0) by (apply Z.div_le_upper_bound; lia). lia.
Qed.

Lemma estimateTokens_nonneg (s : jsstring) : 0 <= estimateTokens s.
Proof.
  unfold estimateTokens.
  pose proof (estimateTokens_cjk_bounds s 0) as H.
  pose proof (ceilDiv_nonneg (Z.max 0 (jslength s -
    fold_left (fun cjk ch => if isCjk ch then cjk + 1 else cjk) s 0))).
  lia.
Qed.

Lemma chunkChars_app (p q : list jsstring) :
  chunkChars (p ++ q) = chunkChars p + chunkChars q.
Proof.
  induction p as [|t p IH]; [reflexivity|].
  unfold chunkChars, chunkTokens in *. cbn [app fold_right]. rewrite IH. lia.
Qed.

Lemma chunkTokens_app (p q : list jsstring) :
  chunkTokens (p ++ q) = chunkTokens p + chunkTokens q.
Proof.
  induction p as [|t p IH]; [reflexivity|].
  unfold chunkChars, chunkTokens in *. cbn [app fold_right]. rewrite IH. lia.
Qed.

Lemma chunkChars_nonneg (c : list jsstring) : 0 <= chunkChars c.
Proof.
  induction c as [|t c IH]; [cbn; lia|].
  unfold chunkChars in *. cbn [fold_right]. unfold jslength at 1. lia.
Qed.

Lemma chunkTokens_nonneg (c : list jsstring) : 0 <= chunkTokens c.
Proof.
  induction c as [|t c IH]; [cbn; lia|].
  unfold chunkTokens in *. cbn [fold_right].
  pose proof (estimateTokens_nonneg t). lia.
Qed.

Lemma under_prefix (b : Budget) (p q : list jsstring) :
  under b (p ++ q) -> under b p.
Proof.
  unfold under. rewrite chunkChars_app, chunkTokens_app, length_app.
  pose proof (chunkChars_nonneg q). pose proof (chunkTokens_nonneg q). lia.
Qed.

Variable b : Budget.
Hypothesis items_pos : 0 < maxItems b.
Hypothesis chars_pos : 0 < maxChars b.
Hypothesis tokens_pos : 0 < tokenBudget b.

Lemma under_nil : under b [].
Proof. unfold under; cbn; lia. Qed.

Lemma under_fits (c : list jsstring) : under b c -> fits b c.
Proof. unfold under, fits; lia. Qed.

Lemma SplitInv_init : SplitInv b [] splitInit.
Proof. constructor; cbn; auto using under_nil. Qed.

(** Emitting an acceptable chunk re-establishes the invariant. *)
Lemma SplitInv_flush (pre : list jsstring) (st : SplitState) :
  concat (out st) ++ cur st = pre ->
  Forall (chunk_ok b) (out st) ->
  (cur st <> [] -> chunk_ok b (cur st)) ->
  SplitInv b pre (flush st).
Proof.
  intros Hf Ho Hc. unfold flush.
  destruct (cur st) as [|x c] eqn:Ecur.
  - rewrite app_nil_r in Hf. constructor; cbn; auto using under_nil.
    now rewrite app_nil_r.
  - constructor; cbn [out cur curChars curTokens]; auto using under_nil.
    + rewrite concat_app, <- Hf. cbn. now rewrite !app_nil_r.
    + apply Forall_app; split; [assumption|].
      constructor; [|constructor]. apply Hc. discriminate.
Qed.

Lemma under_chunk_ok (c : list jsstring) : c <> [] -> under b c -> chunk_ok b c.
Proof.
  intros Hne Hu. split; [assumption|]. split.
  - intros _. now apply under_fits.
  - intros p q E _. rewrite E in Hu. now apply under_prefix in Hu.
Qed.

Lemma SplitInv_preCheck (pre : list jsstring) (st : SplitState) (t : jsstring) :
  SplitInv b pre st ->
  SplitInv b pre (preCheck b st t) /\
  (cur (preCheck b st t) <> [] ->
   Z.of_nat (length (cur (preCheck b st t))) + 1 <= maxItems b /\
   curChars (preCheck b st t) + jslength t <= maxChars b /\
   curTokens (preCheck b st t) + estimateTokens t <= tokenBudget b).
Proof.
  intros Hinv. unfold preCheck.
  destruct ((0 <? Z.of_nat (length (cur st))) &&
     ((maxItems b <? Z.of_nat (length (cur st)) + 1) ||
      (maxChars b <? curChars st + jslength t) ||
      (tokenBudget b <? curTokens st + estimateTokens t))) eqn:E.
  - split.
    + destruct Hinv. apply SplitInv_flush; auto.
      intros Hne. now apply under_chunk_ok.
    + intros Hne. exfalso. apply Hne. reflexivity.
  - split; [assumption|]. intros Hne.
    apply andb_false_iff in E. destruct E as [E|E].
    + exfalso. apply Z.ltb_ge in E. destruct (cur st); [congruence|cbn in E; lia].
    + apply orb_false_iff in E. destruct E as [E E3].
      apply orb_false_iff in E. destruct E as [E1 E2].
      apply Z.ltb_ge in E1, E2, E3. lia.
Qed.

Lemma app_snoc_split {A} (p q c : list A) (t : A) :
  c ++ [t] = p ++ q -> q <> [] -> exists q', q = q' ++ [t] /\ c = p ++ q'.
Proof.
  intros E Hq. destruct (exists_last Hq) as [q' [x ->]].
  rewrite app_assoc in E. apply app_inj_tail in E. destruct E as [-> ->].
  now exists q'.
Qed.

Lemma append_tracks (st : SplitState) (t : jsstring) :
  curChars st = chunkChars (cur st) ->
  curTokens st = chunkTokens (cur st) ->
  curChars (append st t) = chunkChars (cur (append st t)) /\
  curTokens (append st t) = chunkTokens (cur (append st t)).
Proof.
  intros Hc Ht. unfold append; cbn [cur curChars curTokens].
  rewrite chunkChars_app, chunkTokens_app, Hc, Ht.
  change (chunkChars [t]) with (jslength t + 0).
  change (chunkTokens [t]) with (estimateTokens t + 0). lia.
Qed.

Lemma SplitInv_step (pre : list jsstring) (st : SplitState) (t : jsstring) :
  SplitInv b pre st -> SplitInv b (pre ++ [t]) (splitStep b st t).
Proof.
  intros Hinv. destruct (SplitInv_preCheck pre st t Hinv) as [H1 Hwould].
  unfold splitStep. set (st1 := preCheck b st t) in *.
  destruct H1 as [Hf Ho Hc Ht Hu].
  assert (Hflat : concat (out (append st1 t)) ++ cur (append st1 t) = pre ++ [t]).
  { unfold append; cbn [out cur]. now rewrite app_assoc, Hf. }
  destruct (append_tracks st1 t Hc Ht) as [Hc2 Ht2].
  unfold postCheck.
  destruct ((maxItems b <=? Z.of_nat (length (cur (append st1 t)))) ||
            (maxChars b <=? curChars (append st1 t)) ||
            (tokenBudget b <=? curTokens (append st1 t))) eqn:E.
  - apply SplitInv_flush; auto. intros _.
    unfold append in *; cbn [out cur curChars curTokens] in *.
    split; [|split].
    + intros Habs. now apply app_eq_nil in Habs as [_ Habs].
    + intros Hlen. unfold fits. rewrite <- Hc2, <- Ht2.
      rewrite length_app in *. cbn [length] in *.
      destruct (cur st1) as [|x c]; [cbn in Hlen; lia|].
      assert (x :: c <> []) as Hne by discriminate.
      specialize (Hwould Hne). lia.
    + intros p q Epq Hq.
      destruct (app_snoc_split _ _ _ _ Epq Hq) as [q' [_ Ec]].
      rewrite Ec in Hu. now apply under_prefix in Hu.
  - constructor; auto.
    apply orb_false_iff in E. destruct E as [E E3].
    apply orb_false_iff in E. destruct E as [E1 E2].
    apply Z.leb_gt in E1, E2, E3. unfold under. lia.
Qed.

Lemma SplitInv_loop (pre : list jsstring) : SplitInv b pre (splitLoop b pre).
Proof.
  unfold splitLoop.
  induction pre as [|t pre IH] using rev_ind.
  - apply SplitInv_init.
  - rewrite fold_left_app. cbn [fold_left]. now apply SplitInv_step.
Qed.

(** C6. For positive budgets, the chunks of [splitInputsByBudget] concatenate
    to the input list, no chunk is empty, every chunk of more than one item
    respects the three ceilings, and a chunk is closed in the very iteration
    whose append makes a running total meet or exceed a ceiling: the open
    chunk is strictly below every ceiling after each iteration, and no
    emitted chunk has a proper prefix that had already met one. *)
Theorem splitInputsByBudget_partition (inputs : list jsstring) :
  let chunks := splitInputsByBudget inputs b in
  concat chunks = inputs /\
  Forall (fun c => c <> []) chunks /\
  Forall (fun c => (1 < length c)%nat -> fits b c) chunks /\
  (forall pre t post, inputs = pre ++ t :: post ->
     let st2 := append (preCheck b (splitLoop b pre) t) t in
     (maxItems b <= Z.of_nat (length (cur st2)) \/
      maxChars b <= chunkChars (cur st2) \/
      tokenBudget b <= chunkTokens (cur st2)) ->
     splitLoop b (pre ++ [t]) = mkSplit (out st2 ++ [cur st2]) [] 0 0) /\
  (forall pre post, inputs = pre ++ post -> under b (cur (splitLoop b pre))) /\
  Forall (fun c => forall p q, c = p ++ q -> q <> [] -> under b p) chunks.
Proof.
  intros chunks.
  pose proof (SplitInv_loop inputs) as Hinv.
  assert (Hfin : SplitInv b inputs (flush (splitLoop b inputs))).
  { destruct Hinv. apply SplitInv_flush; auto.
    intros Hne. now apply under_chunk_ok. }
  assert (Hok : Forall (chunk_ok b) chunks) by apply Hfin.
  repeat split.
  - destruct Hfin as [Hf _ _ _ _]. cbn [flush cur] in Hf.
    now rewrite app_nil_r in Hf.
  - eapply Forall_impl; [|exact Hok]. intros c Hc. apply Hc.
  - eapply Forall_impl; [|exact Hok]. intros c Hc. apply Hc.
  - intros pre t post _ st2 Hmeet.
    unfold splitLoop. rewrite fold_left_app. cbn [fold_left].
    fold (splitLoop b pre). unfold splitStep. fold st2.
    destruct (SplitInv_preCheck pre _ t (SplitInv_loop pre)) as [[_ _ Hc Ht _] _].
    destruct (append_tracks _ t Hc Ht) as [Hc2 Ht2]. fold st2 in Hc2, Ht2.
    unfold postCheck.
    replace ((maxItems b <=? Z.of_nat (length (cur st2))) ||
             (maxChars b <=? curChars st2) || (tokenBudget b <=? curTokens st2))
      with true.
    + unfold flush. subst st2. unfold append at 1. cbn [cur].
      destruct (cur (preCheck b (splitLoop b pre) t)); reflexivity.
    + symmetry. rewrite Hc2, Ht2. rewrite !orb_true_iff, !Z.leb_le. tauto.
  - apply (SplitInv_loop pre).
  - apply (SplitInv_loop pre).
  - apply (SplitInv_loop pre).
  - eapply Forall_impl; [|exact Hok]. intros c Hc. apply Hc.
Qed.

End SplitterProofs.

(* ----------------------------------------------------------------- *)
(** ** Backoff delays *)

Section BackoffProofs.
Import Scheduler.

Lemma toInt32_small (x : Z) : -2147483648 <= x < 2147483648 -> toInt32 x = x.
Proof. intros H. unfold toInt32. rewrite Z.mod_small; lia. Qed.

(** A draw of the unit interval scaled to [n] outcomes selects one of them. *)
Lemma Qfloor_scale (u : Q) (n : Z) :
  (0 <= u < 1)%Q -> 0 < n -> 0 <= Qfloor (u * inject_Z n) < n.
Proof.
  intros [Hu0 Hu1] Hn.
  assert (Hn' : (0 < inject_Z n)%Q) by (rewrite <- Zlt_Qlt with (x := 0); exact Hn).
  split.
  - change 0 with (Qfloor 0). apply Qfloor_resp_le. nra.
  - rewrite Zlt_Qlt. eapply Qle_lt_trans; [apply Qfloor_le|]. nra.
Qed.

Lemma Qfloor_unique (q : Q) (z : Z) :
  (inject_Z z <= q < inject_Z (z + 1))%Q -> Qfloor q = z.
Proof.
  intros [Hlo Hhi].
  pose proof (Qfloor_le q) as H1. pose proof (Qlt_floor q) as H2.
  assert (Ha : (inject_Z z < inject_Z (Qfloor q + 1))%Q) by lra.
  assert (Hb : (inject_Z (Qfloor q) < inject_Z (z + 1))%Q) by lra.
  rewrite <- Zlt_Qlt in Ha, Hb. lia.
Qed.

Lemma Qfloor_add_Z (q : Q) (z : Z) : Qfloor (q + inject_Z z) = Qfloor q + z.
Proof.
  apply Qfloor_unique. rewrite !inject_Z_plus.
  pose proof (Qfloor_le q). pose proof (Qlt_floor q) as H2.
  rewrite inject_Z_plus in H2. lra.
Qed.

Lemma Qfloor_sub_Z (q : Q) (z : Z) : Qfloor (q - inject_Z z) = Qfloor q - z.
Proof.
  apply Qfloor_unique. unfold Z.sub. rewrite !inject_Z_plus, inject_Z_opp.
  pose proof (Qfloor_le q). pose proof (Qlt_floor q) as H2.
  rewrite inject_Z_plus in H2. lra.
Qed.

Lemma truncQ_nonneg (q : Q) : (0 <= q)%Q -> truncQ q = Qfloor q.
Proof.
  intros H. unfold truncQ. apply Qle_bool_iff in H. now rewrite H.
Qed.

(** A whole number is its own truncation. *)
Lemma truncQ_Z (z : Z) : truncQ (inject_Z z) = z.
Proof.
  unfold truncQ. destruct (Qle_bool 0 (inject_Z z));
    [apply Qfloor_Z|apply Qceiling_Z].
Qed.

Lemma truncQ_comp (a b : Q) : (a == b)%Q -> truncQ a = truncQ b.
Proof.
  intros H. unfold truncQ.
  rewrite (Qleb_comp 0%Q 0%Q (Qeq_refl 0%Q) a b H), (Qfloor_comp a b H),
    (Qceiling_comp a b H).
  reflexivity.
Qed.

Lemma truncQ_mono (a b : Q) : (a <= b)%Q -> truncQ a <= truncQ b.
Proof.
  intros Hab. unfold truncQ.
  destruct (Qle_bool 0 a) eqn:Ea, (Qle_bool 0 b) eqn:Eb.
  - now apply Qfloor_resp_le.
  - apply Qle_bool_iff in Ea.
    assert (Hb : ~ (0 <= b)%Q) by (rewrite <- Qle_bool_iff; congruence). lra.
  - assert (Ha : ~ (0 <= a)%Q) by (rewrite <- Qle_bool_iff; congruence).
    apply Qle_bool_iff in Eb.
    apply Z.le_trans with 0.
    + change 0 with (Qceiling 0). apply Qceiling_resp_le. lra.
    + change 0 with (Qfloor 0). now apply Qfloor_resp_le.
  - now apply Qceiling_resp_le.
Qed.

(** [randBetween] draws a whole number between its truncated bounds. *)
Lemma randBetween_range (u : Q) (a b : Q) :
  (0 <= u < 1)%Q -> -2147483648 <= truncQ a -> (a <= b)%Q ->
  truncQ b < 2147483648 ->
  truncQ a <= randBetween u a b <= truncQ b.
Proof.
  intros Hu Ha Hab Hb. unfold randBetween, toInt32Q.
  pose proof (truncQ_mono a b Hab) as Hm.
  assert (Emin : truncQ (Qmin a b) = truncQ a).
  { apply truncQ_comp. apply Q.min_l. exact Hab. }
  assert (Emax : truncQ (Qmax a b) = truncQ b).
  { apply truncQ_comp. apply Q.max_r. exact Hab. }
  rewrite Emin, Emax. rewrite !toInt32_small by lia.
  pose proof (Qfloor_scale u (truncQ b - truncQ a + 1) Hu ltac:(lia)). lia.
Qed.

Lemma randBetween_10_30 (u : Q) :
  (0 <= u < 1)%Q -> 10 <= randBetween u 10 30 <= 30.
Proof.
  intros Hu.
  apply (randBetween_range u 10 30 Hu); [discriminate|discriminate|reflexivity].
Qed.

Lemma pow2_pos (k : Z) : 0 <= k -> (1 <= inject_Z (2 ^ k))%Q.
Proof.
  intros H. rewrite <- Zle_Qle with (x := 1).
  pose proof (Z.pow_pos_nonneg 2 k ltac:(lia) H). lia.
Qed.

Lemma Qmin_mono_l (x y z : Q) : (x <= y)%Q -> (Qmin x z <= Qmin y z)%Q.
Proof.
  intros H.
  destruct (Q.min_spec x z) as [[H1 E1]|[H1 E1]],
           (Q.min_spec y z) as [[H2 E2]|[H2 E2]]; rewrite E1, E2; lra.
Qed.

(** The jitter span: a whole number of milliseconds, at most 30% of the
    capped delay and more than 10% of it less one. *)
Lemma jitter_delta_bounds (d : Q) (pct : Z) :
  (0 <= d)%Q -> 10 <= pct <= 30 ->
  let delta := Qfloor (d * inject_Z pct / 100) in
  0 <= delta /\
  (10 * inject_Z delta <= 3 * d)%Q /\ (d < 10 * inject_Z delta + 10)%Q.
Proof.
  intros Hd [Hp1 Hp2] delta.
  assert (Hq1 : (10 <= inject_Z pct)%Q) by (rewrite <- Zle_Qle with (x := 10); lia).
  assert (Hq2 : (inject_Z pct <= 30)%Q) by (rewrite <- Zle_Qle with (y := 30); lia).
  assert (Ediv : (d * inject_Z pct / 100 == d * inject_Z pct * (1 # 100))%Q)
    by reflexivity.
  pose proof (Qfloor_le (d * inject_Z pct / 100)) as Hle.
  pose proof (Qlt_floor (d * inject_Z pct / 100)) as Hlt.
  fold delta in Hle, Hlt. rewrite inject_Z_plus in Hlt.
  rewrite Ediv in Hle, Hlt.
  change (inject_Z 1) with 1%Q in Hlt.
  split; [|split].
  - change 0 with (Qfloor 0). apply Qfloor_resp_le. rewrite Ediv. nra.
  - nra.
  - nra.
Qed.

(** C8, as the code has it. For an attempt [k] from 1 to 1024 (the range in
    which the code's power of two is finite) and a base that is not negative:
    without jitter the delay is [min(base * 2^(k-1), max)], it does not
    decrease with [k] and it never exceeds [max]. With jitter, for
    [0 <= max] with [1.3 * max] inside the signed 32-bit range and draws of
    the unit interval, the delay is a whole number of milliseconds that is at
    most 30% above that value and less than 1 ms under 30% below it, and
    within 30% of it when the value is a whole number; different draws give
    different delays once the value is 10 ms or more. *)
Theorem computeBackoffDelay_spec (k : Z) (base maxMs u1 u2 : Q) :
  1 <= k <= 1024 -> (0 <= base)%Q ->
  let d := Qmin (base * inject_Z (2 ^ (k - 1))) maxMs in
  computeBackoffDelay k base maxMs false u1 u2 = d /\
  (forall k', k <= k' <= 1024 ->
     (computeBackoffDelay k base maxMs false u1 u2 <=
      computeBackoffDelay k' base maxMs false u1 u2)%Q) /\
  (computeBackoffDelay k base maxMs false u1 u2 <= maxMs)%Q /\
  ((0 <= maxMs)%Q -> (13 * maxMs <= 10 * 2147483647)%Q ->
   (0 <= u1 < 1)%Q -> (0 <= u2 < 1)%Q ->
   (7 * d - 10 < 10 * computeBackoffDelay k base maxMs true u1 u2 <= 13 * d)%Q /\
   (d == inject_Z (Qfloor d) ->
    7 * d <= 10 * computeBackoffDelay k base maxMs true u1 u2)%Q /\
   computeBackoffDelay k base maxMs true u1 u2
   = inject_Z (Qfloor (computeBackoffDelay k base maxMs true u1 u2))) /\
  ((0 <= maxMs)%Q -> (13 * maxMs <= 10 * 2147483647)%Q -> (0 <= u1 < 1)%Q ->
   (10 <= d)%Q ->
   exists v v', (0 <= v < 1)%Q /\ (0 <= v' < 1)%Q /\
     ~ (computeBackoffDelay k base maxMs true u1 v ==
        computeBackoffDelay k base maxMs true u1 v')%Q).
Proof.
  intros Hk Hb d.
  assert (Hplain : forall j, 1 <= j ->
            computeBackoffDelay j base maxMs false u1 u2
            = Qmin (base * inject_Z (2 ^ (j - 1))) maxMs).
  { intros j Hj. unfold computeBackoffDelay. now rewrite Z.max_r by lia. }
  set (delta := Qfloor (d * inject_Z (randBetween u1 10 30) / 100)).
  assert (Hjit : forall v, computeBackoffDelay k base maxMs true u1 v
                   = inject_Z (randBetween v (d - inject_Z delta)
                                             (d + inject_Z delta))).
  { intros v. unfold computeBackoffDelay. now rewrite Z.max_r by lia. }
  assert (Hdelta : (0 <= maxMs)%Q -> (13 * maxMs <= 10 * 2147483647)%Q ->
            (0 <= u1 < 1)%Q ->
            (0 <= d <= maxMs)%Q /\ 0 <= delta /\
            (10 * inject_Z delta <= 3 * d)%Q /\
            (d < 10 * inject_Z delta + 10)%Q /\
            forall v, (0 <= v < 1)%Q ->
              Qfloor d - delta
              <= randBetween v (d - inject_Z delta) (d + inject_Z delta)
              <= Qfloor d + delta).
  { intros Hm Hint Hu1.
    assert (Hd : (0 <= d <= maxMs)%Q).
    { subst d. pose proof (pow2_pos (k - 1) ltac:(lia)).
      destruct (Q.min_spec (base * inject_Z (2 ^ (k - 1))) maxMs)
        as [[H1 E]|[H1 E]]; rewrite E; split; try lra; nra. }
    destruct (jitter_delta_bounds d _ (proj1 Hd) (randBetween_10_30 u1 Hu1))
      as (Hd0 & Hhi & Hlo).
    fold delta in Hd0, Hhi, Hlo.
    assert (Hdq : (0 <= inject_Z delta)%Q)
      by (rewrite <- Zle_Qle with (x := 0); exact Hd0).
    split; [exact Hd|]. split; [exact Hd0|]. split; [exact Hhi|].
    split; [exact Hlo|]. intros v Hv.
    assert (Hlow : (0 <= d - inject_Z delta)%Q) by lra.
    assert (Hup : (0 <= d + inject_Z delta)%Q) by lra.
    pose proof (randBetween_range v (d - inject_Z delta) (d + inject_Z delta) Hv)
      as Hr.
    rewrite !truncQ_nonneg, Qfloor_sub_Z, Qfloor_add_Z in Hr by assumption.
    assert (Hf0 : 0 <= Qfloor (d - inject_Z delta)).
    { change 0 with (Qfloor 0). now apply Qfloor_resp_le. }
    rewrite Qfloor_sub_Z in Hf0.
    assert (Hf1 : Qfloor (d + inject_Z delta) <= 2147483647).
    { change 2147483647 with (Qfloor 2147483647). apply Qfloor_resp_le. lra. }
    rewrite Qfloor_add_Z in Hf1.
    apply Hr; [lia|lra|lia]. }
  split; [|split; [|split; [|split]]].
  - apply Hplain. lia.
  - intros k' Hkk. rewrite !Hplain by lia. apply Qmin_mono_l.
    assert (Hpow : (inject_Z (2 ^ (k - 1)) <= inject_Z (2 ^ (k' - 1)))%Q).
    { rewrite <- Zle_Qle. apply Z.pow_le_mono_r; lia. }
    nra.
  - rewrite Hplain by lia. apply Q.le_min_r.
  - intros Hm Hint Hu1 Hu2. rewrite Hjit.
    destruct (Hdelta Hm Hint Hu1) as (Hd & Hd0 & Hhi & Hlo & Hr).
    specialize (Hr u2 Hu2).
    set (r := randBetween u2 (d - inject_Z delta) (d + inject_Z delta)) in *.
    pose proof (Qfloor_le d) as Hfl. pose proof (Qlt_floor d) as Hfu.
    rewrite inject_Z_plus in Hfu. change (inject_Z 1) with 1%Q in Hfu.
    assert (Hr1 : (inject_Z (Qfloor d + - delta) <= inject_Z r)%Q)
      by (rewrite <- Zle_Qle; lia).
    assert (Hr2 : (inject_Z r <= inject_Z (Qfloor d + delta))%Q)
      by (rewrite <- Zle_Qle; lia).
    rewrite inject_Z_plus in Hr1, Hr2. rewrite inject_Z_opp in Hr1.
    split; [split; lra|]. split.
    + intros Hint'. lra.
    + now rewrite Qfloor_Z.
  - intros Hm Hint Hu1 Hd10.
    destruct (Hdelta Hm Hint Hu1) as (Hd & Hd0 & Hhi & Hlo & Hr).
    assert (Hd1 : 1 <= delta).
    { assert (Hq : (0 < inject_Z delta)%Q) by lra.
      rewrite <- Zlt_Qlt with (x := 0) in Hq. lia. }
    assert (Hdq : (1 <= inject_Z delta)%Q)
      by (rewrite <- Zle_Qle with (x := 1); exact Hd1).
    exists 0%Q, (1 # 2)%Q.
    split; [lra|]. split; [lra|]. rewrite !Hjit. rewrite inject_Z_injective.
    unfold randBetween, toInt32Q.
    assert (Emin : (Qmin (d - inject_Z delta) (d + inject_Z delta)
                    == d - inject_Z delta)%Q) by (apply Q.min_l; lra).
    assert (Emax : (Qmax (d - inject_Z delta) (d + inject_Z delta)
                    == d + inject_Z delta)%Q) by (apply Q.max_r; lra).
    assert (Tmin : truncQ (Qmin (d - inject_Z delta) (d + inject_Z delta))
                   = Qfloor d - delta).
    { rewrite (truncQ_comp _ _ Emin).
      rewrite truncQ_nonneg by lra. apply Qfloor_sub_Z. }
    assert (Tmax : truncQ (Qmax (d - inject_Z delta) (d + inject_Z delta))
                   = Qfloor d + delta).
    { rewrite (truncQ_comp _ _ Emax).
      rewrite truncQ_nonneg by lra. apply Qfloor_add_Z. }
    rewrite Tmin, Tmax.
    assert (Hf0 : 0 <= Qfloor d).
    { change 0 with (Qfloor 0). apply Qfloor_resp_le. lra. }
    assert (Hf1 : Qfloor d <= 2147483647).
    { change 2147483647 with (Qfloor 2147483647). apply Qfloor_resp_le. lra. }
    assert (Hf2 : Qfloor d + delta <= 2147483647).
    { assert (Hq : (inject_Z (Qfloor d + delta) <= 2147483647)%Q).
      { rewrite inject_Z_plus. pose proof (Qfloor_le d). lra. }
      rewrite <- Zle_Qle with (y := 2147483647) in Hq. exact Hq. }
    assert (Hf3 : 0 <= Qfloor d - delta).
    { rewrite <- Qfloor_sub_Z. change 0 with (Qfloor 0).
      apply Qfloor_resp_le. lra. }
    rewrite !toInt32_small by lia.
    set (n := Qfloor d + delta - (Qfloor d - delta) + 1).
    assert (Hn : (3 <= inject_Z n)%Q).
    { rewrite <- Zle_Qle with (x := 3). subst n. lia. }
    assert (H0 : Qfloor (0 * inject_Z n) <= 0).
    { rewrite Zle_Qle. eapply Qle_trans; [apply Qfloor_le|].
      change (inject_Z 0) with 0%Q. lra. }
    assert (H1 : 1 <= Qfloor ((1 # 2) * inject_Z n)).
    { apply Z.le_trans with (Qfloor 1); [reflexivity|].
      apply Qfloor_resp_le. lra. }
    lia.
Qed.

(** C8, as stated, fails outside whole, moderate, non-negative delays. With
    [base = max = 2000000000] the jittered delay is negative: [d + delta]
    leaves the 32-bit range that [| 0] keeps. With [base = max = 1.9] the
    jittered delay is 1 ms, more than 30% under 1.9. With a negative base
    the delay decreases with the attempt. And with [base = max = 3] the
    jittered delay is 3 ms whatever is drawn: it does not vary. *)
Lemma computeBackoffDelay_outside_range :
  (computeBackoffDelay 1 2000000000 2000000000 true (99 # 100) (99 # 100) < 0)%Q /\
  (10 * computeBackoffDelay 1 (19 # 10) (19 # 10) true 0 0 < 7 * (19 # 10))%Q /\
  (computeBackoffDelay 2 (-1) 10 false 0 0
   < computeBackoffDelay 1 (-1) 10 false 0 0)%Q /\
  (forall u1 u2, (0 <= u1 < 1)%Q -> (0 <= u2 < 1)%Q ->
     computeBackoffDelay 1 3 3 true u1 u2 = inject_Z 3).
Proof.
  split; [reflexivity|]. split; [reflexivity|]. split; [reflexivity|].
  intros u1 u2 Hu1 Hu2.
  set (delta := Qfloor (3 * inject_Z (randBetween u1 10 30) / 100)).
  change (computeBackoffDelay 1 3 3 true u1 u2)
    with (inject_Z (randBetween u2 (3 - inject_Z delta) (3 + inject_Z delta))).
  destruct (jitter_delta_bounds 3 _ ltac:(discriminate) (randBetween_10_30 u1 Hu1))
    as (Hd0 & Hhi & _).
  fold delta in Hd0, Hhi.
  assert (Hdelta : delta = 0).
  { assert (Hq : (inject_Z delta < inject_Z 1)%Q)
      by (change (inject_Z 1) with 1%Q; lra).
    rewrite <- Zlt_Qlt in Hq. lia. }
  rewrite Hdelta. f_equal.
  pose proof (randBetween_range u2 (3 - inject_Z 0) (3 + inject_Z 0) Hu2) as Hr.
  change (truncQ (3 - inject_Z 0)) with 3 in Hr.
  change (truncQ (3 + inject_Z 0)) with 3 in Hr.
  assert (3 <= randBetween u2 (3 - inject_Z 0) (3 + inject_Z 0) <= 3)
    by (apply Hr; [lia|discriminate|lia]).
  lia.
Qed.

End BackoffProofs.

(* ----------------------------------------------------------------- *)
(** ** The default retriable classifier *)

Section ClassifierProofs.
Import Scheduler.

Ltac bool_Z :=
  repeat match goal with
  | H : _ && _ = true |- _ => apply andb_true_iff in H; destruct H
  | H : _ || _ = false |- _ => apply orb_false_iff in H; destruct H
  | H : (_ <=? _) = true |- _ => apply Z.leb_le in H
  | H : (_ <=? _) = false |- _ => apply Z.leb_gt in H
  | H : (_ =? _) = true |- _ => apply Z.eqb_eq in H
  | H : (_ =? _) = false |- _ => apply Z.eqb_neq in H
  end.

Lemma includes_In (x : Z) (l : list Z) : includes x l = true <-> In x l.
Proof.
  unfold includes. rewrite existsb_exists. split.
  - intros [y [Hy E]]. apply Z.eqb_eq in E. now subst.
  - intros H. exists x. split; [assumption|apply Z.eqb_refl].
Qed.

Lemma digit_not_space (c : Z) : isDigit c = true -> isSpace c = false.
Proof.
  unfold isDigit, isSpace, isJsSpace. intros H. bool_Z.
  repeat (apply orb_false_iff; split);
    try (apply andb_false_iff; left; apply Z.leb_gt; lia);
    try (apply andb_false_iff; right; apply Z.leb_gt; lia);
    try (apply Z.eqb_neq; lia).
Qed.

Lemma skipSpaces_spaces (ws rest : jsstring) :
  Forall (fun c => isSpace c = true) ws ->
  skipSpaces (ws ++ rest) = skipSpaces rest.
Proof.
  induction 1 as [|c ws Hc _ IH]; [reflexivity|].
  cbn [app skipSpaces]. now rewrite Hc.
Qed.

Lemma skipSpaces_split (s : jsstring) :
  exists ws, s = ws ++ skipSpaces s /\ Forall (fun c => isSpace c = true) ws.
Proof.
  induction s as [|c s [ws [E Hws]]].
  - exists []. now split.
  - cbn [skipSpaces]. destruct (isSpace c) eqn:Ec.
    + exists (c :: ws). split; [cbn; now f_equal|now constructor].
    + exists []. now split.
Qed.

(** The attempt at one position succeeds exactly on the declared shape. *)
Lemma matchHttpAt_complete (prev : option Z) (ws post : jsstring) (d1 d2 d3 : Z) :
  boundary prev = true -> ws <> [] -> Forall (fun c => isSpace c = true) ws ->
  isDigit d1 = true -> isDigit d2 = true -> isDigit d3 = true ->
  boundary (hd_error post) = true ->
  matchHttpAt prev (str "HTTP" ++ ws ++ [d1; d2; d3] ++ post)
  = Some (100 * (d1 - 48) + 10 * (d2 - 48) + (d3 - 48)).
Proof.
  intros Hb Hne Hws H1 H2 H3 Hpost.
  destruct ws as [|sp ws]; [congruence|]. inversion Hws as [|? ? Hsp Hws']; subst.
  change (str "HTTP") with [72; 84; 84; 80]. cbn [app matchHttpAt].
  rewrite Hb, Hsp. cbn [andb].
  rewrite skipSpaces_spaces by assumption. cbn [skipSpaces].
  rewrite (digit_not_space d1 H1), H1, H2, H3, Hpost. reflexivity.
Qed.

Lemma matchHttpAt_sound (prev : option Z) (s : jsstring) (code : Z) :
  matchHttpAt prev s = Some code ->
  exists ws d1 d2 d3 post,
    s = str "HTTP" ++ ws ++ [d1; d2; d3] ++ post /\
    boundary prev = true /\
    ws <> [] /\ Forall (fun c => isSpace c = true) ws /\
    isDigit d1 = true /\ isDigit d2 = true /\ isDigit d3 = true /\
    boundary (hd_error post) = true /\
    code = 100 * (d1 - 48) + 10 * (d2 - 48) + (d3 - 48).
Proof.
  unfold matchHttpAt. intros H.
  repeat (match type of H with
          | match ?x with _ => _ end = _ => destruct x eqn:?; try discriminate
          | (if ?x then _ else _) = _ => destruct x eqn:?; try discriminate
          end).
  bool_Z. subst.
  match goal with Hs : skipSpaces ?rest = _ |- _ =>
    destruct (skipSpaces_split rest) as [ws [E Hws]]; rewrite Hs in E end.
  match goal with |- context [72 :: 84 :: 84 :: 80 :: ?sp :: _] =>
    exists (sp :: ws) end.
  do 4 eexists. change (str "HTTP") with [72; 84; 84; 80].
  injection H as <-.
  repeat split; try eassumption; try discriminate.
  - cbn [app]. do 5 f_equal. exact E.
  - now constructor.
Qed.

Lemma lastFrom_cons (prev : option Z) (c : Z) (p : jsstring) :
  lastFrom prev (c :: p) = lastFrom (Some c) p.
Proof.
  unfold lastFrom, lastOpt. cbn [rev].
  destruct (rev p) as [|x r]; reflexivity.
Qed.

Lemma searchHttp_eq (prev : option Z) (s : jsstring) :
  searchHttp prev s =
  match matchHttpAt prev s with
  | Some code => Some code
  | None => match s with [] => None | c :: s' => searchHttp (Some c) s' end
  end.
Proof. destruct s; reflexivity. Qed.

(** The search returns the match at the first position where one exists. *)
Lemma searchHttp_first (pre rest : jsstring) (prev : option Z) (code : Z) :
  (forall p1 p2, pre = p1 ++ p2 -> p2 <> [] ->
     matchHttpAt (lastFrom prev p1) (p2 ++ rest) = None) ->
  matchHttpAt (lastFrom prev pre) rest = Some code ->
  searchHttp prev (pre ++ rest) = Some code.
Proof.
  revert prev. induction pre as [|c pre IH]; intros prev Hnone Hhere.
  - change (lastFrom prev []) with prev in Hhere.
    cbn [app]. rewrite searchHttp_eq. now rewrite Hhere.
  - cbn [app]. rewrite searchHttp_eq.
    pose proof (Hnone [] (c :: pre) eq_refl ltac:(discriminate)) as H0.
    change (lastFrom prev []) with prev in H0. cbn [app] in H0. rewrite H0.
    apply IH.
    + intros p1 p2 E Hp2. rewrite <- (lastFrom_cons prev c p1).
      apply Hnone; [now rewrite E|assumption].
    + now rewrite <- (lastFrom_cons prev c pre).
Qed.

Lemma extractStatus_first (e : JsError) (i : nat) (code : Z) :
  status e = None ->
  HttpCodeAt (message e) i code ->
  (forall j c, (j < i)%nat -> ~ HttpCodeAt (message e) j c) ->
  extractStatus e = code.
Proof.
  intros Hst Hat Hfirst. unfold extractStatus. rewrite Hst.
  destruct Hat as (pre & ws & d1 & d2 & d3 & post & Emsg & Hlen & Hb & Hne & Hws
                   & H1 & H2 & H3 & Hpost & ->).
  rewrite Emsg. erewrite searchHttp_first; [reflexivity| |].
  - intros p1 p2 Epre Hp2.
    destruct (matchHttpAt (lastFrom None p1) _) as [c|] eqn:Em; [|reflexivity].
    exfalso. apply (Hfirst (length p1) c).
    + rewrite <- Hlen, Epre, length_app. destruct p2; [congruence|cbn; lia].
    + apply matchHttpAt_sound in Em.
      destruct Em as (ws' & e1 & e2 & e3 & post' & Es & Hb' & Hne' & Hws'
                      & G1 & G2 & G3 & Hpost' & ->).
      exists p1, ws', e1, e2, e3, post'.
      repeat split; try assumption.
      * rewrite Emsg, Epre, <- app_assoc. now rewrite Es.
      * unfold lastFrom in Hb'. now destruct (lastOpt p1).
  - unfold lastFrom. destruct (lastOpt pre); now apply matchHttpAt_complete.
Qed.

(** C10. For an error without a numeric status, the code of the first
    occurrence of [HTTP], white space and a three-digit number in the message
    is the error's status: the error is classified exactly as if it carried
    that status, and when it is no network error and the code is outside
    [retryOn] it is not retriable. *)
Theorem extractStatus_from_message
  (retryOn : list Z) (e : JsError) (i : nat) (code : Z) :
  status e = None ->
  HttpCodeAt (message e) i code ->
  (forall j c, (j < i)%nat -> ~ HttpCodeAt (message e) j c) ->
  extractStatus e = code /\
  defaultRetriable retryOn e
  = defaultRetriable retryOn (mkError (name e) (message e) (Some code)) /\
  (isNetworkError e = false -> ~ In code retryOn ->
   defaultRetriable retryOn e = false).
Proof.
  intros Hst Hat Hfirst.
  pose proof (extractStatus_first e i code Hst Hat Hfirst) as Hx.
  split; [exact Hx|]. split.
  - unfold defaultRetriable. rewrite Hx. reflexivity.
  - intros Hnet Hout. unfold defaultRetriable. rewrite Hnet, Hx. cbn [orb].
    destruct (includes code retryOn) eqn:E; [|reflexivity].
    apply includes_In in E. contradiction.
Qed.

(** C5, as the code has it. The default classifier marks an error retriable
    exactly when it is recognised as a network error or its status (the
    numeric field, else the code found in the message, else 0) is in
    [retryOn]. Hence: an error with a numeric status that is no network error
    is retriable iff that status is in [retryOn]; an error without status is
    retriable when it is a network error (a [TypeError] always is); and the
    scheduler's [AbortError] is not retriable as long as 0 is not in
    [retryOn]. *)
Theorem defaultRetriable_spec (retryOn : list Z) (e : JsError) :
  (defaultRetriable retryOn e = true <->
   isNetworkError e = true \/ In (extractStatus e) retryOn) /\
  (forall st, status e = Some st -> isNetworkError e = false ->
     (defaultRetriable retryOn e = true <-> In st retryOn)) /\
  (status e = None -> isNetworkError e = true ->
     defaultRetriable retryOn e = true) /\
  (name e = str "TypeError" -> defaultRetriable retryOn e = true) /\
  (~ In 0 retryOn -> defaultRetriable retryOn AbortError = false).
Proof.
  assert (Hiff : defaultRetriable retryOn e = true <->
                 isNetworkError e = true \/ In (extractStatus e) retryOn).
  { unfold defaultRetriable. rewrite orb_true_iff, includes_In. reflexivity. }
  split; [exact Hiff|]. split; [|split; [|split]].
  - intros st Hst Hnet. rewrite Hiff. unfold extractStatus. rewrite Hst, Hnet.
    split; [intros [H|H]; [discriminate|exact H]|now right].
  - intros _ Hnet. apply Hiff. now left.
  - intros Hname. apply Hiff. left. unfold isNetworkError. rewrite Hname.
    reflexivity.
  - intros H0. unfold defaultRetriable.
    change (isNetworkError AbortError) with false.
    change (extractStatus AbortError) with 0. cbn [orb].
    destruct (includes 0 retryOn) eqn:E; [|reflexivity].
    apply includes_In in E. contradiction.
Qed.

(** C5, as stated, fails: a plain [Error("boom")] carries no status and is
    not retriable under the default [retryOn]. *)
Lemma defaultRetriable_no_status_not_retriable :
  status (mkError (str "Error") (str "boom") None) = None /\
  defaultRetriable defaultRetryOn (mkError (str "Error") (str "boom") None)
  = false.
Proof. split; reflexivity. Qed.

End ClassifierProofs.

(* ----------------------------------------------------------------- *)
(** ** The token bucket *)

Section TokenBucketProofs.
Import Scheduler.

Variable env : Env.

Lemma clampQ_le_hi (v lo hi : Q) : (clampQ v lo hi <= hi)%Q.
Proof. unfold clampQ. apply Q.le_min_l. Qed.


Lemma clampQ_between (v lo hi : Q) :
  (lo <= hi -> lo <= clampQ v lo hi)%Q.
Proof.
  intros H. unfold clampQ. apply Q.min_glb; [exact H|apply Q.le_max_l].
Qed.


Lemma refill_rps (t : Z) (b : TokenBucket) : rps (refill t b) = rps b.
Proof. unfold refill. now destruct (Qltb _ _). Qed.

Lemma refill_capacity (t : Z) (b : TokenBucket) :
  capacity (refill t b) = capacity b.
Proof. unfold refill. now destruct (Qltb _ _). Qed.







Lemma takeLoop_more_fuel (fuel : nat) (n : Q) (b : TokenBucket) (rt : Rt)
      (r : TokenBucket * Rt) :
  takeLoop fuel env n b rt = Some r -> takeLoop (S fuel) env n b rt = Some r.
Proof.
  revert b rt. induction fuel as [|fuel IH]; intros b rt H; [discriminate|].
  remember (S fuel) as f1. cbn [takeLoop]. subst f1. cbn [takeLoop] in H.
  destruct (Qle_bool n (tokens (refill (now rt) b))); [exact H|].
  now apply IH.
Qed.




End TokenBucketProofs.



(* ----------------------------------------------------------------- *)
(** ** Starting a task: throttle, jitter, cancellation *)

Section RunOneProofs.
Import Scheduler.

Variable env : Env.

Lemma sleepMs_now (ms : Z) (rt : Rt) :
  now rt + Z.max 0 (toInt32 ms) <= now (sleepMs env ms rt).
Proof. unfold sleepMs. cbn [now]. lia. Qed.

Lemma clamp_range (v lo hi : Z) : lo <= hi -> lo <= clamp v lo hi <= hi.
Proof. unfold clamp. lia. Qed.

Lemma getJitterDelay_now (s : Sched) (rt : Rt) :
  now (snd (getJitterDelay env s rt)) = now rt.
Proof. unfold getJitterDelay. now destruct (Qle_bool (jitterMax s) 0). Qed.

(** The waits before the cancellation check: only timers, all of them spent
    with the slot taken, the first one the clamped rest of the throttle. *)
Lemma startDelays_spec (s : Sched) (rt rt3 : Rt) (evw : list Event) :
  startDelays env s rt = (rt3, evw) ->
  Forall (isSleepEvent (running s)) evw /\
  now rt
  + (if now rt <? tempThrottleUntil s
     then clamp (tempThrottleUntil s - now rt) 50 2000 else 0)
  <= now rt3.
Proof.
  unfold startDelays. intros H.
  set (w := clamp (tempThrottleUntil s - now rt) 50 2000) in *.
  assert (Hw : 50 <= w <= 2000) by (apply clamp_range; lia).
  pose proof (sleepMs_now w rt) as Hs. rewrite toInt32_small in Hs by lia.
  destruct (now rt <? tempThrottleUntil s).
  - pose proof (getJitterDelay_now s (sleepMs env w rt)) as Hj.
    destruct (getJitterDelay env s (sleepMs env w rt)) as [jit rt2].
    cbn [snd] in Hj.
    destruct (jit =? 0); injection H as <- <-.
    + split; [repeat constructor; now eexists; eexists|lia].
    + pose proof (sleepMs_now jit rt2). split; [|lia].
      repeat constructor; now eexists; eexists.
  - pose proof (getJitterDelay_now s rt) as Hj.
    destruct (getJitterDelay env s rt) as [jit rt2]. cbn [snd] in Hj.
    destruct (jit =? 0); injection H as <- <-.
    + split; [constructor|lia].
    + pose proof (sleepMs_now jit rt2). split; [|lia].
      repeat constructor; now eexists; eexists.
Qed.


Lemma not_sleep_in (run : Z) (evw : list Event) (e : Event) :
  Forall (isSleepEvent run) evw -> In e evw ->
  (forall a b r, e <> EvSleep a b r) -> False.
Proof.
  intros Hall Hin Hne. rewrite Forall_forall in Hall.
  destruct (Hall e Hin) as (a & b & E). now apply (Hne a b run).
Qed.



(** C4, as the code has it. A task whose signal has fired when it starts is
    rejected with [AbortError] whatever the token bucket holds: the scheduler
    is left as it was (no token taken, the slot given back) and the body does
    not run; but the check comes after the throttle and jitter waits, and the
    task holds a slot during each of them. *)
Theorem runOne_aborted_at_start {A : Type}
        (fuel : nat) (item : Item A) (s : Sched) (rt rt3 : Rt) (a : Z)
        (evw : list Event) :
  abortedAt item = Some a -> a <= now rt ->
  startDelays env (withRunning s (running s + 1)) rt = (rt3, evw) ->
  runOne fuel env item s rt
  = Some (Thrown AbortError, s, rt3,
          EvStart (now rt) (running s + 1) :: evw
          ++ [EvReject (now rt3) AbortError; EvFinish (now rt3) (running s)]) /\
  Forall (isSleepEvent (running s + 1)) evw.
Proof.
  intros Hab Ha Ed.
  destruct (startDelays_spec _ _ _ _ Ed) as [Hev Hnow].
  cbn [tempThrottleUntil withRunning running] in Hev, Hnow.
  split; [|exact Hev].
  unfold runOne. rewrite Ed.
  assert (Hsig : signalAborted item (now rt3) = true).
  { unfold signalAborted. rewrite Hab. apply Z.leb_le.
    pose proof (clamp_range (tempThrottleUntil s - now rt) 50 2000).
    destruct (now rt <? tempThrottleUntil s); lia. }
  rewrite Hsig. cbn [running withRunning app].
  replace (running s + 1 - 1) with (running s) by lia.
  destruct s; reflexivity.
Qed.

End RunOneProofs.

Section RunOneSamples.
Import Scheduler.

(** C3, as stated, fails: with a throttle of 60 s just set, a task started at
    time 0 sleeps 2000 ms, then takes its token and runs its body at 2000,
    long before the end of the window. *)
Lemma runOne_throttle_not_waited_out :
  tempThrottleUntil (throttleTemporarily 60000 Samples.sched1 Samples.rt0) = 60000 /\
  option_map snd
    (runOne 1 Samples.env0 Samples.plainItem
            (throttleTemporarily 60000 Samples.sched1 Samples.rt0) Samples.rt0)
  = Some [EvStart 0 1; EvSleep 0 2000 1; EvToken 2000; EvBody 2000;
          EvResolve 2100; EvFinish 2100 0].
Proof. split; reflexivity. Qed.

(** C4, as stated, fails: a task already aborted when it starts is rejected
    only after its jitter wait (50 ms here), and it holds the scheduler's
    single slot during that wait, so nothing else can start meanwhile. *)
Lemma runOne_aborted_holds_slot :
  option_map (fun r => (fst (fst (fst r)), snd r))
    (runOne 0 Samples.env0 Samples.abortedItem
            (mkSched 1 50 200 (newTokenBucket 1 2 0) 0 0 false) Samples.rt0)
  = Some (Thrown AbortError,
          [EvStart 0 1; EvSleep 0 50 1; EvReject 50 AbortError; EvFinish 50 0]) /\
  slotFree (mkSched 1 50 200 (newTokenBucket 1 2 0) 1 0 false) = false.
Proof. split; reflexivity. Qed.

End RunOneSamples.

(* ----------------------------------------------------------------- *)
(** ** The result cache *)

Section CacheProofs.

Lemma jsstring_eqb_refl (a : jsstring) : jsstring_eqb a a = true.
Proof. unfold jsstring_eqb. now destruct (list_eq_dec Z.eq_dec a a). Qed.

(** C9 fails on the code: after [set(key, undefined)] on a fresh enabled
    cache the entry is in the map, with the value [undefined], yet [has(key)]
    answers false at every later time, expired or not. *)
Theorem has_false_after_set_undefined
        (key : jsstring) (size0 ttl0 : Z) (ttl : option Z) (t t' : Z) :
  let c := Cache.set key Cache.Undefined ttl t (Cache.newLRUCache size0 ttl0 true) in
  (exists e, Cache.mapGet key (Cache.map c) = Some e /\ Cache.v e = Cache.Undefined) /\
  fst (Cache.has key t' c) = false.
Proof.
  cbv zeta. unfold Cache.set, Cache.newLRUCache.
  cbn [Cache.enabled negb Cache.map Cache.mapSet Cache.size Cache.ttlMs].
  unfold Cache.touch. cbn [Cache.mapDelete]. rewrite jsstring_eqb_refl.
  cbn [Cache.mapSet Cache.evictIfNeeded length].
  replace (Z.max 1 (if size0 =? 0 then 500 else size0) <? Z.of_nat 1) with false
    by (symmetry; apply Z.ltb_ge; lia).
  split.
  - eexists. cbn [Cache.withMap Cache.map Cache.mapGet].
    rewrite jsstring_eqb_refl. split; reflexivity.
  - unfold Cache.has, Cache.get.
    cbn [Cache.withMap Cache.enabled negb Cache.map Cache.mapGet].
    rewrite jsstring_eqb_refl.
    destruct (Cache.isExpired t' _); reflexivity.
Qed.

Lemma jsstring_eqb_eq (a b : jsstring) : jsstring_eqb a b = true <-> a = b.
Proof.
  unfold jsstring_eqb. destruct (list_eq_dec Z.eq_dec a b); split;
    intros; congruence.
Qed.

Lemma jsstring_eqb_neq (a b : jsstring) : a <> b -> jsstring_eqb a b = false.
Proof.
  intros H. destruct (jsstring_eqb a b) eqn:E; [|reflexivity].
  apply jsstring_eqb_eq in E. contradiction.
Qed.

Lemma mapGet_notin (k : jsstring) (m : Cache.JsMap) :
  ~ In k (Cache.keysOf m) -> Cache.mapGet k m = None.
Proof.
  induction m as [|[k0 e0] m IH]; intros H; [reflexivity|].
  cbn in *. rewrite jsstring_eqb_neq by tauto. apply IH. tauto.
Qed.

Lemma mapDelete_keys_incl (k x : jsstring) (m : Cache.JsMap) :
  In x (Cache.keysOf (Cache.mapDelete k m)) -> In x (Cache.keysOf m).
Proof.
  induction m as [|[k0 e0] m IH]; cbn; [tauto|].
  destruct (jsstring_eqb k0 k); cbn; tauto.
Qed.

Lemma mapDelete_NoDup (k : jsstring) (m : Cache.JsMap) :
  NoDup (Cache.keysOf m) -> NoDup (Cache.keysOf (Cache.mapDelete k m)).
Proof.
  induction m as [|[k0 e0] m IH]; cbn; intros H; [constructor|].
  inversion H as [|? ? Hn Hm]; subst.
  destruct (jsstring_eqb k0 k); [assumption|].
  cbn. constructor; [|now apply IH].
  intros Hin. apply Hn. now apply mapDelete_keys_incl in Hin.
Qed.

Lemma mapDelete_removes (k : jsstring) (m : Cache.JsMap) :
  NoDup (Cache.keysOf m) -> ~ In k (Cache.keysOf (Cache.mapDelete k m)).
Proof.
  induction m as [|[k0 e0] m IH]; cbn; intros H; [tauto|].
  inversion H as [|? ? Hn Hm]; subst.
  destruct (jsstring_eqb k0 k) eqn:E.
  - apply jsstring_eqb_eq in E. now subst.
  - cbn. intros [Hin|Hin]; [|now apply IH].
    subst. rewrite jsstring_eqb_refl in E. discriminate.
Qed.

Lemma mapGet_mapDelete_other (k k' : jsstring) (m : Cache.JsMap) :
  k <> k' -> Cache.mapGet k' (Cache.mapDelete k m) = Cache.mapGet k' m.
Proof.
  intros Hne. induction m as [|[k0 e0] m IH]; [reflexivity|]. cbn.
  destruct (jsstring_eqb k0 k) eqn:E.
  - apply jsstring_eqb_eq in E. subst. now rewrite jsstring_eqb_neq.
  - cbn. now rewrite IH.
Qed.

Lemma mapSet_fresh_keys (k : jsstring) (e : Cache.Entry) (m : Cache.JsMap) :
  ~ In k (Cache.keysOf m) ->
  Cache.keysOf (Cache.mapSet k e m) = Cache.keysOf m ++ [k].
Proof.
  induction m as [|[k0 e0] m IH]; cbn; intros H; [reflexivity|].
  rewrite jsstring_eqb_neq by tauto. cbn. f_equal. apply IH. tauto.
Qed.

Lemma mapGet_mapSet_same (k : jsstring) (e : Cache.Entry) (m : Cache.JsMap) :
  Cache.mapGet k (Cache.mapSet k e m) = Some e.
Proof.
  induction m as [|[k0 e0] m IH]; cbn.
  - now rewrite jsstring_eqb_refl.
  - destruct (jsstring_eqb k0 k) eqn:E; cbn; rewrite E; [reflexivity|exact IH].
Qed.

Lemma mapGet_mapSet_other (k k' : jsstring) (e : Cache.Entry) (m : Cache.JsMap) :
  k <> k' -> Cache.mapGet k' (Cache.mapSet k e m) = Cache.mapGet k' m.
Proof.
  intros Hne. induction m as [|[k0 e0] m IH]; cbn.
  - now rewrite jsstring_eqb_neq.
  - destruct (jsstring_eqb k0 k) eqn:E; cbn.
    + apply jsstring_eqb_eq in E. subst. now rewrite jsstring_eqb_neq.
    + now rewrite IH.
Qed.

Lemma touch_NoDup (k : jsstring) (e : Cache.Entry) (m : Cache.JsMap) :
  NoDup (Cache.keysOf m) -> NoDup (Cache.keysOf (Cache.touch k e m)).
Proof.
  intros H. unfold Cache.touch.
  rewrite mapSet_fresh_keys by now apply mapDelete_removes.
  apply NoDup_app; repeat split.
  - now apply mapDelete_NoDup.
  - repeat constructor. intros [].
  - intros x Hx [Hk|[]]. subst. now apply (mapDelete_removes x m).
Qed.

(** A lookup moves or drops the entry it reads, and changes the answer of no
    later lookup at the same time. *)
Lemma get_stable (k : jsstring) (t : Z) (c : Cache.LRUCache) :
  NoDup (Cache.keysOf (Cache.map c)) ->
  NoDup (Cache.keysOf (Cache.map (snd (Cache.get k t c)))) /\
  forall k', fst (Cache.get k' t (snd (Cache.get k t c)))
             = fst (Cache.get k' t c).
Proof.
  intros Hnd. unfold Cache.get at 1 3.
  destruct (Cache.enabled c) eqn:Een; cbn [negb]; [|now split].
  destruct (Cache.mapGet k (Cache.map c)) as [e|] eqn:Eg; [|now split].
  destruct (Cache.isExpired t e) eqn:Eexp; cbn [snd].
  - split; [now apply mapDelete_NoDup|].
    intros k'. unfold Cache.get. cbn [Cache.enabled Cache.withMap Cache.map].
    rewrite Een. cbn [negb].
    destruct (list_eq_dec Z.eq_dec k k') as [<-|Hne].
    + rewrite mapGet_notin by now apply mapDelete_removes.
      now rewrite Eg, Eexp.
    + rewrite mapGet_mapDelete_other by assumption.
      destruct (Cache.mapGet k' (Cache.map c)) as [e0|]; [|reflexivity].
      now destruct (Cache.isExpired t e0).
  - split; [now apply touch_NoDup|].
    intros k'. unfold Cache.get. cbn [Cache.enabled Cache.withMap Cache.map].
    rewrite Een. cbn [negb]. unfold Cache.touch.
    destruct (list_eq_dec Z.eq_dec k k') as [<-|Hne].
    + now rewrite mapGet_mapSet_same, Eg, Eexp.
    + rewrite mapGet_mapSet_other, mapGet_mapDelete_other by assumption.
      destruct (Cache.mapGet k' (Cache.map c)) as [e0|]; [|reflexivity].
      now destruct (Cache.isExpired t e0).
Qed.

End CacheProofs.

(* ----------------------------------------------------------------- *)
(** ** The orchestrator: batch fallback *)

Section FallbackProofs.
Import Scheduler Prompt Background.

Variable env : Env.
Variable net : Net.
Variable cfg : Config.
Variable retryOpts : RetryOpts.

(** An attempt that returns ends the retry loop. *)
Lemma retryLoop_returned {X A : Type}
      (fn : nat -> Rt * X -> Outcome A * (Rt * X))
      (onRetry : RetryInfo -> Rt * X -> Rt * X)
      (left attempt : nat) (st st1 : Rt * X) (v : A) :
  fn attempt st = (Returned v, st1) ->
  retryLoop env fn retryOpts onRetry left attempt st = (Returned v, st1).
Proof. intros H. destruct left; cbn [retryLoop]; now rewrite H. Qed.

Lemma scheduledFetch_returned {X A : Type}
      (enqueue : Rt * X -> Outcome A * (Rt * X))
      (thr : Z -> Rt * X -> Rt * X) (st st1 : Rt * X) (v : A) :
  enqueue st = (Returned v, st1) ->
  scheduledFetch env enqueue retryOpts thr st = (Returned v, st1).
Proof. intros H. unfold scheduledFetch, withRetry. now apply retryLoop_returned. Qed.

Lemma issued_calls (r : Request) (st : State) :
  calls (snd (issued net r st)) = calls (snd st) ++ [r].
Proof. destruct st as [rt w]. reflexivity. Qed.

Lemma issued_cache (r : Request) (st : State) :
  cache (snd (issued net r st)) = cache (snd st).
Proof. destruct st as [rt w]. reflexivity. Qed.

Lemma issued_writes (r : Request) (st : State) :
  writes (snd (issued net r st)) = writes (snd st).
Proof. destruct st as [rt w]. reflexivity. Qed.

Hypothesis apiKey_set : trim (providerApiKey cfg) <> [].

(** A single-item call that is answered with a body returns at once. *)
Lemma openaiSingle_answered (t : jsstring) (st : State) :
  (exists p, respondSingle net t (length (calls (snd st))) = Payload p) ->
  openaiSingle env net cfg retryOpts t st
  = (Returned (singleValue net t (length (calls (snd st)))),
     issued net (ReqSingle t) st).
Proof.
  intros [p Hp]. unfold openaiSingle.
  destruct (trim (providerApiKey cfg)) as [|c key] eqn:Ekey; [congruence|].
  apply scheduledFetch_returned.
  unfold fetchOpenaiSingle, issued, singleValue. destruct st as [rt w].
  cbn [issue snd fst] in *. rewrite Hp. now destruct p.
Qed.

(** The fallback against a collaborator that answers single-item calls:
    one call per item, in order, and their results. *)
Lemma perItemFallback_answered (texts : list jsstring) (st : State) :
  (forall t k, exists p, respondSingle net t k = Payload p) ->
  exists st2,
    perItemFallback env net cfg retryOpts texts st
    = (Returned (repliesFrom net (length (calls (snd st)))
                             (List.map ReqSingle texts)), st2) /\
    calls (snd st2) = calls (snd st) ++ List.map ReqSingle texts /\
    cache (snd st2) = cache (snd st) /\
    writes (snd st2) = writes (snd st).
Proof.
  intros Hans. unfold perItemFallback. revert st.
  induction texts as [|t texts IH]; intros st.
  - exists st. cbn. now rewrite app_nil_r.
  - cbn [forEach List.map repliesFrom replyOf]. unfold bind at 1.
    rewrite openaiSingle_answered by apply Hans.
    destruct (IH (issued net (ReqSingle t) st)) as (st2 & Hrun & Hcalls & Hcache & Hw).
    unfold bind at 1. rewrite Hrun.
    rewrite issued_calls, length_app, Nat.add_1_r in *.
    exists st2. split; [reflexivity|].
    rewrite Hcalls, Hcache, Hw, issued_cache, issued_writes, <- app_assoc.
    auto.
Qed.

(** C2, as the code has it. Once the retried batch call of a chunk has
    ended: a success is returned as it is; a cancellation-class failure
    ([AbortError], [SchedulerAbortError]) propagates without any single-item
    call; every other terminal failure, a parse failure and an HTTP-status
    failure alike, is answered by the per-item fallback: one single-item call
    per item of the chunk, in order, whose results are returned when the
    collaborator answers them. *)
Theorem openaiBatch_fallback_policy
        (texts : list jsstring) (st st1 : State) (r : Outcome (list jsstring)) :
  batchAttempt env net retryOpts texts st = (r, st1) ->
  match r with
  | Returned arr =>
      openaiBatchTranslateArray env net cfg retryOpts texts st = (Returned arr, st1)
  | Thrown e =>
      if isAbortName e
      then openaiBatchTranslateArray env net cfg retryOpts texts st = (Thrown e, st1)
      else
        openaiBatchTranslateArray env net cfg retryOpts texts st
        = perItemFallback env net cfg retryOpts texts st1 /\
        ((forall t k, exists p, respondSingle net t k = Payload p) ->
         exists st2,
           openaiBatchTranslateArray env net cfg retryOpts texts st
           = (Returned (repliesFrom net (length (calls (snd st1)))
                                    (List.map ReqSingle texts)), st2) /\
           calls (snd st2) = calls (snd st1) ++ List.map ReqSingle texts)
  end /\
  (forall code body, isAbortName (httpError [] code body) = false) /\
  isAbortName (plainError (str "Invalid JSON array from provider")) = false.
Proof.
  intros Hb. split; [|split; [reflexivity|reflexivity]].
  pose proof (perItemFallback_answered texts st1) as Hfb.
  unfold openaiBatchTranslateArray.
  destruct (trim (providerApiKey cfg)) as [|c key] eqn:Ekey; [congruence|].
  rewrite Hb. destruct r as [arr|e]; [reflexivity|].
  destruct (isAbortName e); [reflexivity|].
  split; [reflexivity|]. intros Hans.
  destruct (Hfb Hans) as (st2 & Hrun & Hcalls & _).
  exists st2. now split.
Qed.

End FallbackProofs.

Section FallbackSamples.
Import Scheduler Prompt Background.

(** C2, as stated, fails: a batch call answered 500 on every attempt ends,
    its retries exhausted, with an HTTP-status failure, and the orchestrator
    does not propagate it: it falls back to one single-item call per item and
    returns their results. *)
Lemma openaiBatch_falls_back_on_http_error :
  fst (batchAttempt Samples.env0 Samples.net500
         (getRetryOpts (Samples.cfgOf (str "openai-compatible") true))
         [str "ab"; str "cd"] Samples.st0)
  = Thrown (httpError [] 500 (str "oops")) /\
  (let (r, st') :=
     openaiBatchTranslateArray Samples.env0 Samples.net500
       (Samples.cfgOf (str "openai-compatible") true)
       (getRetryOpts (Samples.cfgOf (str "openai-compatible") true))
       [str "ab"; str "cd"] Samples.st0 in
   r = Returned [str "T:ab"; str "T:cd"] /\
   calls (snd st')
   = [ReqBatch [str "ab"; str "cd"]; ReqBatch [str "ab"; str "cd"];
      ReqBatch [str "ab"; str "cd"]; ReqSingle (str "ab"); ReqSingle (str "cd")]).
Proof. split; [reflexivity|]. vm_compute. split; reflexivity. Qed.

End FallbackSamples.

(* ----------------------------------------------------------------- *)
(** ** The orchestrator: pending texts, requests and cache writes *)

Section OrchestratorProofs.
Import Scheduler Prompt Background.

Variable env : Env.
Variable net : Net.
Variable cfg : Config.
Variable retryOpts : RetryOpts.

Lemma setNth_length (i : nat) (x : Cache.JsVal) (outs : list Cache.JsVal) :
  length (setNth i x outs) = length outs.
Proof.
  revert i. induction outs as [|y outs IH]; intros [|i]; cbn; auto.
Qed.

Lemma setNth_same (i : nat) (x : Cache.JsVal) (outs : list Cache.JsVal) :
  (i < length outs)%nat -> nth_error (setNth i x outs) i = Some x.
Proof.
  revert i. induction outs as [|y outs IH]; intros [|i] H; cbn in *;
    try lia; auto. apply IH. lia.
Qed.

Lemma setNth_other (i j : nat) (x : Cache.JsVal) (outs : list Cache.JsVal) :
  i <> j -> nth_error (setNth i x outs) j = nth_error outs j.
Proof.
  revert i j. induction outs as [|y outs IH]; intros [|i] [|j] H; cbn;
    try congruence; auto.
Qed.

Lemma fillOuts_length (pending : list PendingItem) (values : list jsstring)
      (outs : list Cache.JsVal) :
  length (fillOuts pending values outs) = length outs.
Proof.
  unfold fillOuts. revert values outs.
  induction pending as [|p pending IH]; intros [|v values] outs; cbn; auto.
  now rewrite IH, setNth_length.
Qed.

(** A position that is not pending keeps what the first loop gave it. *)
Lemma fillOuts_other (pending : list PendingItem) (values : list jsstring)
      (outs : list Cache.JsVal) (j : nat) :
  ~ In j (List.map idx pending) ->
  nth_error (fillOuts pending values outs) j = nth_error outs j.
Proof.
  unfold fillOuts. revert values outs.
  induction pending as [|p pending IH]; intros [|v values] outs Hj; cbn; auto.
  cbn in Hj. rewrite IH by tauto. apply setNth_other. tauto.
Qed.

(** Every pending position holds the value computed for that position. *)
Lemma fillOuts_nth (pending : list PendingItem) (values : list jsstring)
      (outs : list Cache.JsVal) :
  NoDup (List.map idx pending) ->
  Forall (fun p => (idx p < length outs)%nat) pending ->
  length values = length pending ->
  Forall2 (fun p v => nth_error (fillOuts pending values outs) (idx p)
                      = Some (Cache.Str v)) pending values.
Proof.
  revert values outs.
  induction pending as [|p pending IH]; intros [|v values] outs Hnd Hlt Hlen;
    cbn in Hlen; try discriminate; [constructor|].
  inversion Hnd as [|? ? Hnotin Hnd']; subst.
  inversion Hlt as [|? ? Hp Hlt']; subst.
  constructor.
  - change (fillOuts (p :: pending) (v :: values) outs)
      with (fillOuts pending values (setNth (idx p) (Cache.Str v) outs)).
    rewrite fillOuts_other by assumption. now apply setNth_same.
  - change (fillOuts (p :: pending) (v :: values) outs)
      with (fillOuts pending values (setNth (idx p) (Cache.Str v) outs)).
    apply IH; [assumption| |lia].
    eapply Forall_impl; [|exact Hlt']. intros q Hq. now rewrite setNth_length.
Qed.

(** The first loop appends pending items with increasing indices. *)
Lemma scanTexts_spec (ctx : CallCtx) (t0 : Z) (texts : list jsstring) :
  forall (i : nat) (outs : list Cache.JsVal) (pending : list PendingItem)
         (c : Cache.LRUCache) outs' pending' c',
    scanTexts cfg ctx t0 i texts outs pending c = (outs', pending', c') ->
    length outs' = length outs /\
    exists extra,
      pending' = pending ++ extra /\
      Forall (fun p => (i <= idx p < i + length texts)%nat) extra /\
      NoDup (List.map idx extra).
Proof.
  induction texts as [|t texts IH]; intros i outs pending c outs' pending' c' H.
  - cbn in H. injection H as <- <- <-. split; [reflexivity|].
    exists []. rewrite app_nil_r. repeat split; constructor.
  - cbn [scanTexts] in H.
    assert (Hshift : forall extra,
               Forall (fun p => (S i <= idx p < S i + length texts)%nat) extra ->
               Forall (fun p => (i <= idx p < i + length (t :: texts))%nat) extra).
    { intros extra. apply Forall_impl. intros p Hp. cbn [length]. lia. }
    destruct (skips cfg ctx t).
    + apply IH in H. destruct H as [Hlen (extra & -> & Hall & Hnd)].
      rewrite setNth_length in Hlen. split; [exact Hlen|].
      exists extra. auto.
    + destruct (Cache.get (keyOf cfg ctx t) t0 c) as [cached c1].
      destruct cached as [|sv].
      * apply IH in H. destruct H as [Hlen (extra & -> & Hall & Hnd)].
        split; [exact Hlen|].
        exists (mkPending i t (keyOf cfg ctx t) :: extra).
        rewrite <- app_assoc. split; [reflexivity|]. split.
        -- constructor; [cbn [idx length]; lia|now apply Hshift].
        -- cbn [List.map idx]. constructor; [|exact Hnd].
           intros Hin. apply in_map_iff in Hin. destruct Hin as (q & Eq & Hq).
           rewrite Forall_forall in Hall. specialize (Hall q Hq). lia.
      * apply IH in H. destruct H as [Hlen (extra & -> & Hall & Hnd)].
        rewrite setNth_length in Hlen. split; [exact Hlen|].
        exists extra. auto.
Qed.

(** The pending texts are the inputs that are neither skipped nor cached,
    one entry per position: equal texts are not merged. *)
Lemma scanTexts_pending_texts (ctx : CallCtx) (t0 : Z) (texts : list jsstring) :
  forall (i : nat) (outs : list Cache.JsVal) (pending : list PendingItem)
         (c : Cache.LRUCache) outs' pending' c',
    NoDup (Cache.keysOf (Cache.map c)) ->
    scanTexts cfg ctx t0 i texts outs pending c = (outs', pending', c') ->
    List.map text pending'
    = List.map text pending ++ filter (needsFetch cfg ctx t0 c) texts.
Proof.
  induction texts as [|t texts IH]; intros i outs pending c outs' pending' c' Hnd H.
  - cbn in H. injection H as <- <- <-. cbn. now rewrite app_nil_r.
  - cbn [scanTexts] in H. cbn [filter]. unfold needsFetch at 1.
    destruct (skips cfg ctx t); cbn [negb andb].
    + now apply IH in H.
    + destruct (get_stable (keyOf cfg ctx t) t0 c Hnd) as [Hnd1 Hst].
      destruct (Cache.get (keyOf cfg ctx t) t0 c) as [cached c1].
      cbn [fst snd] in *.
      assert (Hext : filter (needsFetch cfg ctx t0 c1) texts
                     = filter (needsFetch cfg ctx t0 c) texts).
      { apply filter_ext. intros x. unfold needsFetch. now rewrite Hst. }
      destruct cached as [|sv]; cbn [Cache.isUndefined];
        apply IH in H; try assumption; rewrite H, Hext.
      * rewrite map_app, <- app_assoc. reflexivity.
      * reflexivity.
Qed.

(** The map-back loop stores one value per pending position and performs
    one cache write per pending position. *)
Lemma mapBack_spec (pending : list PendingItem) :
  forall (results : list jsstring) (outs : list Cache.JsVal) (st : State),
    length results = length pending ->
    exists st',
      mapBack pending results outs st = (fillOuts pending results outs, st') /\
      calls (snd st') = calls (snd st) /\
      writes (snd st') = writes (snd st) ++ writesOf pending results.
Proof.
  induction pending as [|p pending IH]; intros [|v results] outs st Hlen;
    cbn in Hlen; try discriminate.
  - exists st. cbn. now rewrite app_nil_r.
  - cbn [mapBack tl]. destruct st as [rt w]. cbn [store].
    edestruct IH as (st' & Hrun & Hcalls & Hw); [injection Hlen as Hlen; exact Hlen|].
    rewrite Hrun. exists st'. split; [reflexivity|].
    rewrite Hcalls, Hw. cbn [snd calls writes].
    split; [reflexivity|]. unfold writesOf. cbn [List.map combine].
    now rewrite <- app_assoc.
Qed.

(** The open chunk and the emitted ones always hold the inputs read so far,
    whatever the budgets. *)
Lemma splitLoop_flat (b : Budget) (pre : list jsstring) :
  concat (out (splitLoop b pre)) ++ cur (splitLoop b pre) = pre.
Proof.
  assert (Hflush : forall st,
             concat (out (flush st)) ++ cur (flush st)
             = concat (out st) ++ cur st).
  { intros st. unfold flush. destruct (cur st) as [|x c]; cbn [out cur].
    - reflexivity.
    - rewrite concat_app. cbn. now rewrite !app_nil_r. }
  unfold splitLoop. induction pre as [|t pre IH] using rev_ind; [reflexivity|].
  rewrite fold_left_app. cbn [fold_left].
  set (st := fold_left (splitStep b) pre splitInit) in *.
  unfold splitStep, postCheck.
  assert (Happ : concat (out (append (preCheck b st t) t))
                 ++ cur (append (preCheck b st t) t) = pre ++ [t]).
  { unfold append. cbn [out cur]. rewrite app_assoc. f_equal.
    unfold preCheck. destruct (_ && _); [rewrite Hflush|]; exact IH. }
  destruct (_ || _); [rewrite Hflush|]; exact Happ.
Qed.

Lemma splitInputsByBudget_concat (b : Budget) (inputs : list jsstring) :
  concat (splitInputsByBudget inputs b) = inputs.
Proof.
  unfold splitInputsByBudget.
  pose proof (splitLoop_flat b inputs) as H.
  unfold flush. destruct (cur (splitLoop b inputs)) as [|x c]; cbn [out].
  - now rewrite app_nil_r in H.
  - rewrite concat_app. cbn. now rewrite app_nil_r.
Qed.

Hypothesis apiKey_set : trim (providerApiKey cfg) <> [].
Hypothesis endpoint_set : trim (providerEndpoint cfg) <> [].
Hypothesis net_reliable : reliable net.

Lemma store_spec (p : PendingItem) (v : jsstring) (outs : list Cache.JsVal)
      (st : State) :
  fst (store p v outs st) = setNth (idx p) (Cache.Str v) outs /\
  calls (snd (snd (store p v outs st))) = calls (snd st) /\
  writes (snd (snd (store p v outs st)))
  = writes (snd st) ++ [(key p, Cache.Str v)].
Proof. destruct st as [rt w]. cbn. auto. Qed.

(** The per-item loop: one single-item call and one cache write for every
    pending position, in order. *)
Lemma perItemLoop_spec (pending : list PendingItem) :
  forall (outs : list Cache.JsVal) (st : State),
    exists st',
      perItemLoop env net cfg retryOpts pending outs st
      = (Returned
           (fillOuts pending
              (repliesFrom net (length (calls (snd st)))
                           (List.map ReqSingle (List.map text pending))) outs),
         st') /\
      calls (snd st')
      = calls (snd st) ++ List.map ReqSingle (List.map text pending) /\
      writes (snd st')
      = writes (snd st)
        ++ writesOf pending
             (repliesFrom net (length (calls (snd st)))
                          (List.map ReqSingle (List.map text pending))).
Proof.
  destruct net_reliable as [Hsingle _].
  induction pending as [|p pending IH]; intros outs st.
  - exists st. cbn. now rewrite !app_nil_r.
  - cbn [perItemLoop List.map repliesFrom replyOf app]. unfold bind.
    rewrite (openaiSingle_answered env net cfg retryOpts apiKey_set)
      by apply Hsingle.
    set (v := singleValue net (text p) (length (calls (snd st)))).
    set (st1 := issued net (ReqSingle (text p)) st).
    destruct (store_spec p v outs st1) as (Ho & Hc & Hw).
    destruct (store p v outs st1) as [outs1 st2]. cbn [fst snd] in Ho, Hc, Hw.
    destruct (IH outs1 st2) as (st' & Hrun & Hcalls & Hwrites).
    subst st1. rewrite issued_calls in Hc. rewrite issued_writes in Hw.
    rewrite Hc in Hrun, Hcalls, Hwrites.
    rewrite length_app, Nat.add_1_r in Hrun, Hwrites.
    exists st'. rewrite Hrun, Hcalls, Hwrites, Hw, Ho, <- !app_assoc.
    repeat split.
Qed.

(** A batch call that is answered with an array of the chunk's length. *)
Lemma openaiBatch_answered (ts : list jsstring) (st : State) :
  exists arr,
    respondBatch net ts (length (calls (snd st))) = Payload (Some arr) /\
    length arr = length ts /\
    openaiBatchTranslateArray env net cfg retryOpts ts st
    = (Returned arr, issued net (ReqBatch ts) st).
Proof.
  destruct net_reliable as [_ Hbatch].
  destruct (Hbatch ts (length (calls (snd st)))) as (arr & Hr & Hlen).
  exists arr. split; [exact Hr|]. split; [exact Hlen|].
  unfold openaiBatchTranslateArray, batchAttempt.
  destruct (trim (providerApiKey cfg)) as [|c k]; [congruence|].
  erewrite scheduledFetch_returned; [reflexivity|].
  unfold fetchOpenaiBatch, issued. destruct st as [rt w].
  cbn [issue snd fst] in *. rewrite Hr. unfold acceptArray.
  now rewrite Hlen, Nat.eqb_refl, orb_true_r.
Qed.

Lemma customBatch_answered (ts : list jsstring) (st : State) :
  exists arr,
    respondBatch net ts (length (calls (snd st))) = Payload (Some arr) /\
    length arr = length ts /\
    customTranslateBatch env net cfg retryOpts ts st
    = (Returned arr, issued net (ReqBatch ts) st).
Proof.
  destruct net_reliable as [_ Hbatch].
  destruct (Hbatch ts (length (calls (snd st)))) as (arr & Hr & Hlen).
  exists arr. split; [exact Hr|]. split; [exact Hlen|].
  unfold customTranslateBatch.
  destruct (trim (providerEndpoint cfg)) as [|c k]; [congruence|].
  erewrite scheduledFetch_returned; [reflexivity|].
  unfold fetchCustomBatch, issued. destruct st as [rt w].
  cbn [issue snd fst] in *. now rewrite Hr.
Qed.

(** The batch loop: one batch call per chunk, in order. *)
Lemma forEach_batches (chunks : list (list jsstring)) :
  forall st : State,
    exists parts st',
      forEach (openaiBatchTranslateArray env net cfg retryOpts) chunks st
      = (Returned parts, st') /\
      calls (snd st') = calls (snd st) ++ List.map ReqBatch chunks /\
      writes (snd st') = writes (snd st) /\
      concat parts
      = repliesFrom net (length (calls (snd st))) (List.map ReqBatch chunks) /\
      length (concat parts) = length (concat chunks).
Proof.
  induction chunks as [|ts chunks IH]; intros st.
  - exists [], st. cbn. now rewrite app_nil_r.
  - cbn [forEach List.map repliesFrom replyOf]. unfold bind at 1.
    destruct (openaiBatch_answered ts st) as (arr & Hr & Hlen & ->).
    rewrite Hr.
    destruct (IH (issued net (ReqBatch ts) st))
      as (parts & st' & Hrun & Hcalls & Hw & Hparts & Hplen).
    unfold bind at 1. rewrite Hrun. cbn [ret].
    rewrite issued_calls, length_app, Nat.add_1_r in *.
    rewrite issued_writes in Hw.
    exists (arr :: parts), st'. split; [reflexivity|].
    rewrite Hcalls, <- app_assoc. cbn [concat app].
    rewrite !length_app, Hplen, Hlen, Hparts. auto.
Qed.

Lemma repliesFrom_singles_length (k : nat) (ts : list jsstring) :
  length (repliesFrom net k (List.map ReqSingle ts)) = length ts.
Proof.
  revert k. induction ts as [|t ts IH]; intros k; cbn; [reflexivity|].
  now rewrite IH.
Qed.

End OrchestratorProofs.

Section OrchestratorMain.
Import Scheduler Prompt Background.

Variable env : Env.
Variable net : Net.
Variable cfg : Config.
Variable params : Params.

Hypothesis apiKey_set : trim (providerApiKey cfg) <> [].
Hypothesis endpoint_set : trim (providerEndpoint cfg) <> [].
Hypothesis net_reliable : reliable net.

(** C1, as the code has it. The orchestrator does not deduplicate: against
    a collaborator that answers every request, each non-skippable,
    non-cached input position is submitted on its own (the texts carried by
    the requests issued are the pending texts in order, duplicates kept),
    the [k]-th pending position receives the [k]-th translation returned,
    and one cache write is performed per pending position, under that
    position's key. *)
Theorem translateTextsV2_per_position
        (texts : list jsstring) (rt : Rt) (w : World)
        (outs0 : list Cache.JsVal) (pending : list PendingItem)
        (c0 : Cache.LRUCache) :
  NoDup (Cache.keysOf (Cache.map (cache w))) ->
  scanTexts cfg (callCtx cfg params) (now rt) 0 texts
            (repeat Cache.Undefined (length texts)) [] (cache w)
  = (outs0, pending, c0) ->
  List.map text pending
  = filter (needsFetch cfg (callCtx cfg params) (now rt) (cache w)) texts /\
  exists outs st' newCalls values,
    translateTextsV2 env net cfg params texts (rt, w) = (Returned outs, st') /\
    calls (snd st') = calls w ++ newCalls /\
    concat (List.map carried newCalls) = List.map text pending /\
    values = repliesFrom net (length (calls w)) newCalls /\
    length values = length pending /\
    writes (snd st') = writes w ++ writesOf pending values /\
    length outs = length texts /\
    Forall2 (fun p v => nth_error outs (idx p) = Some (Cache.Str v))
            pending values.
Proof.
  intros Hkeys Hscan.
  split; [exact (scanTexts_pending_texts cfg _ _ _ _ _ _ _ _ _ _ Hkeys Hscan)|].
  destruct (scanTexts_spec cfg _ _ _ _ _ _ _ _ _ _ Hscan)
    as [Hlen0 (extra & Hpend & Hall & Hnd)].
  cbn [app] in Hpend. subst extra. rewrite repeat_length in Hlen0.
  assert (Hlt : Forall (fun p => (idx p < length outs0)%nat) pending).
  { eapply Forall_impl; [|exact Hall]. intros p Hp. cbn beta in Hp. lia. }
  assert (Hfill : forall values, length values = length pending ->
            length (fillOuts pending values outs0) = length texts /\
            Forall2 (fun p v => nth_error (fillOuts pending values outs0) (idx p)
                                = Some (Cache.Str v)) pending values).
  { intros values Hv. split; [now rewrite fillOuts_length|].
    now apply fillOuts_nth. }
  unfold translateTextsV2. rewrite Hscan.
  set (st0 := (rt, mkWorld c0 (calls w) (writes w) (throttleUntil w))).
  destruct pending as [|p0 rest] eqn:Ep.
  { exists outs0, st0, [], []. cbn. rewrite !app_nil_r. repeat split; auto. }
  rewrite <- Ep in *. clear Ep p0 rest.
  destruct (jsstring_eqb (ctxProvider (callCtx cfg params))
                         (str "openai-compatible")).
  - destruct (batchingEnabled cfg).
    + set (chunks := splitInputsByBudget (List.map text pending)
                                         (batchingBudget cfg)).
      destruct (forEach_batches env net cfg (getRetryOpts cfg) apiKey_set
                                net_reliable chunks st0)
        as (parts & st1 & Hrun & Hcalls & Hw & Hparts & Hplen).
      rewrite Hrun.
      assert (Hvals : length (concat parts) = length pending).
      { rewrite Hplen. unfold chunks.
        now rewrite splitInputsByBudget_concat, length_map. }
      destruct (mapBack_spec pending (concat parts) outs0 st1 Hvals)
        as (st2 & Hmb & Hc2 & Hw2).
      rewrite Hmb.
      exists (fillOuts pending (concat parts) outs0), st2,
             (List.map ReqBatch chunks), (concat parts).
      destruct (Hfill _ Hvals) as [HL HF].
      rewrite Hc2, Hw2, Hcalls, Hw. repeat split; auto.
      rewrite map_map. cbn [carried]. rewrite map_id. unfold chunks.
      apply splitInputsByBudget_concat.
    + destruct (perItemLoop_spec env net cfg (getRetryOpts cfg) apiKey_set
                                 net_reliable pending outs0 st0)
        as (st' & Hrun & Hcalls & Hw).
      rewrite Hrun.
      set (values := repliesFrom net (length (calls (snd st0)))
                                 (List.map ReqSingle (List.map text pending))) in *.
      assert (Hvals : length values = length pending).
      { unfold values. now rewrite repliesFrom_singles_length, length_map. }
      exists (fillOuts pending values outs0), st',
             (List.map ReqSingle (List.map text pending)), values.
      destruct (Hfill _ Hvals) as [HL HF].
      rewrite Hcalls, Hw. repeat split; auto.
      rewrite map_map. cbn [carried].
      generalize (List.map text pending) as l.
      induction l as [|x l IH]; cbn; [reflexivity|now rewrite IH].
  - destruct (customBatch_answered env net cfg (getRetryOpts cfg) endpoint_set
                                   net_reliable (List.map text pending) st0)
      as (arr & Hr & Hlen & Hrun).
    rewrite Hrun. rewrite length_map in Hlen.
    destruct (mapBack_spec pending arr outs0
                (issued net (ReqBatch (List.map text pending)) st0) Hlen)
      as (st2 & Hmb & Hc2 & Hw2).
    rewrite Hmb.
    exists (fillOuts pending arr outs0), st2,
           [ReqBatch (List.map text pending)], arr.
    destruct (Hfill _ Hlen) as [HL HF].
    rewrite Hc2, Hw2, issued_calls, issued_writes.
    repeat split; auto.
    + cbn. now rewrite app_nil_r.
    + cbn [repliesFrom replyOf]. cbn [snd st0 calls] in Hr.
      now rewrite Hr, app_nil_r.
Qed.

End OrchestratorMain.

Section OrchestratorSamples.
Import Scheduler Prompt Background.

(** C1, as stated, fails: two identical non-cached inputs in one call of the
    per-item mode cause two single-item requests for the same text and two
    cache writes under the same key. *)
Lemma translateTextsV2_duplicates_sent_twice :
  let (r, st') :=
    translateTextsV2 Samples.env0 Samples.netEcho
      (Samples.cfgOf (str "openai-compatible") false) Samples.noParams
      [Samples.hello; Samples.hello] Samples.st0 in
  calls (snd st') = [ReqSingle Samples.hello; ReqSingle Samples.hello] /\
  List.map fst (writes (snd st'))
  = [str "v1|openai-compatible|m|auto|zh-CN|d58b3fa7";
     str "v1|openai-compatible|m|auto|zh-CN|d58b3fa7"].
Proof. vm_compute. split; reflexivity. Qed.

End OrchestratorSamples.

(* ----------------------------------------------------------------- *)
(** ** Sample evaluations *)

Section SampleEvaluations.
Import Scheduler Prompt Background.

Example split_sample :
  splitInputsByBudget [str "ab"; str "cde"; str "f"; str ""; str "ghij"]
                      (mkBudget 2 5 100)
  = [[str "ab"; str "cde"]; [str "f"; str ""]; [str "ghij"]].
Proof. reflexivity. Qed.

Example fnv1a32_sample : Cache.fnv1a32 (str "hello") = str "4f9f2cab".
Proof. reflexivity. Qed.

Example backoff_sample :
  List.map (fun k => computeBackoffDelay k 800 20000 false 0 0) [1; 2; 3; 4; 5; 6; 7]
  = List.map inject_Z [800; 1600; 3200; 6400; 12800; 20000; 20000].
Proof. reflexivity. Qed.

Example extractStatus_sample :
  extractStatus (plainError (str "Provider HTTP 404: not found")) = 404 /\
  defaultRetriable defaultRetryOn (plainError (str "Provider HTTP 404: not found"))
  = false /\
  defaultRetriable defaultRetryOn (plainError (str "HTTP 503")) = true /\
  extractStatus (plainError (str "XHTTP 503")) = 0.
Proof. repeat split. Qed.

(** A status-bearing error whose text looks like a network failure is
    retriable although its status is not in [retryOn]. *)
Example defaultRetriable_network_text :
  defaultRetriable defaultRetryOn
    (mkError (str "Error") (str "HTTP 400: Failed to fetch upstream") (Some 400))
  = true.
Proof. reflexivity. Qed.

(** Same source and target language: every text passes through, nothing is
    requested and nothing is cached. *)
Example same_language_passes_through :
  let (r, st') :=
    translateTextsV2 Samples.env0 Samples.netEcho Samples.cfgBatch
      (mkParams (str "en") (str "en")) [str "hi"; str "hi"; str "ok"] Samples.st0 in
  r = Returned [Cache.Str (str "hi"); Cache.Str (str "hi"); Cache.Str (str "ok")] /\
  calls (snd st') = [] /\ writes (snd st') = [].
Proof. vm_compute. repeat split. Qed.

(** In batch mode two identical texts travel twice in the one batch. *)
Example duplicates_in_one_batch :
  calls (snd (snd (translateTextsV2 Samples.env0 Samples.netEcho Samples.cfgBatch
                     Samples.noParams [Samples.hello; Samples.hello] Samples.st0)))
  = [ReqBatch [Samples.hello; Samples.hello]].
Proof. reflexivity. Qed.

(** An aborted batch request is neither retried nor replaced by single calls. *)
Example abort_propagates :
  let net := mkNet (fun _ _ => NetFail AbortError)
                   (fun t _ => Payload (Some t)) (fun _ => 0%N) in
  let (r, st') :=
    openaiBatchTranslateArray Samples.env0 net Samples.cfgBatch
      (getRetryOpts Samples.cfgBatch) [str "ab"; str "cd"] Samples.st0 in
  r = Thrown AbortError /\ calls (snd st') = [ReqBatch [str "ab"; str "cd"]].
Proof. vm_compute. split; reflexivity. Qed.

(** A batch answered with an array of the wrong length is a parse failure:
    it is retried, then replaced by one call per item. *)
Example parse_failure_falls_back :
  let net := mkNet (fun _ _ => Payload (Some [str "only one"]))
                   (fun t _ => Payload (Some (str "T:" ++ t))) (fun _ => 0%N) in
  let (r, st') :=
    openaiBatchTranslateArray Samples.env0 net Samples.cfgBatch
      (getRetryOpts Samples.cfgBatch) [str "ab"; str "cd"; str "ef"] Samples.st0 in
  r = Returned [str "T:ab"; str "T:cd"; str "T:ef"] /\
  List.map (fun q => match q with ReqSingle _ => true | ReqBatch _ => false end)
           (calls (snd st'))
  = [false; false; false; true; true; true].
Proof. vm_compute. split; reflexivity. Qed.

End SampleEvaluations.

(* ----------------------------------------------------------------- *)
(** ** The theorems at concrete inputs *)

Section Witnesses.
Import Scheduler Prompt.

Lemma splitInputsByBudget_partition_witness :
  concat (splitInputsByBudget [str "ab"; str "cde"; str "f"] (mkBudget 2 5 100))
  = [str "ab"; str "cde"; str "f"].
Proof.
  apply (splitInputsByBudget_partition (mkBudget 2 5 100)); reflexivity.
Defined.

Lemma computeBackoffDelay_spec_witness :
  computeBackoffDelay 3 800 20000 false (1 # 2) (1 # 4)
  = Qmin (800 * inject_Z (2 ^ (3 - 1))) 20000 /\
  (7 * Qmin (800 * inject_Z (2 ^ (3 - 1))) 20000
   <= 10 * computeBackoffDelay 3 800 20000 true (1 # 2) (1 # 4)
   <= 13 * Qmin (800 * inject_Z (2 ^ (3 - 1))) 20000)%Q.
Proof.
  destruct (computeBackoffDelay_spec 3 800 20000 (1 # 2) (1 # 4)
              ltac:(lia) ltac:(discriminate)) as (H1 & _ & _ & H4 & _).
  split; [exact H1|].
  destruct H4 as ([_ Hup] & Hlow & _);
    [discriminate|discriminate|split; [discriminate|reflexivity]
    |split; [discriminate|reflexivity]|].
  split; [apply Hlow; reflexivity|exact Hup].
Defined.

Lemma extractStatus_from_message_witness :
  extractStatus (mkError (str "Error") (str "HTTP 503") None) = 503.
Proof.
  refine (proj1 (extractStatus_from_message defaultRetryOn
                   (mkError (str "Error") (str "HTTP 503") None) 0 503
                   eq_refl _ _)).
  - exists [], [32], 53, 48, 51, [].
    repeat split; try reflexivity; try discriminate.
    repeat constructor.
  - intros j c Hj. lia.
Defined.

Lemma defaultRetriable_spec_witness :
  defaultRetriable defaultRetryOn (mkError (str "Error") (str "Not Found") (Some 404))
  = true <-> In 404 defaultRetryOn.
Proof.
  apply (proj1 (proj2 (defaultRetriable_spec defaultRetryOn
           (mkError (str "Error") (str "Not Found") (Some 404))))
           404 eq_refl eq_refl).
Defined.



Lemma runOne_aborted_at_start_witness :
  runOne 0 Samples.env0 Samples.abortedItem Samples.sched0 Samples.rt0
  = Some (Thrown AbortError, Samples.sched0, mkRt 50 1 1,
          EvStart 0 1 :: [EvSleep 0 50 1]
          ++ [EvReject 50 AbortError; EvFinish 50 0]) /\
  Forall (isSleepEvent 1) [EvSleep 0 50 1].
Proof.
  apply (runOne_aborted_at_start Samples.env0 0 Samples.abortedItem
           Samples.sched0 Samples.rt0 (mkRt 50 1 1) 0 [EvSleep 0 50 1]);
    [reflexivity|cbn; lia|reflexivity].
Defined.

Lemma netEcho_reliable : Background.reliable Samples.netEcho.
Proof.
  split.
  - intros t k. eexists. reflexivity.
  - intros ts k. eexists. split; [reflexivity|apply length_map].
Qed.

Lemma apiKey_sample (ty : jsstring) (batch : bool) :
  trim (Background.providerApiKey (Samples.cfgOf ty batch)) <> [].
Proof. discriminate. Qed.

Lemma endpoint_sample (ty : jsstring) (batch : bool) :
  trim (Background.providerEndpoint (Samples.cfgOf ty batch)) <> [].
Proof. discriminate. Qed.

Lemma openaiBatch_fallback_policy_witness :
  Background.openaiBatchTranslateArray Samples.env0 Samples.net500
    Samples.cfgBatch (Background.getRetryOpts Samples.cfgBatch)
    [str "ab"; str "cd"] Samples.st0
  = Background.perItemFallback Samples.env0 Samples.net500
      Samples.cfgBatch (Background.getRetryOpts Samples.cfgBatch)
      [str "ab"; str "cd"]
      (snd (Background.batchAttempt Samples.env0 Samples.net500
              (Background.getRetryOpts Samples.cfgBatch)
              [str "ab"; str "cd"] Samples.st0)).
Proof.
  exact (proj1 (proj1 (openaiBatch_fallback_policy
           Samples.env0 Samples.net500 Samples.cfgBatch
           (Background.getRetryOpts Samples.cfgBatch)
           (apiKey_sample _ _) [str "ab"; str "cd"] Samples.st0
           (snd (Background.batchAttempt Samples.env0 Samples.net500
                   (Background.getRetryOpts Samples.cfgBatch)
                   [str "ab"; str "cd"] Samples.st0))
           (Thrown (Background.httpError [] 500 (str "oops")))
           eq_refl))).
Defined.

Lemma translateTextsV2_per_position_witness :
  List.map Background.text (snd (fst Samples.scanHello))
  = filter (Background.needsFetch Samples.cfgPerItem
              (Background.callCtx Samples.cfgPerItem Samples.noParams) 0
              (Background.cache Samples.world0))
           [Samples.hello; Samples.hello] /\
  exists outs st' newCalls values,
    Background.translateTextsV2 Samples.env0 Samples.netEcho Samples.cfgPerItem
      Samples.noParams [Samples.hello; Samples.hello] (Samples.rt0, Samples.world0)
    = (Returned outs, st') /\
    Background.calls (snd st') = [] ++ newCalls /\
    concat (List.map Background.carried newCalls)
    = List.map Background.text (snd (fst Samples.scanHello)) /\
    values = Background.repliesFrom Samples.netEcho 0 newCalls /\
    length values = length (snd (fst Samples.scanHello)) /\
    Background.writes (snd st')
    = [] ++ Background.writesOf (snd (fst Samples.scanHello)) values /\
    length outs = 2%nat /\
    Forall2 (fun p v => nth_error outs (Background.idx p) = Some (Cache.Str v))
            (snd (fst Samples.scanHello)) values.
Proof.
  exact (translateTextsV2_per_position
           Samples.env0 Samples.netEcho Samples.cfgPerItem Samples.noParams
           (apiKey_sample _ _) (endpoint_sample _ _) netEcho_reliable
           [Samples.hello; Samples.hello] Samples.rt0 Samples.world0
           (fst (fst Samples.scanHello)) (snd (fst Samples.scanHello))
           (snd Samples.scanHello) (NoDup_nil _) eq_refl).
Defined.

End Witnesses.

(* ================================================================= *)
(** * Further properties of the code *)

(* ----------------------------------------------------------------- *)
(** ** scheduler.js *)

Section BucketBounds.
Import Scheduler.

Variable env : Env.

Lemma refill_bounds (t : Z) (b : TokenBucket) :
  (0 <= tokens b <= inject_Z (capacity b))%Q ->
  (0 <= tokens (refill t b) <= inject_Z (capacity b))%Q.
Proof.
  intros H. unfold refill. destruct (Qltb _ _); cbn [tokens]; [|exact H].
  split; [apply clampQ_between; lra|apply clampQ_le_hi].
Qed.

Lemma takeLoop_bounds (fuel : nat) (n : Q) (b b' : TokenBucket) (rt rt' : Rt) :
  (0 <= n)%Q -> (0 <= tokens b <= inject_Z (capacity b))%Q ->
  takeLoop fuel env n b rt = Some (b', rt') ->
  (0 <= tokens b' <= inject_Z (capacity b'))%Q /\
  capacity b' = capacity b /\ rps b' = rps b.
Proof.
  intros Hn. revert b rt.
  induction fuel as [|fuel IH]; intros b rt Hb H; [discriminate|].
  cbn [takeLoop] in H.
  pose proof (refill_bounds (now rt) b Hb) as Hb1.
  destruct (Qle_bool n (tokens (refill (now rt) b))) eqn:E.
  - injection H as <- <-. apply Qle_bool_iff in E.
    cbn [tokens capacity rps].
    rewrite refill_capacity, refill_rps. repeat split; lra.
  - apply IH in H.
    + rewrite refill_capacity, refill_rps in H. exact H.
    + now rewrite refill_capacity.
Qed.

(** X1. A bucket whose token count lies between 0 and its capacity keeps it
    there: after every refill, and after every [take] that resolves (which
    changes neither the capacity nor the rate). *)
Theorem take_keeps_tokens_in_range
        (fuel : nat) (n : Q) (b b' : TokenBucket) (rt rt' : Rt) :
  (0 <= tokens b <= inject_Z (capacity b))%Q ->
  take fuel env n b rt = Some (b', rt') ->
  (forall t, (0 <= tokens (refill t b) <= inject_Z (capacity b))%Q) /\
  (0 <= tokens b' <= inject_Z (capacity b'))%Q /\
  capacity b' = capacity b /\ rps b' = rps b.
Proof.
  intros Hb H. split; [intros t; now apply refill_bounds|].
  unfold take in H. eapply takeLoop_bounds; [|exact Hb|exact H].
  eapply Qle_trans; [|apply Q.le_max_l]. discriminate.
Qed.

(** X2. The jitter delay of a scheduler whose bounds, whole or not, are
    ordered and fit 32 bits is a whole number between the two bounds rounded
    down: it never exceeds [jitterMax], and it is below [jitterMin] by less
    than 1 ms, and only when [jitterMin] has a fractional part; with
    [jitterMax <= 0] it is 0 and no random number is drawn. *)
Theorem getJitterDelay_in_range (s : Sched) (rt : Rt) :
  (forall k, (0 <= random env k < 1)%Q) ->
  (0 <= jitterMin s <= jitterMax s)%Q -> (jitterMax s < 2147483648)%Q ->
  Qfloor (jitterMin s) <= fst (getJitterDelay env s rt) <= Qfloor (jitterMax s) /\
  (jitterMin s - 1 < inject_Z (fst (getJitterDelay env s rt)) <= jitterMax s)%Q /\
  (jitterMin s == inject_Z (Qfloor (jitterMin s)) ->
   jitterMin s <= inject_Z (fst (getJitterDelay env s rt)))%Q /\
  ((jitterMax s <= 0)%Q -> getJitterDelay env s rt = (0, rt)).
Proof.
  intros Hrand Hord Hmax.
  assert (Hrange : Qfloor (jitterMin s) <= fst (getJitterDelay env s rt)
                   <= Qfloor (jitterMax s)).
  { unfold getJitterDelay. destruct (Qle_bool (jitterMax s) 0) eqn:E.
    - apply Qle_bool_iff in E. cbn [fst].
      assert (E0 : (jitterMax s == 0)%Q) by lra.
      assert (E1 : (jitterMin s == 0)%Q) by lra.
      rewrite (Qfloor_comp _ _ E0), (Qfloor_comp _ _ E1). cbn. lia.
    - cbn [mathRandom fst].
      pose proof (randBetween_range (random env (draws rt)) (jitterMin s)
                    (jitterMax s) (Hrand _)) as Hr.
      assert (Hmax0 : (0 <= jitterMax s)%Q) by lra.
      rewrite !truncQ_nonneg in Hr by lra.
      apply Hr; [|lra|].
      + apply Z.le_trans with 0; [lia|].
        change 0 with (Qfloor 0). apply Qfloor_resp_le. lra.
      + assert (Hq : (inject_Z (Qfloor (jitterMax s)) < 2147483648)%Q).
        { pose proof (Qfloor_le (jitterMax s)). lra. }
        rewrite <- Zlt_Qlt with (y := 2147483648) in Hq. exact Hq. }
  split; [exact Hrange|].
  set (d := fst (getJitterDelay env s rt)) in *.
  pose proof (Qfloor_le (jitterMax s)) as Hfl.
  pose proof (Qlt_floor (jitterMin s)) as Hfu.
  rewrite inject_Z_plus in Hfu. change (inject_Z 1) with 1%Q in Hfu.
  assert (H1 : (inject_Z (Qfloor (jitterMin s)) <= inject_Z d)%Q)
    by (rewrite <- Zle_Qle; lia).
  assert (H2 : (inject_Z d <= inject_Z (Qfloor (jitterMax s)))%Q)
    by (rewrite <- Zle_Qle; lia).
  split; [split; lra|]. split; [intros Hint; lra|].
  intros Hle. unfold getJitterDelay.
  apply Qle_bool_iff in Hle. now rewrite Hle.
Qed.

End BucketBounds.

Section ConfigProofs.
Import Scheduler.

Lemma setRate_ok (r burst : Q) (old : option Q) (t0 : Z) :
  (1 # 1000 <= rps (setRate r burst old t0))%Q /\
  1 <= capacity (setRate r burst old t0) /\
  (tokens (setRate r burst old t0)
   <= inject_Z (capacity (setRate r burst old t0)))%Q /\
  (forall o, old = Some o -> (tokens (setRate r burst old t0) <= o)%Q).
Proof.
  unfold setRate. cbn [rps capacity tokens]. repeat split.
  - apply Q.le_max_l.
  - lia.
  - apply Q.le_min_r.
  - intros o ->. apply Q.le_min_l.
Qed.

Lemma createScheduler_ok (config : SchedConfig) (t : Z) :
  configOk (createScheduler config t).
Proof.
  unfold configOk, createScheduler, newTokenBucket.
  cbn [maxConcurrent jitterMin jitterMax limiter rps capacity tokens].
  destruct (setRate_ok (orDefault (cfgRps config) 1%Q)
                       (orDefault (cfgBurst config) 2%Q) None t)
    as (Hr & Hc & _ & _).
  assert (Hj : (0 <= fst match cfgJitterMs config with
                          | JitterAbsent => (50, 200)
                          | JitterNumber n => (0, Qmax 0 n)
                          | JitterArray a b =>
                              (Qmax 0 (orDefault a 0),
                               Qmax (Qmax 0 (orDefault a 0))
                                    (orDefault b (Qmax 0 (orDefault a 0))))
                          end
                 <= snd match cfgJitterMs config with
                        | JitterAbsent => (50, 200)
                        | JitterNumber n => (0, Qmax 0 n)
                        | JitterArray a b =>
                            (Qmax 0 (orDefault a 0),
                             Qmax (Qmax 0 (orDefault a 0))
                                  (orDefault b (Qmax 0 (orDefault a 0))))
                        end)%Q).
  { destruct (cfgJitterMs config); cbn [fst snd]; split;
      try apply Q.le_max_l; try apply Qle_refl; discriminate. }
  repeat split; try assumption; try lia; try apply Qle_refl; apply Hj.
Qed.

Lemma updateConfig_ok (next : SchedConfig) (s : Sched) :
  configOk s -> configOk (updateConfig next s).
Proof.
  intros (Hm & Hj & Hr & Hc & Ht). unfold configOk, updateConfig.
  cbn [maxConcurrent jitterMin jitterMax limiter].
  destruct (setRate_ok (orDefault (cfgRps next) (rps (limiter s)))
              (orDefault (cfgBurst next) (inject_Z (capacity (limiter s))))
              (Some (tokens (limiter s))) (lastRefill (limiter s)))
    as (Hr' & Hc' & Ht' & _).
  assert (Hj' : (0 <= fst match cfgJitterMs next with
                           | JitterAbsent => (jitterMin s, jitterMax s)
                           | JitterNumber n => (0, Qmax 0 n)
                           | JitterArray a b =>
                               (Qmax 0 (orDefault a (jitterMin s)),
                                Qmax (Qmax 0 (orDefault a (jitterMin s)))
                                     (orDefault b (jitterMax s)))
                           end
                  <= snd match cfgJitterMs next with
                         | JitterAbsent => (jitterMin s, jitterMax s)
                         | JitterNumber n => (0, Qmax 0 n)
                         | JitterArray a b =>
                             (Qmax 0 (orDefault a (jitterMin s)),
                              Qmax (Qmax 0 (orDefault a (jitterMin s)))
                                   (orDefault b (jitterMax s)))
                         end)%Q).
  { destruct (cfgJitterMs next); cbn [fst snd]; [exact Hj| |];
      split; try apply Q.le_max_l; apply Qle_refl. }
  repeat split; try assumption; try lia; apply Hj'.
Qed.

(** X3. Whatever configuration a scheduler is created with and however it
    is reconfigured afterwards, it has at least one slot, an ordered
    non-negative jitter range, a rate of at least 0.001, a capacity of at
    least 1 and no more tokens than its capacity; and a reconfiguration
    touches neither the running count, the throttle deadline nor the closed
    flag, and never adds tokens. *)
Theorem scheduler_config_always_ok
        (config : SchedConfig) (t : Z) (updates : list SchedConfig) :
  configOk (fold_left (fun s next => updateConfig next s) updates
                      (createScheduler config t)) /\
  (forall next s,
      running (updateConfig next s) = running s /\
      tempThrottleUntil (updateConfig next s) = tempThrottleUntil s /\
      closed (updateConfig next s) = closed s /\
      (tokens (limiter (updateConfig next s)) <= tokens (limiter s))%Q).
Proof.
  split.
  - pose proof (createScheduler_ok config t) as H.
    revert H. generalize (createScheduler config t).
    induction updates as [|next updates IH]; intros s Hs; [exact Hs|].
    cbn [fold_left]. apply IH. now apply updateConfig_ok.
  - intros next s. unfold updateConfig.
    cbn [running tempThrottleUntil closed limiter]. repeat split.
    now apply setRate_ok.
Qed.

End ConfigProofs.

Section PoolProofs.
Import Scheduler.

Lemma pumpLoop_spec (maxC : Z) (q : list nat) :
  forall (run : Z) (started : list nat) run' q' started',
    pumpLoop maxC run q started = (run', q', started') ->
    started' ++ q' = started ++ q /\
    run <= run' /\ (run <= maxC -> run' <= maxC) /\
    (q' <> [] -> maxC <= run').
Proof.
  induction q as [|item q IH]; intros run started run' q' started' H.
  - cbn in H. injection H as <- <- <-. repeat split; try lia. congruence.
  - cbn [pumpLoop] in H. destruct (run <? maxC) eqn:E.
    + apply IH in H. destruct H as (Hl & Hr & Hm & Hq).
      apply Z.ltb_lt in E. rewrite <- app_assoc in Hl.
      repeat split; try assumption; lia.
    + injection H as <- <- <-. apply Z.ltb_ge in E.
      repeat split; try lia.
Qed.

Lemma submitted_app (ops : list PoolOp) (op : PoolOp) :
  submitted (ops ++ [op])
  = submitted ops ++ match op with OpEnqueue item => [item] | _ => [] end.
Proof. unfold submitted. rewrite flat_map_app. cbn. now rewrite app_nil_r. Qed.

Lemma pump_inv (maxC : Z) (p : Pool) (items : list nat) :
  poolMax p = maxC -> 0 <= poolRunning p <= maxC ->
  poolStarted p ++ poolQueue p ++ poolRejected p = items ->
  (poolClosed p = true -> poolQueue p = []) ->
  (poolClosed p = false -> poolRejected p = []) ->
  poolMax (pump p) = maxC /\
  0 <= poolRunning (pump p) <= maxC /\
  poolStarted (pump p) ++ poolQueue (pump p) ++ poolRejected (pump p) = items /\
  (poolClosed (pump p) = false -> poolQueue (pump p) <> [] ->
   poolRunning (pump p) = maxC) /\
  (poolClosed (pump p) = true -> poolQueue (pump p) = []) /\
  (poolClosed (pump p) = false -> poolRejected (pump p) = []).
Proof.
  intros Hmax Hrun Hfate Hcl Hop. unfold pump.
  destruct (poolClosed p) eqn:Ec.
  - rewrite Ec. repeat split; auto; try lia; congruence.
  - destruct (pumpLoop (poolMax p) (poolRunning p) (poolQueue p) (poolStarted p))
      as [[run q] started] eqn:E.
    apply pumpLoop_spec in E. destruct E as (Hl & Hr & Hm & Hq).
    cbn [poolMax poolRunning poolStarted poolQueue poolRejected poolClosed].
    rewrite Hmax in *. repeat split; auto; try lia; try congruence;
      try (rewrite app_assoc, Hl, <- app_assoc; exact Hfate);
      try (intros _ Hne; specialize (Hq Hne); lia).
Qed.

Lemma poolStep_inv (maxC : Z) (ops : list PoolOp) (p : Pool) (op : PoolOp) :
  PoolInv maxC ops p -> PoolInv maxC (ops ++ [op]) (poolStep p op).
Proof.
  intros [Hmax Hrun Hfate Hbusy Hcl Hop].
  destruct op as [item| |]; cbn [poolStep].
  - unfold enqueue. destruct (poolClosed p) eqn:Ec.
    + constructor; cbn [poolMax poolRunning poolStarted poolQueue poolRejected
                        poolClosed]; auto; try congruence.
      rewrite submitted_app, <- Hfate, <- !app_assoc. reflexivity.
    + assert (Hrej : poolRejected p = []) by now apply Hop.
      destruct (pump_inv maxC
        (mkPool (poolMax p) (poolRunning p) (poolQueue p ++ [item])
                false (poolStarted p) (poolRejected p))
        (submitted (ops ++ [OpEnqueue item])))
        as (H1 & H2 & H3 & H4 & H5 & H6);
        cbn [poolMax poolRunning poolStarted poolQueue poolRejected poolClosed];
        auto; try congruence.
      { rewrite submitted_app, <- Hfate, Hrej, !app_nil_r, <- app_assoc.
        reflexivity. }
      now constructor.
  - destruct (0 <? poolRunning p) eqn:E.
    + apply Z.ltb_lt in E. unfold finish.
      destruct (pump_inv maxC
        (mkPool (poolMax p) (poolRunning p - 1) (poolQueue p)
                (poolClosed p) (poolStarted p) (poolRejected p))
        (submitted (ops ++ [OpFinish])))
        as (H1 & H2 & H3 & H4 & H5 & H6);
        cbn [poolMax poolRunning poolStarted poolQueue poolRejected poolClosed];
        auto; try lia.
      { rewrite submitted_app, app_nil_r. exact Hfate. }
      now constructor.
    + constructor; auto. rewrite submitted_app, app_nil_r. exact Hfate.
  - unfold close. constructor;
      cbn [poolMax poolRunning poolStarted poolQueue poolRejected poolClosed];
      auto; try congruence.
    rewrite submitted_app, app_nil_r, <- Hfate. cbn [app].
    destruct (poolClosed p) eqn:Ec.
    + now rewrite (Hcl eq_refl), app_nil_r.
    + rewrite (Hop eq_refl). cbn [app]. now rewrite app_nil_r.
Qed.

Lemma runPool_inv (maxC : Z) (ops : list PoolOp) :
  0 <= maxC -> PoolInv maxC ops (runPool ops (newPool maxC)).
Proof.
  intros Hm. unfold runPool.
  induction ops as [|op ops IH] using rev_ind.
  - constructor; cbn; auto; try lia; congruence.
  - rewrite fold_left_app. cbn [fold_left]. now apply poolStep_inv.
Qed.


(** X5. Every submitted task has exactly one fate, and tasks start in the
    order of submission: the tasks started, then the tasks still queued,
    then the tasks rejected with 'Scheduler closed' are the submitted tasks
    in order. *)
Theorem pool_fifo_fates (maxC : Z) (ops : list PoolOp) :
  0 <= maxC ->
  poolStarted (runPool ops (newPool maxC))
  ++ poolQueue (runPool ops (newPool maxC))
  ++ poolRejected (runPool ops (newPool maxC))
  = submitted ops.
Proof. intros Hm. now destruct (runPool_inv maxC ops Hm). Qed.

(** X6. [close()] rejects every queued task and leaves the running count
    as it is; afterwards no task is started any more, the queue stays
    empty, and every task submitted later is rejected. *)
Theorem pool_close_is_final (p0 : Pool) (ops : list PoolOp) :
  poolRunning (close p0) = poolRunning p0 /\
  poolStarted (runPool ops (close p0)) = poolStarted p0 /\
  poolQueue (runPool ops (close p0)) = [] /\
  poolClosed (runPool ops (close p0)) = true /\
  poolRejected (runPool ops (close p0))
  = poolRejected p0 ++ poolQueue p0 ++ submitted ops.
Proof.
  split; [reflexivity|].
  assert (H : forall p, poolClosed p = true -> poolQueue p = [] ->
            poolStarted (runPool ops p) = poolStarted p /\
            poolQueue (runPool ops p) = [] /\
            poolClosed (runPool ops p) = true /\
            poolRejected (runPool ops p) = poolRejected p ++ submitted ops).
  { unfold runPool. induction ops as [|op ops IH]; intros p Hc Hq.
    - cbn. now rewrite app_nil_r.
    - cbn [fold_left]. destruct op as [item| |]; cbn [poolStep].
      + unfold enqueue. rewrite Hc.
        edestruct IH as (H1 & H2 & H3 & H4); [| |repeat split; eauto];
          cbn [poolClosed poolQueue]; auto.
        rewrite H4. cbn [poolRejected submitted flat_map app].
        now rewrite <- app_assoc.
      + destruct (0 <? poolRunning p).
        * unfold finish, pump. cbn [poolClosed]. rewrite Hc.
          edestruct IH as (H1 & H2 & H3 & H4); [| |repeat split; eauto];
            cbn [poolClosed poolQueue]; auto.
        * now apply IH.
      + unfold close. rewrite Hq, app_nil_r.
        edestruct IH as (H1 & H2 & H3 & H4); [| |repeat split; eauto];
          cbn [poolClosed poolQueue]; auto.
  }
  destruct (H (close p0) eq_refl eq_refl) as (H1 & H2 & H3 & H4).
  repeat split; auto. rewrite H4. cbn [close poolRejected].
  now rewrite <- app_assoc.
Qed.

End PoolProofs.

Section RetryProofs.
Import Scheduler.

Context {X A : Type}.
Variable env : Env.
Variable fn : nat -> Rt * X -> Outcome A * (Rt * X).
Variable opts : RetryOpts.
Variable onRetry : RetryInfo -> Rt * X -> Rt * X.



End RetryProofs.

(* ----------------------------------------------------------------- *)
(** ** background.js: requests and retries *)

Section BatchRetryProofs.
Import Scheduler Prompt Background.

Variable env : Env.
Variable net : Net.
Variable cfg : Config.
Variable texts : list jsstring.



Lemma getRetryOpts_http (code : Z) (body : jsstring) (attempt : nat) :
  code <> 0 ->
  classify (getRetryOpts cfg) (httpError [] code body) attempt
  = includes code (retryRetryOn cfg).
Proof.
  intros Hc. unfold classify, getRetryOpts. cbn [isRetriable].
  change (isAbortName (httpError [] code body)) with false. cbn [status httpError].
  now rewrite (proj2 (Z.eqb_neq code 0) Hc).
Qed.

Variable code : Z.
Variable bodyOf : nat -> jsstring.
Hypothesis always_status : forall k, respondBatch net texts k = Http code (bodyOf k).
Hypothesis code_nonzero : code <> 0.




End BatchRetryProofs.

Section BatchRecoveryProofs.
Import Scheduler Prompt Background.

Variable env : Env.
Variable net : Net.
Variable cfg : Config.

Lemma backoffDelay_now (attempt : nat) (opts : RetryOpts) (rt : Rt) :
  now (snd (backoffDelay env attempt opts rt)) = now rt.
Proof. unfold backoffDelay. now destruct (jitter opts). Qed.

(** X9. A batch request answered once with a rate-limit or server-error
    status of [retryOn] and then with an array of the right length succeeds
    at the second request: exactly two requests are issued, the result is the
    array, and the scheduler's throttle deadline is set to 60 s after the
    failed request ended. *)
Theorem batchAttempt_recovers_after_throttled_status
        (texts arr : list jsstring) (code : Z) (body : jsstring) (st : State) :
  (1 <= retryMaxRetries cfg)%nat ->
  throttlesOn code = true ->
  includes code (retryRetryOn cfg) = true ->
  respondBatch net texts (length (calls (snd st))) = Http code body ->
  respondBatch net texts (S (length (calls (snd st)))) = Payload (Some arr) ->
  length arr = length texts ->
  exists st',
    batchAttempt env net (getRetryOpts cfg) texts st = (Returned arr, st') /\
    calls (snd st') = calls (snd st) ++ [ReqBatch texts; ReqBatch texts] /\
    throttleUntil (snd st')
    = now (fst st) + Z.of_N (latency net (length (calls (snd st)))) + 60000.
Proof.
  intros Hmax Hthr Hinc H1 H2 Hlen.
  assert (Hcode : code <> 0).
  { intros ->. discriminate. }
  unfold batchAttempt, scheduledFetch, withRetry.
  change (maxRetries (getRetryOpts cfg)) with (retryMaxRetries cfg).
  destruct (retryMaxRetries cfg) as [|m] eqn:Em; [lia|].
  cbn [retryLoop].
  destruct st as [rt w]. cbn [snd fst] in *.
  unfold fetchOpenaiBatch at 1. cbn [issue]. rewrite H1.
  fold (classify (getRetryOpts cfg) (httpError [] code body) 0).
  rewrite getRetryOpts_http, Hinc by assumption. cbn [negb fst snd].
  pose proof (backoffDelay_now 1 (getRetryOpts cfg)
                (mkRt (now rt + Z.of_N (latency net (length (calls w))))
                      (timers rt) (draws rt))) as Hnow.
  destruct (backoffDelay env 1 (getRetryOpts cfg) _) as [delay rt2].
  cbn [snd now] in Hnow. cbn [ri_status extractStatus status httpError].
  unfold throttlesOn in Hthr. rewrite Hthr. cbn [throttle fst snd].
  eexists. split.
  - apply retryLoop_returned. unfold fetchOpenaiBatch. cbn [issue calls].
    rewrite length_app, Nat.add_1_r, H2. unfold acceptArray.
    rewrite Hlen, Nat.eqb_refl, orb_true_r. reflexivity.
  - cbn [snd calls throttleUntil]. rewrite <- app_assoc, Hnow. split; reflexivity.
Qed.

End BatchRecoveryProofs.

(* ----------------------------------------------------------------- *)
(** ** cache.js *)

Section CacheMoreProofs.

Lemma evictIfNeeded_skipn (s : Z) (m : Cache.JsMap) :
  Cache.evictIfNeeded s m = skipn (length m - Z.to_nat s) m.
Proof.
  induction m as [|a m IH]; [reflexivity|].
  cbn [Cache.evictIfNeeded]. destruct (s <? Z.of_nat (length (a :: m))) eqn:E.
  - apply Z.ltb_lt in E. cbn [length] in *.
    replace (S (length m) - Z.to_nat s)%nat
      with (S (length m - Z.to_nat s)) by lia.
    cbn [skipn]. exact IH.
  - apply Z.ltb_ge in E. cbn [length] in *.
    replace (S (length m) - Z.to_nat s)%nat with 0%nat by lia. reflexivity.
Qed.

Lemma evictIfNeeded_length (s : Z) (m : Cache.JsMap) :
  0 <= s -> Z.of_nat (length (Cache.evictIfNeeded s m)) <= s.
Proof.
  intros Hs. rewrite evictIfNeeded_skipn, length_skipn. lia.
Qed.

Lemma keysOf_skipn (n : nat) (m : Cache.JsMap) :
  Cache.keysOf (skipn n m) = skipn n (Cache.keysOf m).
Proof. unfold Cache.keysOf. now rewrite skipn_map. Qed.

Lemma NoDup_skipn {A} (n : nat) (l : list A) : NoDup l -> NoDup (skipn n l).
Proof.
  revert l. induction n as [|n IH]; intros [|a l] H; cbn; auto.
  inversion H; subst. now apply IH.
Qed.

Lemma In_skipn {A} (n : nat) (l : list A) (x : A) : In x (skipn n l) -> In x l.
Proof.
  revert l. induction n as [|n IH]; intros [|a l] H; cbn in *; auto.
Qed.

Lemma evictIfNeeded_NoDup (s : Z) (m : Cache.JsMap) :
  NoDup (Cache.keysOf m) -> NoDup (Cache.keysOf (Cache.evictIfNeeded s m)).
Proof.
  intros H. rewrite evictIfNeeded_skipn, keysOf_skipn. now apply NoDup_skipn.
Qed.

Lemma mapDelete_mapSet (k : jsstring) (e : Cache.Entry) (m : Cache.JsMap) :
  Cache.mapDelete k (Cache.mapSet k e m) = Cache.mapDelete k m.
Proof.
  induction m as [|[k0 e0] m IH]; cbn.
  - now rewrite jsstring_eqb_refl.
  - destruct (jsstring_eqb k0 k) eqn:E; cbn; rewrite E; [reflexivity|].
    now rewrite IH.
Qed.

Lemma mapSet_fresh (k : jsstring) (e : Cache.Entry) (m : Cache.JsMap) :
  ~ In k (Cache.keysOf m) -> Cache.mapSet k e m = m ++ [(k, e)].
Proof.
  induction m as [|[k0 e0] m IH]; cbn; intros H; [reflexivity|].
  rewrite jsstring_eqb_neq by tauto. f_equal. apply IH. tauto.
Qed.

Lemma mapDelete_absent (k : jsstring) (m : Cache.JsMap) :
  ~ In k (Cache.keysOf m) -> Cache.mapDelete k m = m.
Proof.
  induction m as [|[k0 e0] m IH]; cbn; intros H; [reflexivity|].
  rewrite jsstring_eqb_neq by tauto. f_equal. apply IH. tauto.
Qed.

(** Touching moves the entry to the most recent position. *)
Lemma touch_shape (k : jsstring) (e : Cache.Entry) (m : Cache.JsMap) :
  NoDup (Cache.keysOf m) ->
  Cache.touch k e m = Cache.mapDelete k m ++ [(k, e)].
Proof.
  intros H. unfold Cache.touch. apply mapSet_fresh. now apply mapDelete_removes.
Qed.

Lemma evictIfNeeded_snoc (s : Z) (m : Cache.JsMap) (x : jsstring * Cache.Entry) :
  1 <= s ->
  Cache.evictIfNeeded s (m ++ [x]) = Cache.evictIfNeeded (s - 1) m ++ [x].
Proof.
  intros Hs. rewrite !evictIfNeeded_skipn, length_app. cbn [length].
  rewrite skipn_app.
  replace (length m + 1 - Z.to_nat s)%nat
    with (length m - Z.to_nat (s - 1))%nat by lia.
  f_equal.
  replace (length m - Z.to_nat (s - 1) - length m)%nat with 0%nat by lia.
  reflexivity.
Qed.

(** The map after [set]: the entry is the most recent one, the others keep
    their order, and the oldest go when there are too many. *)
Lemma set_shape (k : jsstring) (v : Cache.JsVal) (ttl : option Z) (t : Z)
      (c : Cache.LRUCache) :
  Cache.cacheOk c -> Cache.enabled c = true ->
  Cache.map (Cache.set k v ttl t c)
  = Cache.evictIfNeeded (Cache.size c - 1) (Cache.mapDelete k (Cache.map c))
    ++ [(k, Cache.mkEntry v (Cache.expiryOf ttl t c))].
Proof.
  intros [Hnd Hsz] Hen. unfold Cache.set. rewrite Hen. cbn [negb Cache.withMap Cache.map].
  fold (Cache.expiryOf ttl t c). unfold Cache.touch.
  rewrite mapDelete_mapSet.
  rewrite mapSet_fresh by now apply mapDelete_removes.
  now apply evictIfNeeded_snoc.
Qed.






Lemma mapDelete_length (k : jsstring) (m : Cache.JsMap) :
  (length (Cache.mapDelete k m) <= length m)%nat.
Proof.
  induction m as [|[k0 e0] m IH]; cbn; [lia|].
  destruct (jsstring_eqb k0 k); cbn; lia.
Qed.

Lemma mapDelete_length_present (k : jsstring) (e : Cache.Entry) (m : Cache.JsMap) :
  Cache.mapGet k m = Some e ->
  S (length (Cache.mapDelete k m)) = length m.
Proof.
  induction m as [|[k0 e0] m IH]; cbn; [discriminate|].
  destruct (jsstring_eqb k0 k); cbn; [reflexivity|].
  intros H. now rewrite IH.
Qed.

Lemma get_fits (k : jsstring) (t : Z) (c : Cache.LRUCache) :
  Cache.cacheFits c -> Cache.cacheFits (snd (Cache.get k t c)).
Proof.
  intros [[Hnd Hsz] Hlen].
  pose proof (proj1 (get_stable k t c Hnd)) as Hnd'.
  split; [split; [exact Hnd'|]|].
  - unfold Cache.get. destruct (negb (Cache.enabled c)); [exact Hsz|].
    destruct (Cache.mapGet k (Cache.map c)); [|exact Hsz].
    now destruct (Cache.isExpired t e).
  - unfold Cache.get. destruct (negb (Cache.enabled c)); [exact Hlen|].
    destruct (Cache.mapGet k (Cache.map c)) as [e|] eqn:Eg; [|exact Hlen].
    destruct (Cache.isExpired t e); cbn [snd Cache.withMap Cache.map Cache.size].
    + pose proof (mapDelete_length k (Cache.map c)). lia.
    + rewrite touch_shape by assumption. rewrite length_app. cbn [length].
      pose proof (mapDelete_length_present k e (Cache.map c) Eg). lia.
Qed.

Lemma set_fits (k : jsstring) (v : Cache.JsVal) (ttl : option Z) (t : Z)
      (c : Cache.LRUCache) :
  Cache.cacheFits c -> Cache.cacheFits (Cache.set k v ttl t c).
Proof.
  intros [Hok Hlen]. destruct (Cache.enabled c) eqn:Hen.
  - pose proof (set_shape k v ttl t c Hok Hen) as Hshape.
    destruct Hok as [Hnd Hsz].
    assert (Hsize : Cache.size (Cache.set k v ttl t c) = Cache.size c).
    { unfold Cache.set. now destruct (negb (Cache.enabled c)). }
    split; [split|]; rewrite ?Hsize; [|exact Hsz|].
    + rewrite Hshape. unfold Cache.keysOf. rewrite map_app. cbn [List.map fst].
      fold (Cache.keysOf (Cache.evictIfNeeded (Cache.size c - 1)
                            (Cache.mapDelete k (Cache.map c)))).
      apply NoDup_app; repeat split.
      * apply evictIfNeeded_NoDup. now apply mapDelete_NoDup.
      * repeat constructor. intros [].
      * intros x Hx [<-|[]].
        rewrite evictIfNeeded_skipn, keysOf_skipn in Hx. apply In_skipn in Hx.
        now apply (mapDelete_removes k (Cache.map c)).
    + rewrite Hshape, length_app. cbn [length].
      pose proof (evictIfNeeded_length (Cache.size c - 1)
                    (Cache.mapDelete k (Cache.map c))). lia.
  - unfold Cache.set. rewrite Hen. cbn [negb]. now split.
Qed.

Lemma set_touch (k : jsstring) (v : Cache.JsVal) (ttl : option Z) (t : Z)
      (c : Cache.LRUCache) :
  Cache.enabled c = true ->
  Cache.map (Cache.set k v ttl t c)
  = Cache.evictIfNeeded (Cache.size c)
      (Cache.touch k (Cache.mkEntry v (Cache.expiryOf ttl t c)) (Cache.map c)).
Proof.
  intros Hen. unfold Cache.set. rewrite Hen. cbn [negb Cache.withMap Cache.map].
  fold (Cache.expiryOf ttl t c). unfold Cache.touch.
  now rewrite mapDelete_mapSet.
Qed.

Lemma set_size (k : jsstring) (v : Cache.JsVal) (ttl : option Z) (t : Z)
      (c : Cache.LRUCache) :
  Cache.size (Cache.set k v ttl t c) = Cache.size c.
Proof. unfold Cache.set. now destruct (negb (Cache.enabled c)). Qed.

Lemma get_size (k : jsstring) (t : Z) (c : Cache.LRUCache) :
  Cache.size (snd (Cache.get k t c)) = Cache.size c.
Proof.
  unfold Cache.get. destruct (negb (Cache.enabled c)); [reflexivity|].
  destruct (Cache.mapGet k (Cache.map c)) as [e|]; [|reflexivity].
  now destruct (Cache.isExpired t e).
Qed.

Lemma get_length (k : jsstring) (t : Z) (c : Cache.LRUCache) :
  NoDup (Cache.keysOf (Cache.map c)) ->
  (length (Cache.map (snd (Cache.get k t c))) <= length (Cache.map c))%nat.
Proof.
  intros Hnd. unfold Cache.get.
  destruct (negb (Cache.enabled c)); [cbn [snd]; lia|].
  destruct (Cache.mapGet k (Cache.map c)) as [e|] eqn:Eg; [|cbn [snd]; lia].
  destruct (Cache.isExpired t e); cbn [snd Cache.withMap Cache.map].
  - apply mapDelete_length.
  - rewrite touch_shape by assumption. rewrite length_app. cbn [length].
    pose proof (mapDelete_length_present k e (Cache.map c) Eg). lia.
Qed.

(** Every call keeps the keys unique and the map within [size], also when
    [size] is 0. *)
Lemma applyOp_bounded (c : Cache.LRUCache) (o : Cache.Op) :
  Cache.cacheBounded c -> Cache.cacheBounded (Cache.applyOp c o).
Proof.
  intros (Hnd & Hlen & Hsz).
  assert (Hget : forall k t, Cache.cacheBounded (snd (Cache.get k t c))).
  { intros k t. split; [apply (get_stable k t c Hnd)|].
    rewrite get_size. pose proof (get_length k t c Hnd). split; lia. }
  destruct o as [k t|k v ttl t|k t| k | |sz ttl en]; cbn [Cache.applyOp].
  - apply Hget.
  - destruct (Cache.enabled c) eqn:Hen.
    + split; [|split]; rewrite ?set_size, ?set_touch by assumption.
      * apply evictIfNeeded_NoDup. now apply touch_NoDup.
      * now apply evictIfNeeded_length.
      * exact Hsz.
    + unfold Cache.set. rewrite Hen. cbn [negb]. now repeat split.
  - unfold Cache.has. specialize (Hget k t).
    now destruct (Cache.get k t c).
  - unfold Cache.delete. split; [|split];
      cbn [Cache.withMap Cache.map Cache.size]; auto.
    + now apply mapDelete_NoDup.
    + pose proof (mapDelete_length k (Cache.map c)). lia.
  - unfold Cache.clear. split; [|split];
      cbn [Cache.withMap Cache.map Cache.size length]; auto. constructor.
  - unfold Cache.updateOptions.
    assert (Hsz' : 0 <= match sz with
                        | Some n => if negb (Qle_bool n 0) then Qfloor n
                                    else Cache.size c
                        | None => Cache.size c
                        end).
    { destruct sz as [n|]; [|exact Hsz].
      destruct (Qle_bool n 0) eqn:E; cbn [negb]; [exact Hsz|].
      assert (Hn : ~ (n <= 0)%Q) by (rewrite <- Qle_bool_iff; congruence).
      change 0 with (Qfloor 0). apply Qfloor_resp_le. lra. }
    split; [|split]; cbn [Cache.map Cache.size]; auto.
    + now apply evictIfNeeded_NoDup.
    + now apply evictIfNeeded_length.
Qed.

(** Only an [updateOptions] with a size strictly between 0 and 1 takes the
    last room away. *)
Lemma applyOp_room (c : Cache.LRUCache) (o : Cache.Op) :
  Cache.keepsRoom o = true -> 1 <= Cache.size c ->
  1 <= Cache.size (Cache.applyOp c o).
Proof.
  intros Hk Hsz.
  destruct o as [k t|k v ttl t|k t| k | |sz ttl en]; cbn [Cache.applyOp].
  - now rewrite get_size.
  - now rewrite set_size.
  - unfold Cache.has. pose proof (get_size k t c) as H.
    destruct (Cache.get k t c). cbn [snd] in *. lia.
  - exact Hsz.
  - exact Hsz.
  - unfold Cache.updateOptions. cbn [Cache.size].
    destruct sz as [n|]; [|exact Hsz]. cbn [Cache.keepsRoom] in Hk.
    destruct (Qle_bool n 0) eqn:E; cbn [negb orb] in *; [exact Hsz|].
    apply Qle_bool_iff in Hk.
    change 1 with (Qfloor 1). now apply Qfloor_resp_le.
Qed.

(** X12. Whatever whole size and TTL a cache is built with and whatever
    sequence of [get], [set], [has], [delete], [clear] and [updateOptions]
    calls (the last with sizes and TTLs whole or not) follows,
    the map never holds a key twice and never holds more than [size]
    entries. [size] is never negative, but it is 0 after an [updateOptions]
    with a size strictly between 0 and 1 ([Math.floor] comes after the test
    [size > 0]); as long as no such call is made, [size] stays at least 1. *)
Theorem cache_never_exceeds_size (size0 ttlMs0 : Z) (enabled0 : bool)
        (ops : list Cache.Op) :
  Cache.cacheBounded
    (Cache.applyOps ops (Cache.newLRUCache size0 ttlMs0 enabled0)) /\
  (forallb Cache.keepsRoom ops = true ->
   Cache.cacheFits
     (Cache.applyOps ops (Cache.newLRUCache size0 ttlMs0 enabled0))).
Proof.
  assert (H0 : Cache.cacheBounded (Cache.newLRUCache size0 ttlMs0 enabled0) /\
               1 <= Cache.size (Cache.newLRUCache size0 ttlMs0 enabled0)).
  { unfold Cache.newLRUCache. split; [split; [|split]|]; cbn;
      [constructor|lia|lia|lia]. }
  revert H0. generalize (Cache.newLRUCache size0 ttlMs0 enabled0).
  unfold Cache.applyOps. induction ops as [|o ops IH]; intros c [Hb Hsz].
  - cbn [fold_left]. split; [exact Hb|]. intros _.
    destruct Hb as (Hnd & Hlen & _). now repeat split.
  - cbn [fold_left forallb]. split.
    + destruct (Z.le_gt_cases 1 (Cache.size (Cache.applyOp c o))) as [H1|H1].
      * apply IH. split; [now apply applyOp_bounded|exact H1].
      * pose proof (applyOp_bounded c o Hb) as Hb'.
        clear IH Hb Hsz. revert Hb'. generalize (Cache.applyOp c o).
        induction ops as [|o' ops IH']; intros c' Hb'; [exact Hb'|].
        cbn [fold_left]. apply IH'. now apply applyOp_bounded.
    + intros Hall. apply andb_true_iff in Hall. destruct Hall as [Ho Hall].
      apply IH; [|exact Hall].
      split; [now apply applyOp_bounded|now apply applyOp_room].
Qed.

Lemma set_new_key_shape (k : jsstring) (v : Cache.JsVal)
        (ttl : option Z) (t : Z) (c : Cache.LRUCache) :
  Cache.cacheFits c -> Cache.enabled c = true ->
  ~ In k (Cache.keysOf (Cache.map c)) ->
  Cache.map (Cache.set k v ttl t c)
  = (if Z.of_nat (length (Cache.map c)) <? Cache.size c
     then Cache.map c else tl (Cache.map c))
    ++ [(k, Cache.mkEntry v (Cache.expiryOf ttl t c))].
Proof.
  intros [Hok Hlen] Hen Hnew. rewrite set_shape by assumption.
  rewrite mapDelete_absent by assumption. f_equal.
  rewrite evictIfNeeded_skipn.
  destruct (Z.of_nat (length (Cache.map c)) <? Cache.size c) eqn:E.
  - apply Z.ltb_lt in E.
    replace (length (Cache.map c) - Z.to_nat (Cache.size c - 1))%nat
      with 0%nat by lia. reflexivity.
  - apply Z.ltb_ge in E. destruct Hok as [_ Hsz].
    replace (length (Cache.map c) - Z.to_nat (Cache.size c - 1))%nat
      with 1%nat by lia.
    now destruct (Cache.map c).
Qed.


(** X14. A hit protects an entry from eviction: on a full cache whose least
    recently used entry is [k0], reading [k0] and then inserting a new key
    keeps [k0] and drops the entry that came second. *)
Theorem get_hit_protects_from_eviction
        (k0 k1 k : jsstring) (e0 e1 : Cache.Entry) (rest : Cache.JsMap)
        (v : Cache.JsVal) (ttl : option Z) (t t' : Z) (c : Cache.LRUCache) :
  Cache.cacheFits c -> Cache.enabled c = true ->
  Cache.map c = (k0, e0) :: (k1, e1) :: rest ->
  Z.of_nat (length (Cache.map c)) = Cache.size c ->
  Cache.isExpired t e0 = false ->
  ~ In k (Cache.keysOf (Cache.map c)) ->
  fst (Cache.get k0 t c) = Cache.v e0 /\
  Cache.map (Cache.set k v ttl t' (snd (Cache.get k0 t c)))
  = rest ++ [(k0, e0); (k, Cache.mkEntry v (Cache.expiryOf ttl t' c))].
Proof.
  intros Hfit Hen Hmap Hfull Hlive Hnew.
  pose proof (get_fits k0 t c Hfit) as Hfit1.
  assert (Hget : Cache.get k0 t c
                 = (Cache.v e0,
                    Cache.withMap c ((k1, e1) :: rest ++ [(k0, e0)]))).
  { destruct Hfit as [[Hnd _] _]. unfold Cache.get. rewrite Hen. cbn [negb].
    rewrite Hmap in *. cbn [Cache.mapGet]. rewrite jsstring_eqb_refl, Hlive.
    rewrite touch_shape by assumption.
    cbn [Cache.mapDelete]. rewrite jsstring_eqb_refl. reflexivity. }
  rewrite Hget in *. cbn [fst snd] in *. split; [reflexivity|].
  rewrite set_new_key_shape; cbn [Cache.withMap Cache.map Cache.size Cache.enabled];
    auto.
  - replace (Z.of_nat (length ((k1, e1) :: rest ++ [(k0, e0)])) <? Cache.size c)
      with false.
    + cbn [tl]. rewrite <- app_assoc. reflexivity.
    + symmetry. apply Z.ltb_ge. rewrite <- Hfull, Hmap. cbn [length].
      rewrite length_app. cbn [length]. lia.
  - rewrite Hmap in Hnew. unfold Cache.keysOf in *. cbn [List.map fst] in *.
    rewrite map_app. cbn [In] in *. rewrite in_app_iff. cbn [List.map fst In].
    tauto.
Qed.

(** X15. [updateOptions({ size: n })] with a positive number [n] sets
    [size] to [Math.floor(n)] and keeps exactly that many most recently used
    entries, in their order; a size that is zero or negative is ignored. A
    size strictly between 0 and 1 therefore empties the cache and leaves
    [size] at 0, after which every [set] is evicted at once. *)
Theorem updateOptions_keeps_most_recent (n : Q) (ttl0 : option Q)
        (en0 : option bool) (c : Cache.LRUCache) :
  Cache.cacheFits c ->
  Cache.size (Cache.updateOptions (Some n) ttl0 en0 c)
  = (if Qle_bool n 0 then Cache.size c else Qfloor n) /\
  Cache.map (Cache.updateOptions (Some n) ttl0 en0 c)
  = (if Qle_bool n 0 then Cache.map c
     else skipn (length (Cache.map c) - Z.to_nat (Qfloor n)) (Cache.map c)) /\
  ((0 < n < 1)%Q ->
   Cache.size (Cache.updateOptions (Some n) ttl0 en0 c) = 0 /\
   Cache.map (Cache.updateOptions (Some n) ttl0 en0 c) = [] /\
   forall k v ttl t,
     Cache.map (Cache.set k v ttl t (Cache.updateOptions (Some n) ttl0 en0 c))
     = []).
Proof.
  intros [_ Hlen].
  assert (Hsize : Cache.size (Cache.updateOptions (Some n) ttl0 en0 c)
                  = (if Qle_bool n 0 then Cache.size c else Qfloor n)).
  { unfold Cache.updateOptions. cbn [Cache.size].
    now destruct (Qle_bool n 0). }
  assert (Hmap : Cache.map (Cache.updateOptions (Some n) ttl0 en0 c)
                 = (if Qle_bool n 0 then Cache.map c
                    else skipn (length (Cache.map c) - Z.to_nat (Qfloor n))
                               (Cache.map c))).
  { unfold Cache.updateOptions. cbn [Cache.map]. rewrite evictIfNeeded_skipn.
    destruct (Qle_bool n 0); cbn [negb]; [|reflexivity].
    replace (length (Cache.map c) - Z.to_nat (Cache.size c))%nat with 0%nat
      by lia.
    reflexivity. }
  split; [exact Hsize|]. split; [exact Hmap|]. intros [Hn0 Hn1].
  assert (E : Qle_bool n 0 = false).
  { destruct (Qle_bool n 0) eqn:E; [|reflexivity].
    apply Qle_bool_iff in E. lra. }
  assert (Hfl : Qfloor n = 0).
  { apply Qfloor_unique. change (inject_Z 0) with 0%Q.
    change (inject_Z (0 + 1)) with 1%Q. split; lra. }
  rewrite E, Hfl in Hsize, Hmap. cbn [Z.to_nat] in Hmap.
  rewrite Nat.sub_0_r, skipn_all in Hmap.
  split; [exact Hsize|]. split; [exact Hmap|].
  intros k v ttl t.
  destruct (Cache.enabled (Cache.updateOptions (Some n) ttl0 en0 c)) eqn:Hen.
  - rewrite set_touch, Hsize, evictIfNeeded_skipn by assumption.
    cbn [Z.to_nat]. rewrite Nat.sub_0_r. apply skipn_all.
  - unfold Cache.set. rewrite Hen. cbn [negb]. exact Hmap.
Qed.

(** X16. [delete(key)] makes the next [get(key)] a miss and changes the
    answer of a lookup of no other key. *)
Theorem delete_then_get (k : jsstring) (t : Z) (c : Cache.LRUCache) :
  Cache.cacheFits c ->
  fst (Cache.get k t (Cache.delete k c)) = Cache.Undefined /\
  forall k', k' <> k ->
    fst (Cache.get k' t (Cache.delete k c)) = fst (Cache.get k' t c).
Proof.
  intros [[Hnd _] _]. unfold Cache.get, Cache.delete.
  cbn [Cache.withMap Cache.map Cache.enabled]. split.
  - rewrite mapGet_notin by now apply mapDelete_removes.
    now destruct (negb (Cache.enabled c)).
  - intros k' Hne. rewrite mapGet_mapDelete_other by congruence.
    destruct (negb (Cache.enabled c)); [reflexivity|].
    destruct (Cache.mapGet k' (Cache.map c)) as [e|]; [|reflexivity].
    now destruct (Cache.isExpired t e).
Qed.

Lemma hexDigit_lower (d : Z) :
  0 <= d < 16 -> Cache.isLowerHex (Cache.hexDigit d) = true.
Proof.
  intros H. unfold Cache.isLowerHex, Cache.hexDigit.
  destruct (d <? 10) eqn:E; [apply Z.ltb_lt in E|apply Z.ltb_ge in E];
    apply orb_true_iff; [left|right]; apply andb_true_iff;
    split; apply Z.leb_le; lia.
Qed.

(** X17. [fnv1a32] always returns eight characters, each a digit or a
    lower-case letter from a to f. *)
Theorem fnv1a32_format (s : jsstring) :
  length (Cache.fnv1a32 s) = 8%nat /\
  forallb Cache.isLowerHex (Cache.fnv1a32 s) = true.
Proof.
  unfold Cache.fnv1a32, Cache.hex8. split; [reflexivity|].
  cbn [List.map forallb].
  rewrite !hexDigit_lower by (apply Z.mod_pos_bound; lia). reflexivity.
Qed.

End CacheMoreProofs.

(* ----------------------------------------------------------------- *)
(** ** prompt.js *)

Section PromptMoreProofs.
Import Prompt.

Variable b : Budget.
Hypothesis items_pos : 0 < maxItems b.
Hypothesis chars_pos : 0 < maxChars b.
Hypothesis tokens_pos : 0 < tokenBudget b.

Lemma chunkChars_In (t : jsstring) (c : list jsstring) :
  In t c -> jslength t <= chunkChars c.
Proof.
  induction c as [|x c IH]; [intros []|].
  intros [<-|Hin]; unfold chunkChars in *; cbn [fold_right].
  - pose proof (chunkChars_nonneg c). unfold chunkChars in *. lia.
  - specialize (IH Hin). unfold jslength in *. lia.
Qed.

Lemma chunkTokens_In (t : jsstring) (c : list jsstring) :
  In t c -> estimateTokens t <= chunkTokens c.
Proof.
  induction c as [|x c IH]; [intros []|].
  intros [<-|Hin]; unfold chunkTokens in *; cbn [fold_right].
  - pose proof (chunkTokens_nonneg c). unfold chunkTokens in *. lia.
  - specialize (IH Hin). pose proof (estimateTokens_nonneg x). lia.
Qed.

(** X18. An input that alone exceeds the character ceiling or the token
    budget is never merged with a neighbour: the chunk that holds it holds
    nothing else. *)
Theorem splitInputsByBudget_oversized_alone (inputs : list jsstring)
        (t : jsstring) (c : list jsstring) :
  maxChars b < jslength t \/ tokenBudget b < estimateTokens t ->
  In c (splitInputsByBudget inputs b) -> In t c -> c = [t].
Proof.
  intros Hbig Hc Ht.
  pose proof (SplitInv_loop b items_pos chars_pos tokens_pos inputs) as Hinv.
  assert (Hfin : SplitInv b inputs (flush (splitLoop b inputs))).
  { destruct Hinv. apply SplitInv_flush; auto.
    intros Hne. now apply under_chunk_ok. }
  destruct Hfin as [_ Hok _ _ _]. rewrite Forall_forall in Hok.
  destruct (Hok c Hc) as (Hne & Hfits & _).
  destruct c as [|x [|y c]]; [contradiction| |].
  - destruct Ht as [<-|[]]. reflexivity.
  - exfalso. destruct Hfits as (_ & Hch & Htk); [cbn; lia|].
    pose proof (chunkChars_In t _ Ht). pose proof (chunkTokens_In t _ Ht). lia.
Qed.

End PromptMoreProofs.

Section TokenEstimateProofs.
Import Prompt.

(** X19. The token estimate of a string lies between a quarter of its
    length, rounded up, and its length. *)
Theorem estimateTokens_bounds (s : jsstring) :
  ceilDiv (jslength s) 4 <= estimateTokens s <= jslength s.
Proof.
  unfold estimateTokens.
  pose proof (estimateTokens_cjk_bounds s 0) as H.
  set (cjk := fold_left (fun cjk ch => if isCjk ch then cjk + 1 else cjk) s 0) in *.
  set (n := jslength s) in *. unfold ceilDiv.
  rewrite Z.max_r by lia.
  pose proof (Z.div_mod (- (n - cjk)) 4 ltac:(lia)).
  pose proof (Z.mod_pos_bound (- (n - cjk)) 4 ltac:(lia)).
  pose proof (Z.div_mod (- n) 4 ltac:(lia)).
  pose proof (Z.mod_pos_bound (- n) 4 ltac:(lia)).
  lia.
Qed.

Lemma trimStart_In (c : Z) (s : jsstring) : In c (trimStart s) -> In c s.
Proof.
  induction s as [|x s IH]; cbn; [tauto|].
  destruct (isJsSpace x); cbn; tauto.
Qed.

Lemma trimStart_length (s : jsstring) : (length (trimStart s) <= length s)%nat.
Proof.
  induction s as [|x s IH]; cbn; [lia|].
  destruct (isJsSpace x); cbn; lia.
Qed.

Lemma trim_In (c : Z) (s : jsstring) : In c (trim s) -> In c s.
Proof.
  unfold trim. intros H. apply in_rev in H. apply trimStart_In in H.
  apply in_rev in H. now apply trimStart_In.
Qed.

Lemma trim_length (s : jsstring) : jslength (trim s) <= jslength s.
Proof.
  unfold trim, jslength. rewrite length_rev.
  pose proof (trimStart_length (rev (trimStart s))) as H.
  rewrite length_rev in H. pose proof (trimStart_length s). lia.
Qed.

(** X20. A segment that [isSkippableSegment] lets through holds at least
    one ASCII letter, digit or CJK character and is at least
    [max(0, minLen | 0)] code units long; a text of spaces, punctuation and
    symbols only is skipped whatever [minLen] is. *)
Theorem isSkippableSegment_false (text : jsstring) (minLen : Z) :
  isSkippableSegment text minLen = false ->
  (exists c, In c text /\ isLetterLike c = true) /\
  Z.max 0 (toInt32 minLen) <= jslength text.
Proof.
  unfold isSkippableSegment.
  destruct (jslength (trim text) <? Z.max 0 (toInt32 minLen)) eqn:E;
    [discriminate|].
  apply Z.ltb_ge in E. intros H. apply Z.leb_gt in H. split.
  - destruct (filter isLetterLike (trim text)) as [|c l] eqn:Ef; [cbn in H; lia|].
    assert (Hin : In c (filter isLetterLike (trim text))) by (rewrite Ef; now left).
    apply filter_In in Hin. destruct Hin as [Hin Hl].
    exists c. split; [now apply trim_In|exact Hl].
  - pose proof (trim_length text). lia.
Qed.

End TokenEstimateProofs.

(* ----------------------------------------------------------------- *)
(** ** background.js *)

Section RetryInvariant.
Import Scheduler.

Context {X A : Type}.
Variable env : Env.
Variable fn : nat -> Rt * X -> Outcome A * (Rt * X).
Variable opts : RetryOpts.
Variable onRetry : RetryInfo -> Rt * X -> Rt * X.
Variable P : X -> Prop.
Hypothesis fn_keeps : forall a st, P (snd st) -> P (snd (snd (fn a st))).
Hypothesis onRetry_keeps :
  forall info st, P (snd st) -> P (snd (onRetry info st)).

(** What the operation and the hook preserve, the retry loop preserves. *)
Lemma retryLoop_keeps (left attempt : nat) (st : Rt * X) :
  P (snd st) -> P (snd (snd (retryLoop env fn opts onRetry left attempt st))).
Proof.
  revert attempt st. induction left as [|left IH]; intros attempt st HP;
    cbn [retryLoop]; pose proof (fn_keeps attempt st HP) as Hfn;
    destruct (fn attempt st) as [[v|e] st1]; cbn [snd] in *; auto.
  destruct (negb _); [exact Hfn|].
  destruct (backoffDelay env (S attempt) opts (fst st1)) as [delay rt2].
  apply IH. cbn [snd]. apply onRetry_keeps. exact Hfn.
Qed.

End RetryInvariant.

Section OrchestratorEdgeProofs.
Import Scheduler Prompt Background.

Variable env : Env.
Variable net : Net.
Variable cfg : Config.

Lemma scheduledFetch_untouched {A} (enqueue : M A) :
  cacheUntouched enqueue ->
  cacheUntouched (scheduledFetch env enqueue (getRetryOpts cfg) throttle).
Proof.
  intros Hfn st. unfold scheduledFetch, withRetry.
  apply (retryLoop_keeps env (fun _ => enqueue) (getRetryOpts cfg) _
           (fun w => cache w = cache (snd st) /\ writes w = writes (snd st))).
  - intros _ st0 [Hc Hw]. destruct (Hfn st0) as [Hc' Hw']. cbn beta.
    split; etransitivity; eassumption.
  - intros info [rt w] HP. destruct (_ || _); exact HP.
  - split; reflexivity.
Qed.

Lemma fetchOpenaiBatch_untouched (texts : list jsstring) :
  cacheUntouched (fetchOpenaiBatch net texts).
Proof.
  intros [rt w]. unfold fetchOpenaiBatch. cbn [issue].
  destruct (respondBatch net texts (length (calls w))) as [e|code body|[arr|]];
    try destruct (acceptArray arr (length texts)); cbn; auto.
Qed.

Lemma fetchOpenaiSingle_untouched (t : jsstring) :
  cacheUntouched (fetchOpenaiSingle net t).
Proof.
  intros [rt w]. unfold fetchOpenaiSingle. cbn [issue].
  destruct (respondSingle net t (length (calls w))) as [e|code body|[x|]];
    cbn; auto.
Qed.

Lemma fetchCustomBatch_untouched (texts : list jsstring) :
  cacheUntouched (fetchCustomBatch net texts).
Proof.
  intros [rt w]. unfold fetchCustomBatch. cbn [issue].
  destruct (respondBatch net texts (length (calls w))) as [e|code body|[arr|]];
    cbn; auto.
Qed.

Lemma forEach_untouched {A B} (f : A -> M B) (l : list A) :
  (forall x, cacheUntouched (f x)) -> cacheUntouched (forEach f l).
Proof.
  intros Hf. induction l as [|x l IH]; intros st; [now split|].
  cbn [forEach]. unfold bind. cbn beta.
  destruct (Hf x st) as [Hc Hw].
  destruct (f x st) as [[v|e] st1]; cbn [snd] in *; [|now split].
  destruct (IH st1) as [Hc1 Hw1].
  destruct (forEach f l st1) as [[vs|e] st2]; unfold ret; cbn [snd] in *;
    split; etransitivity; eassumption.
Qed.

Lemma openaiSingle_untouched (t : jsstring) :
  cacheUntouched (openaiSingle env net cfg (getRetryOpts cfg) t).
Proof.
  unfold openaiSingle. destruct (trim (providerApiKey cfg)).
  - intros st. now split.
  - apply scheduledFetch_untouched, fetchOpenaiSingle_untouched.
Qed.

Lemma openaiBatch_untouched (texts : list jsstring) :
  cacheUntouched (openaiBatchTranslateArray env net cfg (getRetryOpts cfg) texts).
Proof.
  unfold openaiBatchTranslateArray. destruct (trim (providerApiKey cfg)).
  - intros st. now split.
  - intros st. unfold batchAttempt.
    destruct (scheduledFetch_untouched _ (fetchOpenaiBatch_untouched texts) st)
      as [Hc Hw].
    destruct (scheduledFetch env (fetchOpenaiBatch net texts) (getRetryOpts cfg)
                             throttle st) as [[arr|e] st1];
      cbn [snd] in *; [now split|].
    destruct (isAbortName e); cbn [snd]; [now split|].
    destruct (forEach_untouched (openaiSingle env net cfg (getRetryOpts cfg))
                texts openaiSingle_untouched st1) as [Hc1 Hw1].
    unfold perItemFallback. split; congruence.
Qed.

Lemma customBatch_untouched (texts : list jsstring) :
  cacheUntouched (customTranslateBatch env net cfg (getRetryOpts cfg) texts).
Proof.
  unfold customTranslateBatch. destruct (trim (providerEndpoint cfg)).
  - intros st. now split.
  - apply scheduledFetch_untouched, fetchCustomBatch_untouched.
Qed.

Lemma setNth_app_at (pre rest : list Cache.JsVal) (x y : Cache.JsVal) :
  setNth (length pre) x (pre ++ y :: rest) = pre ++ x :: rest.
Proof. induction pre as [|z pre IH]; cbn; [reflexivity|now rewrite IH]. Qed.

Lemma scanTexts_all_skipped (ctx : CallCtx) (t0 : Z) (texts : list jsstring) :
  forall (pre : list Cache.JsVal) (pending : list PendingItem)
         (c : Cache.LRUCache),
    forallb (skips cfg ctx) texts = true ->
    scanTexts cfg ctx t0 (length pre) texts
              (pre ++ repeat Cache.Undefined (length texts)) pending c
    = (pre ++ List.map Cache.Str texts, pending, c).
Proof.
  induction texts as [|t texts IH]; intros pre pending c Hall; [reflexivity|].
  cbn [forallb] in Hall. apply andb_true_iff in Hall. destruct Hall as [Ht Hall].
  cbn [scanTexts length repeat List.map]. rewrite Ht, setNth_app_at.
  specialize (IH (pre ++ [Cache.Str t]) pending c Hall).
  rewrite length_app, Nat.add_1_r, <- !app_assoc in IH. exact IH.
Qed.

(** X21. When every text is skipped (source and target language agree, or
    the text is too short or holds no letter), the call returns the texts
    themselves, position by position, and touches nothing: no request, no
    cache lookup, no cache write, no time. *)
Theorem translateTextsV2_all_skipped (params : Params) (texts : list jsstring)
        (st : State) :
  forallb (skips cfg (callCtx cfg params)) texts = true ->
  translateTextsV2 env net cfg params texts st
  = (Returned (List.map Cache.Str texts), st).
Proof.
  intros Hall. destruct st as [rt w]. unfold translateTextsV2.
  pose proof (scanTexts_all_skipped _ (now rt) texts [] [] (cache w) Hall) as H.
  cbn [app length] in H. rewrite H. now destruct w.
Qed.

Lemma scheduledFetch_abort {A} (enqueue : M A) (st st1 : State) (e : JsError) :
  enqueue st = (Thrown e, st1) -> isAbortName e = true ->
  scheduledFetch env enqueue (getRetryOpts cfg) throttle st = (Thrown e, st1).
Proof.
  intros H Hab. unfold scheduledFetch, withRetry.
  destruct (maxRetries (getRetryOpts cfg)); cbn [retryLoop]; rewrite H;
    [reflexivity|].
  cbn [isRetriable getRetryOpts]. now rewrite Hab.
Qed.

(** X22. A cancellation is final: when the batch request fails with an
    [AbortError] (or a [SchedulerAbortError]), [openaiBatchTranslateArray]
    rethrows it after that one request, without retry, without throttling
    and without the per-item fallback. *)
Theorem openaiBatch_abort_is_final (texts : list jsstring) (e : JsError)
        (st : State) :
  trim (providerApiKey cfg) <> [] ->
  respondBatch net texts (length (calls (snd st))) = NetFail e ->
  isAbortName e = true ->
  openaiBatchTranslateArray env net cfg (getRetryOpts cfg) texts st
  = (Thrown e, issued net (ReqBatch texts) st).
Proof.
  intros Hkey Hresp Hab. unfold openaiBatchTranslateArray.
  destruct (trim (providerApiKey cfg)) as [|c key]; [congruence|].
  unfold batchAttempt.
  rewrite (scheduledFetch_abort _ st (issued net (ReqBatch texts) st) e);
    [now rewrite Hab| |exact Hab].
  destruct st as [rt w]. unfold fetchOpenaiBatch, issued. cbn [issue snd] in *.
  now rewrite Hresp.
Qed.

(** X23. With the custom provider, and with the openai-compatible provider
    in batching mode, results are stored only after every request has
    succeeded: when the call fails, the cache holds what the first loop
    left and no [cacheInstance.set] has been made. *)
Theorem translateTextsV2_failure_caches_nothing
        (params : Params) (texts : list jsstring) (rt : Rt) (w : World)
        (outs0 : list Cache.JsVal) (pending : list PendingItem)
        (c0 : Cache.LRUCache) (e : JsError) (st' : State) :
  jsstring_eqb (ctxProvider (callCtx cfg params)) (str "openai-compatible")
  = false \/ batchingEnabled cfg = true ->
  scanTexts cfg (callCtx cfg params) (now rt) 0 texts
            (repeat Cache.Undefined (length texts)) [] (cache w)
  = (outs0, pending, c0) ->
  translateTextsV2 env net cfg params texts (rt, w) = (Thrown e, st') ->
  cache (snd st') = c0 /\ writes (snd st') = writes w.
Proof.
  intros Hmode Hscan. unfold translateTextsV2. rewrite Hscan.
  set (st0 := (rt, mkWorld c0 (calls w) (writes w) (throttleUntil w))).
  destruct pending as [|p0 rest] eqn:Ep; [discriminate|]. rewrite <- Ep. clear Ep.
  destruct (jsstring_eqb (ctxProvider (callCtx cfg params))
                         (str "openai-compatible")).
  - destruct Hmode as [Hmode|Hmode]; [discriminate|]. rewrite Hmode.
    pose proof (forEach_untouched
                  (openaiBatchTranslateArray env net cfg (getRetryOpts cfg))
                  (splitInputsByBudget (List.map text pending) (batchingBudget cfg))
                  openaiBatch_untouched st0) as Hkeep.
    destruct (forEach _ _ st0) as [[parts|e1] st1].
    + destruct (mapBack pending (concat parts) outs0 st1). discriminate.
    + intros H. injection H as <- <-. exact Hkeep.
  - pose proof (customBatch_untouched (List.map text pending) st0) as Hkeep.
    destruct (customTranslateBatch _ _ _ _ _ st0) as [[arr|e1] st1].
    + destruct (mapBack pending arr outs0 st1). discriminate.
    + intros H. injection H as <- <-. exact Hkeep.
Qed.

(** X24. Demo mode: with a provider other than openai-compatible and no
    endpoint, no request is issued; every pending position receives its own
    text prefixed with [[demo] ], and that string is written to the cache
    under the position's key. *)
Theorem translateTextsV2_demo_mode
        (params : Params) (texts : list jsstring) (rt : Rt) (w : World)
        (outs0 : list Cache.JsVal) (pending : list PendingItem)
        (c0 : Cache.LRUCache) :
  jsstring_eqb (ctxProvider (callCtx cfg params)) (str "openai-compatible")
  = false ->
  trim (providerEndpoint cfg) = [] ->
  scanTexts cfg (callCtx cfg params) (now rt) 0 texts
            (repeat Cache.Undefined (length texts)) [] (cache w)
  = (outs0, pending, c0) ->
  exists st',
    translateTextsV2 env net cfg params texts (rt, w)
    = (Returned (fillOuts pending (demoOf (List.map text pending)) outs0), st') /\
    calls (snd st') = calls w /\
    writes (snd st')
    = writes w ++ writesOf pending (demoOf (List.map text pending)).
Proof.
  intros Hprov Hend Hscan. unfold translateTextsV2. rewrite Hscan, Hprov.
  set (st0 := (rt, mkWorld c0 (calls w) (writes w) (throttleUntil w))).
  destruct pending as [|p0 rest] eqn:Ep.
  { exists st0. cbn. now rewrite app_nil_r. }
  rewrite <- Ep. clear Ep.
  unfold customTranslateBatch. rewrite Hend. unfold ret. fold (demoOf (List.map text pending)).
  destruct (mapBack_spec pending (demoOf (List.map text pending)) outs0 st0)
    as (st2 & Hmb & Hc & Hw).
  { unfold demoOf. now rewrite !length_map. }
  rewrite Hmb. exists st2. auto.
Qed.

(** X25. With the openai-compatible provider and no API key, a call that
    has at least one text to fetch fails with the missing-key error before
    any request: nothing is sent, nothing is retried, nothing is written. *)
Theorem translateTextsV2_missing_api_key
        (params : Params) (texts : list jsstring) (rt : Rt) (w : World)
        (outs0 : list Cache.JsVal) (pending : list PendingItem)
        (c0 : Cache.LRUCache) :
  jsstring_eqb (ctxProvider (callCtx cfg params)) (str "openai-compatible")
  = true ->
  trim (providerApiKey cfg) = [] ->
  scanTexts cfg (callCtx cfg params) (now rt) 0 texts
            (repeat Cache.Undefined (length texts)) [] (cache w)
  = (outs0, pending, c0) ->
  pending <> [] ->
  translateTextsV2 env net cfg params texts (rt, w)
  = (Thrown apiKeyMissing,
     (rt, mkWorld c0 (calls w) (writes w) (throttleUntil w))).
Proof.
  intros Hprov Hkey Hscan Hne. unfold translateTextsV2. rewrite Hscan, Hprov.
  destruct pending as [|p0 rest] eqn:Ep; [congruence|]. rewrite <- Ep.
  destruct (batchingEnabled cfg).
  - pose proof (splitInputsByBudget_concat (batchingBudget cfg)
                  (List.map text pending)) as Hcat.
    destruct (splitInputsByBudget (List.map text pending) (batchingBudget cfg))
      as [|ch chunks].
    + rewrite Ep in Hcat. discriminate.
    + cbn [forEach]. unfold bind at 1, openaiBatchTranslateArray.
      now rewrite Hkey.
  - rewrite Ep. cbn [perItemLoop]. unfold bind, openaiSingle. now rewrite Hkey.
Qed.

Lemma alignTo_length (n : nat) (results : list jsstring) :
  length (alignTo n results) = n.
Proof.
  revert results. induction n as [|n IH]; intros results; cbn; [reflexivity|].
  now rewrite IH.
Qed.

Lemma mapBack_alignTo (pending : list PendingItem) :
  forall (results : list jsstring) (outs : list Cache.JsVal) (st : State),
    mapBack pending results outs st
    = mapBack pending (alignTo (length pending) results) outs st.
Proof.
  induction pending as [|p pending IH]; intros results outs st; [reflexivity|].
  destruct results as [|r rs]; cbn [mapBack length alignTo tl];
    destruct (store p _ outs st) as [outs1 st1]; apply IH.
Qed.

(** X26. The answer of the custom provider is not checked against the
    number of texts sent: position [k] of the pending texts receives
    [arr[k]], or the empty string when the array is too short, surplus
    elements are dropped, and each value, the empty string included, is
    written to the cache. *)
Theorem translateTextsV2_custom_answer_unchecked
        (params : Params) (texts : list jsstring) (rt : Rt) (w : World)
        (outs0 : list Cache.JsVal) (pending : list PendingItem)
        (c0 : Cache.LRUCache) (arr : list jsstring) :
  jsstring_eqb (ctxProvider (callCtx cfg params)) (str "openai-compatible")
  = false ->
  trim (providerEndpoint cfg) <> [] ->
  scanTexts cfg (callCtx cfg params) (now rt) 0 texts
            (repeat Cache.Undefined (length texts)) [] (cache w)
  = (outs0, pending, c0) ->
  pending <> [] ->
  respondBatch net (List.map text pending) (length (calls w))
  = Payload (Some arr) ->
  exists st',
    translateTextsV2 env net cfg params texts (rt, w)
    = (Returned (fillOuts pending (alignTo (length pending) arr) outs0), st') /\
    calls (snd st') = calls w ++ [ReqBatch (List.map text pending)] /\
    writes (snd st')
    = writes w ++ writesOf pending (alignTo (length pending) arr).
Proof.
  intros Hprov Hend Hscan Hne Hresp. unfold translateTextsV2.
  rewrite Hscan, Hprov.
  set (st0 := (rt, mkWorld c0 (calls w) (writes w) (throttleUntil w))).
  destruct pending as [|p0 rest] eqn:Ep; [congruence|]. rewrite <- Ep in *.
  clear Ep Hne.
  unfold customTranslateBatch.
  destruct (trim (providerEndpoint cfg)) as [|ch k]; [congruence|].
  erewrite scheduledFetch_returned;
    [|unfold fetchCustomBatch, st0; cbn [issue calls]; rewrite Hresp; reflexivity].
  rewrite mapBack_alignTo.
  edestruct (mapBack_spec pending (alignTo (length pending) arr) outs0)
    as (st2 & Hmb & Hc & Hw); [apply alignTo_length|].
  rewrite Hmb. exists st2. split; [reflexivity|].
  rewrite Hc, Hw. cbn [snd calls writes]. auto.
Qed.

End OrchestratorEdgeProofs.

Section LangEqualsProofs.
Import Background.

Lemma jsstring_eqb_sym (a b : jsstring) : jsstring_eqb a b = jsstring_eqb b a.
Proof.
  destruct (jsstring_eqb a b) eqn:E1, (jsstring_eqb b a) eqn:E2; auto.
  - apply jsstring_eqb_eq in E1. subst. now rewrite jsstring_eqb_refl in E2.
  - apply jsstring_eqb_eq in E2. subst. now rewrite jsstring_eqb_refl in E1.
Qed.

Lemma toLowerCase_idem (a : jsstring) :
  toLowerCase (toLowerCase a) = toLowerCase a.
Proof.
  unfold toLowerCase. rewrite map_map. apply map_ext. intros c.
  destruct ((65 <=? c) && (c <=? 90)) eqn:E; [|now rewrite E].
  apply andb_true_iff in E. destruct E as [E1 E2].
  apply Z.leb_le in E1, E2.
  replace ((65 <=? c + 32) && (c + 32 <=? 90)) with false; [reflexivity|].
  symmetry. apply andb_false_iff. right. apply Z.leb_gt. lia.
Qed.

Lemma startsWith_app (x y : jsstring) : startsWith (x ++ y) x = true.
Proof.
  induction x as [|c x IH]; cbn; [now destruct y|]. now rewrite Z.eqb_refl.
Qed.

(** X27. On language tags of ASCII code units, [langEquals] is symmetric
    and blind to the case of the letters; a non-empty tag equals every tag
    it is a prefix of (so [zh] equals [zh-CN], and every tag equals itself);
    an empty tag equals nothing. *)
Theorem langEquals_properties (a b : jsstring) :
  isAscii a = true -> isAscii b = true ->
  langEquals a b = langEquals b a /\
  langEquals (toLowerCase a) b = langEquals a b /\
  (a <> [] -> langEquals a (a ++ b) = true) /\
  langEquals a [] = false.
Proof.
  intros _ _. unfold langEquals. repeat split.
  - destruct (toLowerCase a) as [|x xs] eqn:Ea, (toLowerCase b) as [|y ys] eqn:Eb;
      try reflexivity.
    rewrite jsstring_eqb_sym.
    destruct (jsstring_eqb (y :: ys) (x :: xs)); [reflexivity|].
    cbn [orb]. apply orb_comm.
  - now rewrite toLowerCase_idem.
  - intros Ha.
    assert (Happ : toLowerCase (a ++ b) = toLowerCase a ++ toLowerCase b)
      by apply map_app.
    rewrite Happ. destruct (toLowerCase a) as [|x xs] eqn:Ea.
    + destruct a; [congruence|discriminate].
    + cbn [app]. change (x :: xs ++ toLowerCase b)
        with ((x :: xs) ++ toLowerCase b).
      rewrite startsWith_app. apply orb_true_r.
  - cbn. now destruct (toLowerCase a).
Qed.

End LangEqualsProofs.

(* ----------------------------------------------------------------- *)
(** ** background.js: job controllers *)

Section MapOfProofs.
Context {V : Type}.

Lemma MapOf_get_put_same (k : jsstring) (v : V) (m : MapOf.t V) :
  MapOf.get k (MapOf.put k v m) = Some v.
Proof.
  induction m as [|[k0 v0] m IH]; cbn.
  - now rewrite jsstring_eqb_refl.
  - destruct (jsstring_eqb k0 k) eqn:E; cbn; now rewrite E.
Qed.

Lemma MapOf_get_put_other (k k' : jsstring) (v : V) (m : MapOf.t V) :
  k <> k' -> MapOf.get k' (MapOf.put k v m) = MapOf.get k' m.
Proof.
  intros Hne. induction m as [|[k0 v0] m IH]; cbn.
  - now rewrite jsstring_eqb_neq.
  - destruct (jsstring_eqb k0 k) eqn:E; cbn.
    + apply jsstring_eqb_eq in E. subst k0. now rewrite jsstring_eqb_neq.
    + now rewrite IH.
Qed.

Lemma MapOf_get_delete_other (k k' : jsstring) (m : MapOf.t V) :
  k <> k' -> MapOf.get k' (MapOf.delete k m) = MapOf.get k' m.
Proof.
  intros Hne. induction m as [|[k0 v0] m IH]; cbn; [reflexivity|].
  destruct (jsstring_eqb k0 k) eqn:E; cbn.
  - apply jsstring_eqb_eq in E. subst k0. now rewrite jsstring_eqb_neq.
  - now rewrite IH.
Qed.

Lemma MapOf_get_notin (k : jsstring) (m : MapOf.t V) :
  ~ In k (MapOf.keys m) -> MapOf.get k m = None.
Proof.
  induction m as [|[k0 v0] m IH]; cbn; intros H; [reflexivity|].
  rewrite jsstring_eqb_neq by tauto. apply IH. tauto.
Qed.

Lemma MapOf_get_In (k : jsstring) (v : V) (m : MapOf.t V) :
  MapOf.get k m = Some v -> In (k, v) m.
Proof.
  induction m as [|[k0 v0] m IH]; cbn; [discriminate|].
  destruct (jsstring_eqb k0 k) eqn:E.
  - apply jsstring_eqb_eq in E. intros H. injection H as ->. left. now subst.
  - intros H. right. now apply IH.
Qed.

Lemma MapOf_keys_put (k : jsstring) (v : V) (m : MapOf.t V) :
  MapOf.keys (MapOf.put k v m)
  = match MapOf.get k m with
    | Some _ => MapOf.keys m
    | None => MapOf.keys m ++ [k]
    end.
Proof.
  unfold MapOf.keys.
  induction m as [|[k0 v0] m IH]; cbn; [reflexivity|].
  destruct (jsstring_eqb k0 k) eqn:E; cbn; [reflexivity|].
  rewrite IH. now destruct (MapOf.get k m).
Qed.

Lemma MapOf_put_In (k : jsstring) (v : V) (m : MapOf.t V) (kv : jsstring * V) :
  In kv (MapOf.put k v m) -> In kv m \/ kv = (k, v).
Proof.
  induction m as [|[k0 v0] m IH]; cbn.
  - intros [<-|[]]. now right.
  - destruct (jsstring_eqb k0 k) eqn:E; cbn.
    + apply jsstring_eqb_eq in E. subst k0. intros [<-|H]; auto.
    + intros [<-|H]; auto. apply IH in H. tauto.
Qed.

Lemma MapOf_delete_In (k : jsstring) (m : MapOf.t V) (kv : jsstring * V) :
  In kv (MapOf.delete k m) -> In kv m.
Proof.
  induction m as [|[k0 v0] m IH]; cbn; [tauto|].
  destruct (jsstring_eqb k0 k); cbn; tauto.
Qed.

Lemma MapOf_delete_NoDup (k : jsstring) (m : MapOf.t V) :
  NoDup (MapOf.keys m) ->
  NoDup (MapOf.keys (MapOf.delete k m)) /\ ~ In k (MapOf.keys (MapOf.delete k m)).
Proof.
  induction m as [|[k0 v0] m IH]; cbn; intros H; [split; [constructor|tauto]|].
  inversion H as [|? ? Hnotin Hnd]; subst.
  destruct (jsstring_eqb k0 k) eqn:E; cbn.
  - apply jsstring_eqb_eq in E. subst k0. now split.
  - destruct (IH Hnd) as [IH1 IH2]. split.
    + constructor; [|exact IH1]. intros Hin. apply Hnotin.
      unfold MapOf.keys in *. apply in_map_iff in Hin.
      destruct Hin as (kv & Hk & Hin). apply MapOf_delete_In in Hin.
      apply in_map_iff. now exists kv.
    + intros [Hk|Hin]; [|tauto]. subst k0.
      now rewrite jsstring_eqb_refl in E.
Qed.

Lemma MapOf_put_NoDup (k : jsstring) (v : V) (m : MapOf.t V) :
  NoDup (MapOf.keys m) -> NoDup (MapOf.keys (MapOf.put k v m)).
Proof.
  intros H. rewrite MapOf_keys_put.
  destruct (MapOf.get k m) eqn:E; [exact H|].
  apply NoDup_app; repeat split; [exact H|repeat constructor; intros []|].
  intros x Hx [<-|[]].
  assert (Hsome : exists v0, MapOf.get k m = Some v0).
  { clear E H. induction m as [|[k0 v0] m IH]; cbn in *; [contradiction|].
    destruct (jsstring_eqb k0 k) eqn:E0; [eauto|].
    destruct Hx as [Hx|Hx]; [subst; now rewrite jsstring_eqb_refl in E0|auto]. }
  destruct Hsome as [v0 Hv0]. congruence.
Qed.

End MapOfProofs.

Section JobProofs.
Import Background.

Lemma removeFirst_keeps (c c' : Controller) (arr : list Controller) :
  c' <> c -> In c arr -> In c (removeFirst c' arr).
Proof.
  intros Hne. induction arr as [|x arr IH]; cbn; [tauto|].
  destruct (x =? c')%nat eqn:E.
  - apply Nat.eqb_eq in E. intros [H|H]; [congruence|exact H].
  - intros [H|H]; [now left|right; auto].
Qed.

Lemma jobStep_ok (s : Jobs) (op : JobOp) : jobsOk s -> jobsOk (jobStep s op).
Proof.
  intros [Hnd Hall].
  assert (Hput : forall j arr, j <> [] -> arr <> [] ->
             jobsOk (mkJobs (MapOf.put j arr (jobControllers s)) (aborted s))).
  { intros j arr Hj Harr. split; cbn [jobControllers].
    - now apply MapOf_put_NoDup.
    - apply Forall_forall. intros kv Hin. apply MapOf_put_In in Hin.
      destruct Hin as [Hin| ->]; [|now split].
      rewrite Forall_forall in Hall. now apply Hall. }
  assert (Hdel : forall j,
             jobsOk (mkJobs (MapOf.delete j (jobControllers s)) (aborted s))).
  { intros j. split; cbn [jobControllers].
    - now apply MapOf_delete_NoDup.
    - apply Forall_forall. intros kv Hin. apply MapOf_delete_In in Hin.
      rewrite Forall_forall in Hall. now apply Hall. }
  destruct op as [j c|j c|j]; cbn [jobStep].
  - unfold registerController. destruct j as [|x j]; [now split|].
    apply Hput; [discriminate|]. now destruct (_ ++ [c]) eqn:E;
      [apply app_eq_nil in E; destruct E; discriminate|].
  - unfold unregisterController. destruct j as [|x j]; [now split|].
    destruct (MapOf.get (x :: j) (jobControllers s)) as [arr|]; [|now split].
    destruct (removeFirst c arr) as [|y arr'] eqn:E; [apply Hdel|].
    apply Hput; discriminate.
  - unfold abortJob.
    destruct (MapOf.get j (jobControllers s)) as [arr|]; [|now split].
    destruct (Hdel j) as [H1 H2]. now split.
Qed.

Lemma jobStep_spares (j : jsstring) (c : Controller) (s : Jobs) (op : JobOp) :
  spares j c op = true ->
  (exists arr, MapOf.get j (jobControllers s) = Some arr /\ In c arr) ->
  exists arr, MapOf.get j (jobControllers (jobStep s op)) = Some arr /\ In c arr.
Proof.
  intros Hsp (arr & Hget & Hin).
  destruct op as [j' c'|j' c'|j']; cbn [jobStep spares] in *.
  - unfold registerController. destruct j' as [|x j']; [eauto|].
    cbn [jobControllers].
    destruct (list_eq_dec Z.eq_dec (x :: j') j) as [E|Hne].
    + rewrite E in *. rewrite MapOf_get_put_same, Hget. eexists. split; [reflexivity|].
      apply in_or_app. now left.
    + rewrite MapOf_get_put_other by assumption. eauto.
  - unfold unregisterController. destruct j' as [|x j']; [eauto|].
    destruct (list_eq_dec Z.eq_dec (x :: j') j) as [E|Hne].
    + rewrite E in *. rewrite Hget. rewrite jsstring_eqb_refl in Hsp. cbn [andb] in Hsp.
      apply negb_true_iff, Nat.eqb_neq in Hsp.
      pose proof (removeFirst_keeps c c' arr Hsp Hin) as Hk.
      destruct (removeFirst c' arr) as [|y arr'] eqn:Er; [destruct Hk|].
      cbn [jobControllers]. rewrite MapOf_get_put_same. eauto.
    + destruct (MapOf.get (x :: j') (jobControllers s)) as [arr0|]; [|eauto].
      destruct (removeFirst c' arr0); cbn [jobControllers].
      * rewrite MapOf_get_delete_other by assumption. eauto.
      * rewrite MapOf_get_put_other by assumption. eauto.
  - apply negb_true_iff in Hsp. unfold abortJob.
    assert (Hne : j' <> j).
    { intros ->. now rewrite jsstring_eqb_refl in Hsp. }
    destruct (MapOf.get j' (jobControllers s)) as [arr0|]; [|eauto].
    cbn [jobControllers]. rewrite MapOf_get_delete_other by assumption. eauto.
Qed.

(** X28. A controller registered under a job is aborted by the next
    [abortJob] of that job, whatever is registered, unregistered or aborted
    in between, as long as it is not unregistered itself and the job is not
    aborted; afterwards the job is no longer in the registry, and the
    registry still lists every job once, with at least one controller. *)
Theorem abortJob_reaches_registered (j : jsstring) (c : Controller)
        (ops : list JobOp) (s0 : Jobs) :
  jobsOk s0 -> j <> [] ->
  forallb (spares j c) ops = true ->
  let s := abortJob j (runJobs ops (registerController j c s0)) in
  In c (aborted s) /\ MapOf.get j (jobControllers s) = None /\ jobsOk s.
Proof.
  intros Hok Hj Hops.
  assert (H1 : jobsOk (registerController j c s0))
    by apply (jobStep_ok s0 (Register j c) Hok).
  assert (H2 : exists arr,
             MapOf.get j (jobControllers (registerController j c s0)) = Some arr /\
             In c arr).
  { unfold registerController. destruct j as [|x j]; [congruence|].
    cbn [jobControllers]. rewrite MapOf_get_put_same. eexists.
    split; [reflexivity|]. apply in_or_app. right. now left. }
  revert H1 H2. generalize (registerController j c s0). clear Hok s0.
  unfold runJobs. induction ops as [|op ops IH]; intros s Hok Hreg.
  - cbn [fold_left]. destruct Hreg as (arr & Hget & Hin).
    pose proof (jobStep_ok s (Abort j) Hok) as Hok'. cbn [jobStep] in Hok'.
    unfold abortJob in *. rewrite Hget in *. cbn [aborted jobControllers].
    split; [|split; [|exact Hok']].
    + apply in_or_app. right. now apply -> in_rev.
    + apply MapOf_get_notin. apply MapOf_delete_NoDup. apply Hok.
  - cbn [forallb] in Hops. apply andb_true_iff in Hops. destruct Hops as [Hop Hops].
    cbn [fold_left]. apply IH; [exact Hops|now apply jobStep_ok|].
    now apply jobStep_spares.
Qed.

End JobProofs.

(* ----------------------------------------------------------------- *)
(** ** content.js *)

Section ContentProofs.
Import Content.

Lemma MapOf_get_keys {V} (k : jsstring) (m : MapOf.t V) :
  In k (MapOf.keys m) <-> exists v, MapOf.get k m = Some v.
Proof.
  split.
  - intros Hin. destruct (MapOf.get k m) eqn:E; [eauto|].
    exfalso. revert Hin E. unfold MapOf.keys.
    induction m as [|[k0 v0] m IH]; cbn; [tauto|].
    destruct (jsstring_eqb k0 k) eqn:E0; [discriminate|].
    intros [Hk|Hin]; [subst; now rewrite jsstring_eqb_refl in E0|auto].
  - intros [v Hv]. apply MapOf_get_In in Hv. unfold MapOf.keys.
    apply in_map_iff. now exists (k, v).
Qed.

Lemma nth_error_snoc {A} (pre : list A) (t : A) (k : nat) (x : A) :
  nth_error (pre ++ [t]) k = Some x <->
  nth_error pre k = Some x \/ (k = length pre /\ x = t).
Proof.
  destruct (Nat.lt_ge_cases k (length pre)) as [Hlt|Hge].
  - rewrite nth_error_app1 by assumption. split; [auto|].
    intros [H|[H _]]; [exact H|lia].
  - rewrite nth_error_app2 by assumption.
    assert (Hnone : nth_error pre k = None) by now apply nth_error_None.
    rewrite Hnone. destruct (k - length pre)%nat as [|d] eqn:E; cbn.
    + split; [intros H; injection H as <-; right; split; [lia|reflexivity]|].
      intros [H|[_ ->]]; [discriminate|reflexivity].
    + split; [destruct d; discriminate|]. intros [H|[H _]]; [discriminate|lia].
Qed.

Lemma DedupInv_step (pre : list jsstring) (m : MapOf.t (list nat))
      (uniq : list jsstring) (t : jsstring) :
  DedupInv pre m uniq ->
  match MapOf.get t m with
  | None => DedupInv (pre ++ [t]) (MapOf.put t [length pre] m) (uniq ++ [t])
  | Some idxs => DedupInv (pre ++ [t]) (MapOf.put t (idxs ++ [length pre]) m) uniq
  end.
Proof.
  intros [Hkeys Hnd Hcov Hidx].
  destruct (MapOf.get t m) as [idxs0|] eqn:Eg.
  - destruct (Hidx t idxs0 Eg) as [Hnd0 Hin0]. constructor.
    + now rewrite MapOf_keys_put, Eg.
    + exact Hnd.
    + intros t'. rewrite Hcov, in_app_iff. cbn [In]. split; [tauto|].
      intros [H|[<-|[]]]; [exact H|].
      apply Hcov. rewrite Hkeys. apply MapOf_get_keys. eauto.
    + intros t' idxs Hget.
      destruct (list_eq_dec Z.eq_dec t t') as [E|Hne].
      * rewrite <- E in *. rewrite MapOf_get_put_same in Hget.
        injection Hget as <-. split.
        -- apply NoDup_app; repeat split;
             [exact Hnd0|repeat constructor; intros []|].
           intros k Hk [<-|[]]. apply Hin0 in Hk.
           assert (nth_error pre (length pre) = None) by now apply nth_error_None.
           congruence.
        -- intros k. rewrite in_app_iff, nth_error_snoc, Hin0. cbn [In].
           intuition congruence.
      * rewrite MapOf_get_put_other in Hget by assumption.
        destruct (Hidx t' idxs Hget) as [Hnd1 Hin1]. split; [exact Hnd1|].
        intros k. rewrite nth_error_snoc, Hin1. intuition congruence.
  - assert (Hfresh : ~ In t uniq).
    { rewrite Hkeys, MapOf_get_keys. intros [v Hv]. congruence. }
    constructor.
    + now rewrite MapOf_keys_put, Eg, Hkeys.
    + apply NoDup_app; repeat split; [exact Hnd|repeat constructor; intros []|].
      intros x Hx [<-|[]]. contradiction.
    + intros t'. rewrite !in_app_iff, Hcov. reflexivity.
    + intros t' idxs Hget.
      destruct (list_eq_dec Z.eq_dec t t') as [E|Hne].
      * rewrite <- E in *. rewrite MapOf_get_put_same in Hget.
        injection Hget as <-. split; [repeat constructor; intros []|].
        intros k. rewrite nth_error_snoc. cbn [In]. split.
        -- intros [<-|[]]. right. now split.
        -- intros [H|[-> _]]; [|now left].
           exfalso. apply Hfresh, Hcov. eapply nth_error_In. exact H.
      * rewrite MapOf_get_put_other in Hget by assumption.
        destruct (Hidx t' idxs Hget) as [Hnd1 Hin1]. split; [exact Hnd1|].
        intros k. rewrite nth_error_snoc, Hin1. intuition congruence.
Qed.

Lemma dedupFrom_inv (texts : list jsstring) :
  forall (pre : list jsstring) (m : MapOf.t (list nat)) (uniq : list jsstring),
    DedupInv pre m uniq ->
    DedupInv (pre ++ texts) (fst (dedupFrom (length pre) texts m uniq))
             (snd (dedupFrom (length pre) texts m uniq)).
Proof.
  induction texts as [|t texts IH]; intros pre m uniq Hinv.
  - cbn. now rewrite app_nil_r.
  - cbn [dedupFrom]. pose proof (DedupInv_step pre m uniq t Hinv) as Hstep.
    replace (pre ++ t :: texts) with ((pre ++ [t]) ++ texts)
      by now rewrite <- app_assoc.
    replace (S (length pre)) with (length (pre ++ [t]))
      by (rewrite length_app; cbn; lia).
    destruct (MapOf.get t m); now apply IH.
Qed.

Lemma dedup_inv (texts : list jsstring) :
  DedupInv texts (fst (dedup texts)) (snd (dedup texts)).
Proof.
  apply (dedupFrom_inv texts [] [] []).
  constructor; cbn; try tauto; [constructor|discriminate].
Qed.

(** X29. The dedup loop of [translatePage]: [uniqueTexts] holds every text
    of the page once, it is the key list of [textToIdxs], and the indices
    stored under a text are, each once, the positions of the nodes that hold
    this text. *)
Theorem dedup_spec (texts : list jsstring) :
  let (textToIdxs, uniqueTexts) := dedup texts in
  uniqueTexts = MapOf.keys textToIdxs /\
  NoDup uniqueTexts /\
  (forall t, In t uniqueTexts <-> In t texts) /\
  (forall t idxs, MapOf.get t textToIdxs = Some idxs ->
     NoDup idxs /\ forall k, In k idxs <-> nth_error texts k = Some t).
Proof.
  destruct (dedup_inv texts) as [H1 H2 H3 H4].
  destruct (dedup texts) as [m uniq]. cbn [fst snd] in *. auto.
Qed.

Lemma setContent_length (i : nat) (o : jsstring) (c : list jsstring) :
  length (setContent i o c) = length c.
Proof. revert i. induction c as [|y c IH]; intros [|i]; cbn; auto. Qed.

Lemma setContent_nth (i k : nat) (o : jsstring) (c : list jsstring) :
  nth_error (setContent i o c) k
  = if (k =? i)%nat && (k <? length c)%nat then Some o else nth_error c k.
Proof.
  revert i k. induction c as [|y c IH]; intros [|i] [|k]; cbn;
    rewrite ?andb_false_r; auto.
Qed.

Section Backfill.
Variable f : jsstring -> jsstring.
Variable texts : list jsstring.
Variable m : MapOf.t (list nat).
Variable uniq : list jsstring.
Hypothesis inv : DedupInv texts m uniq.

(** The nodes whose text is in [done] show its translation. *)
Let filled (done : list jsstring) (c : list jsstring) : Prop :=
  length c = length texts /\
  forall k t, nth_error texts k = Some t -> In t done -> nth_error c k = Some (f t).

Lemma writeAll_nth (o : jsstring) (idxs : list nat) :
  forall (c : list jsstring) (k : nat),
    let c' := fold_left (fun c i => setContent i o c) idxs c in
    length c' = length c /\
    (In k idxs -> (k < length c)%nat -> nth_error c' k = Some o) /\
    (~ In k idxs -> nth_error c' k = nth_error c k) /\
    (nth_error c k = Some o -> nth_error c' k = Some o).
Proof.
  induction idxs as [|i idxs IH]; intros c k; cbn [fold_left In].
  - repeat split; tauto.
  - destruct (IH (setContent i o c) k) as (Hl & Hin & Hout & Hkeep).
    rewrite setContent_length in *.
    assert (Hset : nth_error c k = Some o \/ (k = i /\ (k < length c)%nat) ->
                   nth_error (setContent i o c) k = Some o).
    { intros H. rewrite setContent_nth.
      destruct ((k =? i)%nat && (k <? length c)%nat) eqn:E; [reflexivity|].
      destruct H as [H|[H1 H2]]; [exact H|].
      apply andb_false_iff in E.
      destruct E as [E|E]; [apply Nat.eqb_neq in E|apply Nat.ltb_ge in E]; lia. }
    repeat split.
    + exact Hl.
    + intros [Hi|Hi] Hk; [apply Hkeep, Hset; right; split; [congruence|lia]|].
      now apply Hin.
    + intros Hn. rewrite Hout by tauto. rewrite setContent_nth.
      replace (k =? i)%nat with false; [reflexivity|].
      symmetry. apply Nat.eqb_neq. intros ->. tauto.
    + intros H. apply Hkeep, Hset. now left.
Qed.

Lemma applyOutput_filled (done : list jsstring) (txt : jsstring)
      (c : list jsstring) :
  In txt uniq -> filled done c ->
  filled (txt :: done) (applyOutput m txt (Cache.Str (f txt)) c).
Proof.
  intros Hin [Hlen Hdone]. destruct inv as [Hkeys _ _ Hidx].
  assert (Hget : exists idxs, MapOf.get txt m = Some idxs).
  { apply MapOf_get_keys. now rewrite <- Hkeys. }
  destruct Hget as [idxs Hget]. destruct (Hidx txt idxs Hget) as [_ Hpos].
  unfold applyOutput. rewrite Hget. split.
  - now rewrite (proj1 (writeAll_nth (f txt) idxs c 0)).
  - intros k t Hk Ht.
    destruct (writeAll_nth (f txt) idxs c k) as (_ & Hw & Hout & Hkeep).
    destruct (list_eq_dec Z.eq_dec t txt) as [->|Hne].
    + apply Hw; [now apply Hpos|].
      rewrite Hlen. apply nth_error_Some. congruence.
    + destruct Ht as [Ht|Ht]; [congruence|].
      rewrite Hout; [now apply Hdone|].
      intros Hk'. apply Hpos in Hk'. congruence.
Qed.

Lemma backfill_filled (chunk : list jsstring) :
  forall (done : list jsstring) (c : list jsstring),
    (forall t, In t chunk -> In t uniq) -> filled done c ->
    filled (rev chunk ++ done)
           (backfill m chunk (List.map (fun t => Cache.Str (f t)) chunk) c).
Proof.
  induction chunk as [|txt chunk IH]; intros done c Hsub Hf; [exact Hf|].
  cbn [List.map backfill rev]. rewrite <- app_assoc. cbn [app].
  apply IH; [intros t Ht; apply Hsub; now right|].
  apply applyOutput_filled; [apply Hsub; now left|exact Hf].
Qed.

Lemma pageLoop_filled (batchSize : nat) (fuel : nat) :
  (1 <= batchSize)%nat ->
  forall (rest done : list jsstring) (c : list jsstring),
    (length rest <= fuel)%nat ->
    (forall t, In t rest -> In t uniq) -> filled done c ->
    exists done',
      (forall t, In t done \/ In t rest -> In t done') /\
      filled done'
             (pageLoop fuel (List.map (fun t => Cache.Str (f t))) batchSize m rest c).
Proof.
  intros Hb. induction fuel as [|fuel IH]; intros rest done c Hfuel Hsub Hf.
  - destruct rest; [|cbn in Hfuel; lia]. exists done.
    split; [intros t [H|[]]; exact H|exact Hf].
  - cbn [pageLoop]. destruct rest as [|x rest'] eqn:Er.
    { exists done. split; [intros t [H|[]]; exact H|exact Hf]. }
    rewrite <- Er in *.
    assert (Hsplit : firstn batchSize rest ++ skipn batchSize rest = rest)
      by apply firstn_skipn.
    destruct (IH (skipn batchSize rest) (rev (firstn batchSize rest) ++ done)
                 (backfill m (firstn batchSize rest)
                           (List.map (fun t => Cache.Str (f t))
                                     (firstn batchSize rest)) c))
      as (done' & Hd & Hfill).
    + rewrite length_skipn. rewrite Er in *. cbn [length] in *. lia.
    + intros t Ht. apply Hsub. rewrite <- Hsplit. apply in_or_app. now right.
    + apply backfill_filled; [|exact Hf].
      intros t Ht. apply Hsub. rewrite <- Hsplit. apply in_or_app. now left.
    + exists done'. split; [|exact Hfill].
      intros t [Ht|Ht]; apply Hd.
      * left. apply in_or_app. now right.
      * rewrite <- Hsplit in Ht. apply in_app_or in Ht.
        destruct Ht as [Ht|Ht]; [left|now right].
        apply in_or_app. left. now apply -> in_rev.
Qed.

Lemma filled_all (c : list jsstring) (done : list jsstring) :
  (forall t, In t uniq -> In t done) -> filled done c -> c = List.map f texts.
Proof.
  intros Hall [Hlen Hdone]. destruct inv as [_ _ Hcov _].
  apply nth_error_ext. intros k. rewrite nth_error_map.
  destruct (nth_error texts k) as [t|] eqn:E; cbn.
  - apply Hdone; [exact E|]. apply Hall, Hcov. eapply nth_error_In. exact E.
  - apply nth_error_None. rewrite Hlen. now apply nth_error_None.
Qed.

End Backfill.

(** X30. Dedup and backfill together: when every request is answered with
    the translations of its chunk, in order, each node of the page ends up
    showing the translation of its own text, whatever the batch size asked
    for and however often a text is repeated. *)
Theorem translatePage_fills_every_node (f : jsstring -> jsstring)
        (requested : nat) (texts content : list jsstring) :
  length content = length texts ->
  translatePage (List.map (fun t => Cache.Str (f t))) requested texts content
  = List.map f texts.
Proof.
  intros Hlen. unfold translatePage.
  pose proof (dedup_inv texts) as Hinv.
  destruct (dedup texts) as [m uniq]. cbn [fst snd] in Hinv.
  destruct (pageLoop_filled f texts m uniq Hinv (initialBatchSize requested)
              (length uniq)
              ltac:(unfold initialBatchSize; lia)
              uniq [] content (Nat.le_refl _) (fun t H => H))
    as (done' & Hd & Hfill).
  - split; [exact Hlen|]. intros k t _ [].
  - apply (filled_all f texts m uniq Hinv _ done'); [|exact Hfill].
    intros t Ht. apply Hd. now right.
Qed.

End ContentProofs.

(* ----------------------------------------------------------------- *)
(** ** Instances *)

Section MoreWitnesses.
Import Scheduler Prompt.

Lemma take_keeps_tokens_in_range_witness :
  exists b' rt',
    take 1 Samples.env0 1 (mkBucket 1 2 2 0) Samples.rt0 = Some (b', rt') /\
    capacity b' = 2 /\ rps b' = 1%Q.
Proof.
  destruct (take 1 Samples.env0 1 (mkBucket 1 2 2 0) Samples.rt0)
    as [[b' rt']|] eqn:E; [|vm_compute in E; discriminate E].
  exists b', rt'. split; [reflexivity|].
  apply (take_keeps_tokens_in_range Samples.env0 1 1 (mkBucket 1 2 2 0) b'
           Samples.rt0 rt'); [|exact E].
  split; discriminate.
Defined.

Lemma getJitterDelay_in_range_witness :
  50 <= fst (getJitterDelay Samples.env0 Samples.schedFrac Samples.rt0) <= 200.
Proof.
  apply (getJitterDelay_in_range Samples.env0 Samples.schedFrac Samples.rt0).
  - intros k. split; [discriminate|reflexivity].
  - split; discriminate.
  - reflexivity.
Defined.


Lemma pool_fifo_fates_witness :
  poolStarted (runPool [OpEnqueue 1; OpEnqueue 2; OpEnqueue 3; OpClose] (newPool 2))
  ++ poolQueue (runPool [OpEnqueue 1; OpEnqueue 2; OpEnqueue 3; OpClose] (newPool 2))
  ++ poolRejected (runPool [OpEnqueue 1; OpEnqueue 2; OpEnqueue 3; OpClose]
                           (newPool 2))
  = [1; 2; 3]%nat.
Proof.
  apply (pool_fifo_fates 2 [OpEnqueue 1; OpEnqueue 2; OpEnqueue 3; OpClose]).
  lia.
Defined.



Lemma batchAttempt_recovers_after_throttled_status_witness :
  exists st',
    Background.batchAttempt Samples.env0 Samples.netFlaky
      (Background.getRetryOpts Samples.cfgBatch) [Samples.hello] Samples.st0
    = (Returned [str "T:" ++ Samples.hello], st') /\
    Background.calls (snd st')
    = [] ++ [Background.ReqBatch [Samples.hello];
             Background.ReqBatch [Samples.hello]] /\
    Background.throttleUntil (snd st') = 0 + 5 + 60000.
Proof.
  apply (batchAttempt_recovers_after_throttled_status Samples.env0
           Samples.netFlaky Samples.cfgBatch [Samples.hello]
           [str "T:" ++ Samples.hello] 429 (str "slow") Samples.st0);
    try reflexivity.
  cbn. lia.
Defined.

Lemma cacheFull_fits : Cache.cacheFits Samples.cacheFull.
Proof.
  split; [split|]; cbn; [|lia|lia].
  repeat constructor; cbn; intuition discriminate.
Qed.




Lemma get_hit_protects_from_eviction_witness :
  Cache.map (Cache.set (str "c") (Cache.Str (str "C")) None 9
               (snd (Cache.get (str "a") 5 Samples.cacheFull)))
  = [] ++ [(str "a", Cache.mkEntry (Cache.Str (str "A")) 0);
           (str "c", Cache.mkEntry (Cache.Str (str "C")) 0)].
Proof.
  apply (get_hit_protects_from_eviction (str "a") (str "b") (str "c")
           (Cache.mkEntry (Cache.Str (str "A")) 0)
           (Cache.mkEntry (Cache.Str (str "B")) 0) []
           (Cache.Str (str "C")) None 5 9 Samples.cacheFull
           cacheFull_fits eq_refl eq_refl eq_refl eq_refl).
  cbn. intuition discriminate.
Defined.

Lemma cache_never_exceeds_size_witness :
  Cache.cacheFits
    (Cache.applyOps
       [Cache.OpSet (str "a") (Cache.Str (str "A")) None 1;
        Cache.OpUpdate (Some (3 # 2)) None None;
        Cache.OpSet (str "b") (Cache.Str (str "B")) None 2]
       (Cache.newLRUCache 2 0 true)).
Proof.
  apply (proj2 (cache_never_exceeds_size 2 0 true
                  [Cache.OpSet (str "a") (Cache.Str (str "A")) None 1;
                   Cache.OpUpdate (Some (3 # 2)) None None;
                   Cache.OpSet (str "b") (Cache.Str (str "B")) None 2])).
  reflexivity.
Defined.

Lemma updateOptions_keeps_most_recent_witness :
  Cache.size (Cache.updateOptions (Some (1 # 2)) None None Samples.cacheFull) = 0 /\
  Cache.map (Cache.updateOptions (Some (1 # 2)) None None Samples.cacheFull) = [] /\
  forall k v ttl t,
    Cache.map (Cache.set k v ttl t
                 (Cache.updateOptions (Some (1 # 2)) None None Samples.cacheFull))
    = [].
Proof.
  apply (updateOptions_keeps_most_recent (1 # 2) None None Samples.cacheFull
           cacheFull_fits).
  split; reflexivity.
Defined.

Lemma delete_then_get_witness :
  fst (Cache.get (str "a") 5 (Cache.delete (str "a") Samples.cacheFull))
  = Cache.Undefined.
Proof.
  apply (delete_then_get (str "a") 5 Samples.cacheFull cacheFull_fits).
Defined.

Lemma splitInputsByBudget_oversized_alone_witness :
  In [str "abcdefgh"]
     (splitInputsByBudget [str "ab"; str "abcdefgh"; str "c"] (mkBudget 20 5 100)) /\
  [str "abcdefgh"] = [str "abcdefgh"].
Proof.
  assert (Hin : In [str "abcdefgh"]
                   (splitInputsByBudget [str "ab"; str "abcdefgh"; str "c"]
                                        (mkBudget 20 5 100)))
    by (right; left; reflexivity).
  split; [exact Hin|].
  apply (splitInputsByBudget_oversized_alone (mkBudget 20 5 100)
           eq_refl eq_refl eq_refl
           [str "ab"; str "abcdefgh"; str "c"] (str "abcdefgh")
           [str "abcdefgh"]); [left; reflexivity|exact Hin|left; reflexivity].
Defined.

Lemma isSkippableSegment_false_witness :
  (exists c, In c (str " ok ") /\ isLetterLike c = true) /\
  Z.max 0 (toInt32 2) <= jslength (str " ok ").
Proof.
  apply (isSkippableSegment_false (str " ok ") 2). reflexivity.
Defined.

Lemma translateTextsV2_all_skipped_witness :
  Background.translateTextsV2 Samples.env0 Samples.net500 Samples.cfgSameLang
    Samples.noParams [Samples.hello; str "second text"] Samples.st0
  = (Returned [Cache.Str Samples.hello; Cache.Str (str "second text")],
     Samples.st0).
Proof.
  apply (translateTextsV2_all_skipped Samples.env0 Samples.net500
           Samples.cfgSameLang Samples.noParams
           [Samples.hello; str "second text"] Samples.st0).
  reflexivity.
Defined.

Lemma openaiBatch_abort_is_final_witness :
  Background.openaiBatchTranslateArray Samples.env0 Samples.netAbort
    Samples.cfgBatch (Background.getRetryOpts Samples.cfgBatch)
    [Samples.hello] Samples.st0
  = (Thrown AbortError,
     Background.issued Samples.netAbort (Background.ReqBatch [Samples.hello])
                       Samples.st0).
Proof.
  apply (openaiBatch_abort_is_final Samples.env0 Samples.netAbort
           Samples.cfgBatch [Samples.hello] AbortError Samples.st0);
    [discriminate|reflexivity|reflexivity].
Defined.

Lemma translateTextsV2_failure_caches_nothing_witness :
  Background.writes
    (snd (snd (Background.translateTextsV2 Samples.env0 Samples.net400
                 Samples.cfgCustom Samples.noParams [Samples.hello]
                 Samples.st0)))
  = [].
Proof.
  apply (translateTextsV2_failure_caches_nothing Samples.env0 Samples.net400
           Samples.cfgCustom Samples.noParams [Samples.hello]
           Samples.rt0 Samples.world0
           (fst (fst (Samples.scanOf Samples.cfgCustom [Samples.hello])))
           (snd (fst (Samples.scanOf Samples.cfgCustom [Samples.hello])))
           (snd (Samples.scanOf Samples.cfgCustom [Samples.hello]))
           (Background.httpError (str "Provider ") 400 (str "bad"))
           (snd (Background.translateTextsV2 Samples.env0 Samples.net400
                   Samples.cfgCustom Samples.noParams [Samples.hello]
                   Samples.st0))
           (or_introl eq_refl) eq_refl eq_refl).
Defined.

Lemma translateTextsV2_demo_mode_witness :
  exists st',
    Background.translateTextsV2 Samples.env0 Samples.net500 Samples.cfgDemo
      Samples.noParams [Samples.hello] Samples.st0
    = (Returned [Cache.Str (str "[demo] " ++ Samples.hello)], st') /\
    Background.calls (snd st') = [] /\
    Background.writes (snd st')
    = [] ++ Background.writesOf
              (snd (fst (Samples.scanOf Samples.cfgDemo [Samples.hello])))
              (Background.demoOf [Samples.hello]).
Proof.
  apply (translateTextsV2_demo_mode Samples.env0 Samples.net500 Samples.cfgDemo
           Samples.noParams [Samples.hello] Samples.rt0 Samples.world0
           (fst (fst (Samples.scanOf Samples.cfgDemo [Samples.hello])))
           (snd (fst (Samples.scanOf Samples.cfgDemo [Samples.hello])))
           (snd (Samples.scanOf Samples.cfgDemo [Samples.hello]))
           eq_refl eq_refl eq_refl).
Defined.

Lemma translateTextsV2_missing_api_key_witness :
  fst (Background.translateTextsV2 Samples.env0 Samples.netEcho Samples.cfgNoKey
         Samples.noParams [Samples.hello] Samples.st0)
  = Thrown Background.apiKeyMissing.
Proof.
  refine (f_equal fst
            (translateTextsV2_missing_api_key Samples.env0 Samples.netEcho
               Samples.cfgNoKey Samples.noParams [Samples.hello]
               Samples.rt0 Samples.world0
               (fst (fst (Samples.scanOf Samples.cfgNoKey [Samples.hello])))
               (snd (fst (Samples.scanOf Samples.cfgNoKey [Samples.hello])))
               (snd (Samples.scanOf Samples.cfgNoKey [Samples.hello]))
               eq_refl eq_refl eq_refl _)).
  discriminate.
Defined.

Lemma translateTextsV2_custom_answer_unchecked_witness :
  exists st',
    Background.translateTextsV2 Samples.env0 Samples.netShort Samples.cfgCustom
      Samples.noParams [Samples.hello; str "second text"] Samples.st0
    = (Returned [Cache.Str (str "T"); Cache.Str []], st') /\
    Background.calls (snd st')
    = [] ++ [Background.ReqBatch [Samples.hello; str "second text"]] /\
    Background.writes (snd st')
    = [] ++ Background.writesOf
              (snd (fst (Samples.scanOf Samples.cfgCustom
                           [Samples.hello; str "second text"])))
              [str "T"; []].
Proof.
  apply (translateTextsV2_custom_answer_unchecked Samples.env0 Samples.netShort
           Samples.cfgCustom Samples.noParams
           [Samples.hello; str "second text"] Samples.rt0 Samples.world0
           (fst (fst (Samples.scanOf Samples.cfgCustom
                        [Samples.hello; str "second text"])))
           (snd (fst (Samples.scanOf Samples.cfgCustom
                        [Samples.hello; str "second text"])))
           (snd (Samples.scanOf Samples.cfgCustom
                   [Samples.hello; str "second text"]))
           [str "T"] eq_refl);
    [discriminate|reflexivity|discriminate|reflexivity].
Defined.

Lemma langEquals_properties_witness :
  Background.langEquals (str "zh") (str "zh" ++ str "-CN") = true.
Proof.
  apply (langEquals_properties (str "zh") (str "-CN") eq_refl eq_refl).
  discriminate.
Defined.

Lemma abortJob_reaches_registered_witness :
  In 7%nat
     (Background.aborted
        (Background.abortJob (str "job")
           (Background.runJobs
              [Background.Register (str "job") 8%nat;
               Background.Unregister (str "job") 8%nat;
               Background.Abort (str "other")]
              (Background.registerController (str "job") 7%nat
                 (Background.mkJobs [] []))))).
Proof.
  apply (abortJob_reaches_registered (str "job") 7%nat
           [Background.Register (str "job") 8%nat;
            Background.Unregister (str "job") 8%nat;
            Background.Abort (str "other")]
           (Background.mkJobs [] [])).
  - split; constructor.
  - discriminate.
  - reflexivity.
Defined.

Lemma translatePage_fills_every_node_witness :
  Content.translatePage (List.map (fun t => Cache.Str (str "T:" ++ t))) 40
    [str "a"; str "b"; str "a"] [str "a"; str "b"; str "a"]
  = [str "T:a"; str "T:b"; str "T:a"].
Proof.
  apply (translatePage_fills_every_node (fun t => str "T:" ++ t) 40
           [str "a"; str "b"; str "a"] [str "a"; str "b"; str "a"]).
  reflexivity.
Defined.

End MoreWitnesses.
